(** * Pixel-Ripper: the per-frame ASCII transform of [ascii_engine.c]

    A shallow embedding of the frame arena, the lookup-table builder, the
    tile processor, the frame orchestrator, the console renderer, the
    glyph compositor and the still-image path of the decoder, of the
    file-name tests, the option loop, the mode selection and the terminal
    fitting of [main.c] and of the SSE helpers of [simd_ops.h], followed
    by the properties proved about them.

    Conventions of the embedding.
    - C [int] and [size_t] values are integers of [Z]; [size_t] arithmetic
      wraps modulo [2^64] and the wrap is written out ([Size.wrap]).  Signed
      [int] overflow is undefined in C and is not modelled: [int]
      expressions are evaluated in [Z].
    - C [float] is IEEE-754 binary32, round to nearest even: the standard
      library's executable [spec_float] operations at precision 24 and
      maximal exponent 128.  The program is modelled as its Makefile builds
      it ([gcc -O3 -march=native] on a processor with fused multiply-add):
      in an expression [a * b + c] the product is not rounded before the
      addition ([F32.fma]).  This concerns the luma, the squared gradient
      magnitude and the saturation blend; every other operation is rounded
      on its own.
    - Bytes ([uint8_t], [unsigned char], [char] read as its byte) are
      [Byte.byte]; arrays are lists read with [nth], and the two output
      buffers are maps from a cell index to a byte.
    - FFmpeg, libc and libm are outside the repository: [sws_scale]'s
      result (the packed RGB frame) is an input of the model, and [powf]
      is a parameter of [init_luts]. *)

From Stdlib Require Import ZArith List Lia Bool Permutation.
From Stdlib Require Import Strings.Byte.
From Stdlib Require Strings.String.
From Stdlib Require Import Floats.SpecFloat.
From Stdlib Require Reals Lra.
Import ListNotations.
Open Scope Z_scope.

(* ================================================================== *)
(** * Part I: the embedding                                            *)
(* ================================================================== *)

(** ** Bytes *)

Definition u8 (b : byte) : Z := Z.of_N (Byte.to_N b).

Definition byte_of (z : Z) : byte :=
  match Byte.of_N (Z.to_N (z mod 256)) with
  | Some b => b
  | None => x00
  end.

(** [a[i]] for an array held as a list.  An index outside the array is
    undefined behaviour in C; the model reads [x00] there. *)
Definition byte_at (a : list byte) (i : Z) : byte :=
  if i <? 0 then x00 else nth (Z.to_nat i) a x00.

(** The integers [a, a+1, ..., b-1] in increasing order: the values a
    [for (v = a; v < b; v++)] loop visits. *)
Definition range (a b : Z) : list Z :=
  map (fun k => a + Z.of_nat k) (seq 0 (Z.to_nat (b - a))).

(** ** C [float]: IEEE-754 binary32 *)

Module F32.

Definition prec : Z := 24.
Definition emax : Z := 128.

Definition f32 : Type := spec_float.

Definition add : f32 -> f32 -> f32 := SFadd prec emax.
Definition sub : f32 -> f32 -> f32 := SFsub prec emax.
Definition mul : f32 -> f32 -> f32 := SFmul prec emax.
Definition div : f32 -> f32 -> f32 := SFdiv prec emax.
Definition ltb : f32 -> f32 -> bool := SFltb.
Definition eqb : f32 -> f32 -> bool := SFeqb.
Definition fabsf : f32 -> f32 := SFabs.

(** [x * y + z] with one rounding, the fused multiply-add.  The
    repository's Makefile compiles with [gcc -O3 -march=native], and GCC
    then contracts a product that is added to something into this
    operation ([vfmadd] on x86-64).  The exact product of two finite
    numbers is [mx * my] at exponent [ex + ey]; it is added to [z] the
    way [SFadd] adds, before the only rounding.  When a factor is not
    finite or is zero the product is exact as [mul] gives it. *)
Definition fma (x y z : f32) : f32 :=
  match x, y with
  | S754_finite sx mx ex, S754_finite sy my ey =>
      match z with
      | S754_zero _ => mul x y
      | _ => add (S754_finite (xorb sx sy) (mx * my) (ex + ey)) z
      end
  | _, _ => add (mul x y) z
  end.

(** [(float)z] for an integer [z]. *)
Definition of_int (z : Z) : f32 := binary_normalize prec emax z 0 false.

(** The decimal constant [n/d] written with an [f] suffix: the binary32
    value nearest to the quotient. *)
Definition lit (n d : positive) : f32 :=
  let '(q, e, l) := SFdiv_core_binary prec emax (Zpos n) 0 (Zpos d) 0 in
  binary_round_aux prec emax false q e l.

Definition zero : f32 := S754_zero false.
Definition one : f32 := of_int 1.
Definition f255 : f32 := of_int 255.

(** The integer part of a finite value (rounding toward zero). *)
Definition trunc (x : f32) : option Z :=
  match x with
  | S754_zero _ => Some 0
  | S754_finite s m e =>
      let v := match e with
               | Zneg p => Zpos m / 2 ^ (Zpos p)
               | _ => Zpos m * 2 ^ e
               end in
      Some (if s then - v else v)
  | _ => None
  end.

Definition INT_MIN : Z := - 2 ^ 31.
Definition INT_MAX : Z := 2 ^ 31 - 1.

(** [(int)x].  The conversion is undefined in C when the integer part
    does not fit an [int] (or [x] is a NaN or infinite); the model
    returns what the x86-64 conversion instruction does there,
    [INT_MIN]. *)
Definition to_int (x : f32) : Z :=
  match trunc x with
  | Some v => if (INT_MIN <=? v) && (v <=? INT_MAX) then v else INT_MIN
  | None => INT_MIN
  end.

(** [(uint8_t)x]: defined in C when the integer part lies in [0, 255],
    which is where the program uses it; elsewhere the model keeps the low
    byte of [(int)x]. *)
Definition to_uint8 (x : f32) : byte := byte_of (to_int x).

(** "zero, or finite of magnitude below [2^k]", with an exponent no
    larger than a 24-bit significand of that magnitude has. *)
Definition bounded_by (k : Z) (x : f32) : Prop :=
  match x with
  | S754_zero _ => True
  | S754_finite _ m e => Zpos (digits2_pos m) + e <= k /\ e <= k - prec
  | _ => False
  end.

Definition is_finite (x : f32) : bool :=
  match x with
  | S754_zero _ | S754_finite _ _ _ => true
  | _ => false
  end.

(** "zero, or finite with a significand of 24 digits". *)
Definition full_mantissa (x : f32) : Prop :=
  match x with
  | S754_zero _ => True
  | S754_finite _ m _ => Zpos (digits2_pos m) = 24
  | _ => False
  end.

End F32.

Import F32.

(** ** [size_t] *)

Module Size.

Definition modulus : Z := 2 ^ 64.
Definition SIZE_MAX : Z := modulus - 1.

(** Reduction of an integer to [size_t]; also the conversion
    [(size_t)i] of a (possibly negative) [int]. *)
Definition wrap (z : Z) : Z := z mod modulus.

Definition add (a b : Z) : Z := wrap (a + b).
Definition mul (a b : Z) : Z := wrap (a * b).

End Size.

(** ** The frame arena ([arena_init], [arena_alloc], [arena_reset]) *)

Module Arena.

(** [start] is kept out of the record: an allocation is reported as its
    offset from [start], and [NULL] as [None]. *)
Record t : Type := mk { size : Z; used : Z }.

(** [arena_init] after a successful [malloc]. *)
Definition arena_init (sz : Z) : t := {| size := sz; used := 0 |}.

(** [size = (size + 15) & ~15] in [size_t]. *)
Definition align16 (sz : Z) : Z :=
  Z.land (Size.add sz 15) (Size.wrap (Z.lnot 15)).

(** [arena_alloc]: the offset of the block, or [None] for [NULL], and
    the arena afterwards. *)
Definition arena_alloc (a : t) (sz : Z) : option Z * t :=
  let sz' := align16 sz in
  if Size.add (used a) sz' >? size a then (None, a)
  else (Some (used a), {| size := size a; used := Size.add (used a) sz' |}).

Definition arena_reset (a : t) : t := {| size := size a; used := 0 |}.

(** What the spec calls the rounded request: the least multiple of 16
    that is at least [sz], as a mathematical integer. *)
Definition round_up_16 (sz : Z) : Z := 16 * ((sz + 15) / 16).

(** Arena operations, for statements over sequences of them. *)
Inductive op : Type :=
| Alloc (sz : Z)
| Reset.

Definition step (a : t) (o : op) : t :=
  match o with
  | Alloc sz => snd (arena_alloc a sz)
  | Reset => arena_reset a
  end.

Definition run (a : t) (ops : list op) : t := fold_left step ops a.

Definition well_formed (a : t) : Prop :=
  0 <= used a <= size a /\ size a <= Size.SIZE_MAX /\ used a mod 16 = 0.

End Arena.

(** ** The lookup-table builder ([init_luts]) *)

Module Luts.

Import Strings.String.

(** The ramp constants, as the bytes of the C string literals.  The
    literal of [flat_ramp] holds 91 characters while [flat_ramp_len] is
    90; the second character of [vertical_ramp] is written in UTF-8 and
    takes two bytes. *)
Definition flat_ramp : list byte :=
  String.list_byte_of_string
    "`.-':_,^=;><+!rc*/z?sLTv)J7(|Fi{C}fI31tlu[neoZ5Yxjya]2ESwqkP6h9d4VpOGbUAKXHm8RD#$Bg0MNWQ%&@".
Definition flat_ramp_len : Z := 90.
Definition vertical_ramp : list byte := [x7c; xc2; xa6].
Definition vertical_ramp_len : Z := 2.
Definition horizontal_ramp : list byte := String.list_byte_of_string "-=".
Definition horizontal_ramp_len : Z := 2.
Definition diagonal1_ramp : list byte := String.list_byte_of_string "\_".
Definition diagonal1_ramp_len : Z := 2.
Definition diagonal2_ramp : list byte := String.list_byte_of_string "/_".
Definition diagonal2_ramp_len : Z := 2.

Record t : Type := mk {
  char_lut_flat : list byte;
  char_lut_vert : list byte;
  char_lut_horz : list byte;
  char_lut_diag1 : list byte;
  char_lut_diag2 : list byte;
  gamma_lut : list byte
}.

(** [br = (float)i / 255.0f]. *)
Definition brightness (i : Z) : f32 := div (of_int i) f255.

(** [ramp[(int)(br * (ramp_len - 1))]]. *)
Definition ramp_entry (ramp : list byte) (ramp_len : Z) (i : Z) : byte :=
  byte_at ramp (to_int (mul (brightness i) (of_int (ramp_len - 1)))).

(** The exponent [1.0f / 2.2f]. *)
Definition gamma_exponent : f32 := div one (lit 22 10).

(** [(uint8_t)(powf((float)i / 255.0f, 1.0f / 2.2f) * 255.0f)]. *)
Definition gamma_entry (powf : f32 -> f32 -> f32) (i : Z) : byte :=
  to_uint8 (mul (powf (brightness i) gamma_exponent) f255).

Definition table (entry : Z -> byte) : list byte := map entry (range 0 256).

Definition init_luts (powf : f32 -> f32 -> f32) : t :=
  {| char_lut_flat := table (ramp_entry flat_ramp flat_ramp_len);
     char_lut_vert := table (ramp_entry vertical_ramp vertical_ramp_len);
     char_lut_horz := table (ramp_entry horizontal_ramp horizontal_ramp_len);
     char_lut_diag1 := table (ramp_entry diagonal1_ramp diagonal1_ramp_len);
     char_lut_diag2 := table (ramp_entry diagonal2_ramp diagonal2_ramp_len);
     gamma_lut := table (gamma_entry powf) |}.

(** *** What the spec asks of the gamma table, in exact arithmetic

    [255 * (i/255)^(1/2.2)] is the real [v] with
    [v^11 = i^5 * 255^6]; its floor and its rounding are integer
    eleventh roots. *)

(** An integer [n] is the floor of the exact gamma value of [i]. *)
Definition is_gamma_floor (i n : Z) : Prop :=
  0 <= n /\ n ^ 11 <= i ^ 5 * 255 ^ 6 < (n + 1) ^ 11.

(** An integer [n] is the exact gamma value of [i] rounded to nearest:
    [n - 1/2 <= v < n + 1/2]. *)
Definition is_gamma_round (i n : Z) : Prop :=
  0 <= n /\
  (2 * n - 1) ^ 11 <= i ^ 5 * 255 ^ 6 * 2 ^ 11 < (2 * n + 1) ^ 11.

(** Bisection for the integer eleventh root of [target]: the largest
    [r] in [lo, hi) with [r^11 <= target], given that [lo] is one. *)
Fixpoint root_search (fuel : nat) (target lo hi : Z) : Z :=
  match fuel with
  | O => lo
  | S fuel' =>
      if hi - lo <=? 1 then lo
      else
        let mid := (lo + hi) / 2 in
        if mid ^ 11 <=? target then root_search fuel' target mid hi
        else root_search fuel' target lo mid
  end.

(** The floor and the rounding of the exact gamma value, computed. *)
Definition gamma_floor (i : Z) : Z :=
  root_search 9 (i ^ 5 * 255 ^ 6) 0 256.

Definition gamma_round (i : Z) : Z :=
  (root_search 10 (i ^ 5 * 255 ^ 6 * 2 ^ 11) 0 512 + 1) / 2.

(** The two facts about the exact gamma values that are checked by
    evaluation for each [i]: [gamma_floor i] is the floor, and the exact
    value keeps a distance of at least [1/512] from [n] and from
    [n + 1]. *)
Definition gamma_floor_ok (i : Z) : bool :=
  let n := gamma_floor i in
  (0 <=? n) && (n <=? 255) &&
  (n ^ 11 <=? i ^ 5 * 255 ^ 6) && (i ^ 5 * 255 ^ 6 <? (n + 1) ^ 11).

Definition gamma_margin_ok (i : Z) : bool :=
  let n := gamma_floor i in
  (n <=? 254) &&
  ((512 * n + 1) ^ 11 <=? i ^ 5 * (255 ^ 6 * 512 ^ 11)) &&
  (i ^ 5 * (255 ^ 6 * 512 ^ 11) <=? (512 * n + 511) ^ 11).

(** *** What is assumed of [powf]

    The C library's [powf] is not part of the repository.  The
    properties below are those the gamma table relies on: the two exact
    cases that Annex F of the C standard fixes, and an absolute error
    of at most [2^-20] against the exact power for the other 254
    arguments.  The error is measured against [(i/255)^(5/11)], so it
    also covers the rounding of the two arguments [i/255.0f] and
    [1.0f/2.2f]. *)

(** [r], scaled by [2^172] (every binary32 value is an integer multiple
    of [2^-149]). *)
Definition scaled (m : positive) (e : Z) : Z := Zpos m * 2 ^ (e + 172).

Definition powf_close (i : Z) (r : f32) : bool :=
  match r with
  | S754_finite false m e =>
      (-149 <=? e) && (e <=? 0) &&
      ((scaled m e - 2 ^ 152) ^ 11 * 255 ^ 5 <=? i ^ 5 * 2 ^ (172 * 11)) &&
      (i ^ 5 * 2 ^ (172 * 11) <=? (scaled m e + 2 ^ 152) ^ 11 * 255 ^ 5) &&
      (2 ^ 152 <=? scaled m e)
  | _ => false
  end.

Definition powf_ok_at (powf : f32 -> f32 -> f32) (i : Z) : bool :=
  let r := powf (brightness i) gamma_exponent in
  if i =? 0 then SFeqb r zero && is_finite r
  else if i =? 255 then SFeqb r one && is_finite r
  else powf_close i r.

Definition powf_accurate (powf : f32 -> f32 -> f32) : Prop :=
  forall i, 0 <= i <= 255 -> powf_ok_at powf i = true.

(** A reference [powf] on the arguments of [init_luts]: the binary32
    value nearest to [x^(5/11)] computed to 32 fractional bits, for
    [0 < x <= 1].  It shows that [powf_accurate] can be met. *)
Definition powf_ref (x y : f32) : f32 :=
  match x with
  | S754_zero _ => zero
  | S754_finite false m e =>
      if SFeqb x one then one
      else
        (* x^5 * 2^352, whose eleventh root is x^(5/11) * 2^32 *)
        let t := Z.shiftl (Zpos m ^ 5) (5 * e + 352) in
        binary_normalize prec emax (root_search 40 t 0 (2 ^ 33)) (-32) false
  | _ => S754_nan
  end.

End Luts.

(** ** Configuration and context ([EngineConfig], [ProcessingContext]) *)

Record EngineConfig : Type := {
  output_width : Z;
  edge_strength : f32;
  aspect_correction : f32;
  brightness_factor : f32;
  saturation_factor : f32;
  use_color : bool;
  cfg_num_threads : Z
}.

(** The fields of [ProcessingContext] that the per-frame transform reads.
    [dec_width] and [dec_height] are [dec_codec_ctx->width] and [->height];
    [rgb_data] and [rgb_linesize] are [rgb_frame->data[0]] and
    [rgb_frame->linesize[0]], the packed RGB frame [sws_scale] produced. *)
Record ProcessingContext : Type := {
  dec_width : Z;
  dec_height : Z;
  rgb_data : list byte;
  rgb_linesize : Z;
  ascii_width : Z;
  ascii_height : Z;
  frame_arena : Arena.t;
  num_threads : Z;
  luts : Luts.t
}.

(** The two output arrays, each indexed from its own base. *)
Record Buffers : Type := {
  char_buffer : Z -> byte;
  color_buffer : Z -> byte
}.

Definition store (m : Z -> byte) (i : Z) (v : byte) : Z -> byte :=
  fun j => if j =? i then v else m j.

(** The worker count chosen by [engine_init]; [nproc] is what
    [sysconf(_SC_NPROCESSORS_ONLN)] returned. *)
Definition engine_init_num_threads (config : EngineConfig) (nproc : Z) : Z :=
  if cfg_num_threads config >? 0 then cfg_num_threads config
  else if nproc <=? 0 then 1 else nproc.

Definition engine_update_output_dims
    (ctx : ProcessingContext) (new_ascii_width new_ascii_height : Z)
    : ProcessingContext :=
  {| dec_width := dec_width ctx;
     dec_height := dec_height ctx;
     rgb_data := rgb_data ctx;
     rgb_linesize := rgb_linesize ctx;
     ascii_width := new_ascii_width;
     ascii_height := new_ascii_height;
     frame_arena := frame_arena ctx;
     num_threads := num_threads ctx;
     luts := luts ctx |}.

(** ** The tile processor ([process_slice_worker]) *)

Module Tile.

Inductive ramp : Type := Flat | Vert | Horz | Diag1 | Diag2.

Definition char_lut (l : Luts.t) (r : ramp) : list byte :=
  match r with
  | Flat => Luts.char_lut_flat l
  | Vert => Luts.char_lut_vert l
  | Horz => Luts.char_lut_horz l
  | Diag1 => Luts.char_lut_diag1 l
  | Diag2 => Luts.char_lut_diag2 l
  end.

(** [sobel_y[ky + 1][kx + 1]] and [sobel_x[ky + 1][kx + 1]]. *)
Definition sobel_y (ky kx : Z) : Z :=
  nth (Z.to_nat (kx + 1))
      (nth (Z.to_nat (ky + 1)) [[1; 2; 1]; [0; 0; 0]; [-1; -2; -1]] []) 0.
Definition sobel_x (ky kx : Z) : Z :=
  nth (Z.to_nat (kx + 1))
      (nth (Z.to_nat (ky + 1)) [[1; 0; -1]; [2; 0; -2]; [1; 0; -1]] []) 0.

(** The pairs [(ky, kx)] in the order of the two nested loops. *)
Definition window : list (Z * Z) :=
  flat_map (fun ky => map (fun kx => (ky, kx)) (range (-1) 2)) (range (-1) 2).

(** [s = (s < 0) ? 0 : (s >= n ? n - 1 : s)]. *)
Definition clamp (s n : Z) : Z :=
  if s <? 0 then 0 else if s >=? n then n - 1 else s.

(** [0.299f * p[0] + 0.587f * p[1] + 0.114f * p[2]], as the build
    evaluates it: the product [0.587f * p[1]] is rounded, the product
    [0.299f * p[0]] is fused into the first addition and the product
    [0.114f * p[2]] into the second. *)
Definition luma (r g b : byte) : f32 :=
  fma (lit 114 1000) (of_int (u8 b))
      (fma (lit 299 1000) (of_int (u8 r))
           (mul (lit 587 1000) (of_int (u8 g)))).

Section Cell.

Variable ctx : ProcessingContext.
Variable config : EngineConfig.

Definition source_x (x : Z) : Z :=
  to_int (mul (div (of_int x) (of_int (ascii_width ctx)))
              (of_int (dec_width ctx))).
Definition source_y (y : Z) : Z :=
  to_int (mul (div (of_int y) (of_int (ascii_height ctx)))
              (of_int (dec_height ctx))).

(** The sample coordinate [(sx, sy)] of one window position. *)
Definition sample_coord (srcx srcy : Z) (k : Z * Z) : Z * Z :=
  (clamp (srcx + snd k) (dec_width ctx),
   clamp (srcy + fst k) (dec_height ctx)).

(** [p = data + (sy * stride + sx * 3)]; the three bytes at [p]. *)
Definition pixel (sx sy : Z) : byte * byte * byte :=
  let off := sy * rgb_linesize ctx + sx * 3 in
  (byte_at (rgb_data ctx) off,
   byte_at (rgb_data ctx) (off + 1),
   byte_at (rgb_data ctx) (off + 2)).

Definition luma_at (sx sy : Z) : f32 :=
  let '(r, g, b) := pixel sx sy in luma r g b.

Record gradient : Type := {
  gx : f32;
  gy : f32;
  center_luma : f32
}.

(** One iteration of the inner [kx] loop.  The coefficients are 0, 1, 2
    and their opposites, so each product [luma * coefficient] is exact and
    fusing it into the addition gives the value written here
    ([sobel_contraction_irrelevant]). *)
Definition sobel_step (srcx srcy : Z) (acc : gradient) (k : Z * Z)
    : gradient :=
  let '(sx, sy) := sample_coord srcx srcy k in
  let l := luma_at sx sy in
  {| gx := add (gx acc) (mul l (of_int (sobel_x (fst k) (snd k))));
     gy := add (gy acc) (mul l (of_int (sobel_y (fst k) (snd k))));
     center_luma :=
       if (snd k =? 0) && (fst k =? 0) then l else center_luma acc |}.

Definition sobel (srcx srcy : Z) : gradient :=
  fold_left (sobel_step srcx srcy) window
            {| gx := zero; gy := zero; center_luma := zero |}.

(** The same iteration with both products fused into the additions, to
    compare with [sobel_step]. *)
Definition sobel_step_fused (srcx srcy : Z) (acc : gradient) (k : Z * Z)
    : gradient :=
  let '(sx, sy) := sample_coord srcx srcy k in
  let l := luma_at sx sy in
  {| gx := fma l (of_int (sobel_x (fst k) (snd k))) (gx acc);
     gy := fma l (of_int (sobel_y (fst k) (snd k))) (gy acc);
     center_luma :=
       if (snd k =? 0) && (fst k =? 0) then l else center_luma acc |}.

(** [mag_sq = (gx * gx + gy * gy) / (255.0f * 255.0f)]; the build
    rounds [gy * gy] and fuses [gx * gx] into the addition. *)
Definition mag_sq (g : gradient) : f32 :=
  div (fma (gx g) (gx g) (mul (gy g) (gy g))) (mul f255 f255).

Definition edge_strength_sq : f32 :=
  mul (edge_strength config) (edge_strength config).

(** [D_THRESH = 2.41421356f]. *)
Definition D_THRESH : f32 := lit 241421356 100000000.

(** The [if]/[else] cascade that picks the lookup table. *)
Definition select_ramp (g : gradient) : ramp :=
  if ltb (mag_sq g) edge_strength_sq then Flat
  else if ltb (mul (fabsf (gx g)) D_THRESH) (fabsf (gy g)) then Vert
  else if ltb (mul (fabsf (gy g)) D_THRESH) (fabsf (gx g)) then Horz
  else if ltb (of_int 0) (mul (gx g) (gy g)) then Diag1
  else Diag2.

(** [brightness_idx = ctx->gamma_lut[(uint8_t)center_luma]]. *)
Definition brightness_idx (g : gradient) : byte :=
  byte_at (Luts.gamma_lut (luts ctx)) (u8 (to_uint8 (center_luma g))).

Definition cell_gradient (x y : Z) : gradient :=
  sobel (source_x x) (source_y y).

Definition cell_ramp (x y : Z) : ramp := select_ramp (cell_gradient x y).

Definition selected_char (x y : Z) : byte :=
  let g := cell_gradient x y in
  byte_at (char_lut (luts ctx) (select_ramp g)) (u8 (brightness_idx g)).

(** Component [k] (0, 1 or 2) of an RGB triple. *)
Definition channel (k : Z) (c : byte * byte * byte) : byte :=
  let '(r, g, b) := c in
  if k =? 0 then r else if k =? 1 then g else b.

(** [p_color = data + (source_y * stride + source_x * 3)]. *)
Definition cell_color (x y : Z) : byte * byte * byte :=
  pixel (source_x x) (source_y y).

(** The body of the [x] loop for the cell in row [fst c], column
    [snd c]: four stores at [art_idx = y * ascii_width + x]. *)
Definition write_cell (b : Buffers) (c : Z * Z) : Buffers :=
  let '(y, x) := c in
  let art_idx := y * ascii_width ctx + x in
  let '(r, g, bl) := cell_color x y in
  {| char_buffer := store (char_buffer b) art_idx (selected_char x y);
     color_buffer :=
       store (store (store (color_buffer b) (art_idx * 3 + 0) r)
                    (art_idx * 3 + 1) g)
             (art_idx * 3 + 2) bl |}.

(** The cells [(y, x)] a worker visits, in the order of its loops. *)
Definition worker_cells (start_row end_row : Z) : list (Z * Z) :=
  flat_map (fun y => map (fun x => (y, x)) (range 0 (ascii_width ctx)))
           (range start_row end_row).

Definition process_slice_worker (start_row end_row : Z) (b : Buffers)
    : Buffers :=
  fold_left write_cell (worker_cells start_row end_row) b.

(** The samples the Sobel window of a cell reads. *)
Definition window_samples (x y : Z) : list (Z * Z) :=
  map (sample_coord (source_x x) (source_y y)) window.

End Cell.

End Tile.

(** ** The frame orchestrator ([engine_process_frame_to_ascii]) *)

Module Frame.

Record ThreadArgs : Type := { start_row : Z; end_row : Z }.

(** The [start_row] and [end_row] the launch loop gives worker [i];
    [/] on C [int]s truncates toward zero. *)
Definition band (ascii_height num_threads i : Z) : ThreadArgs :=
  let rows_per_thread := Z.quot ascii_height num_threads in
  {| start_row := i * rows_per_thread;
     end_row := if i =? num_threads - 1 then ascii_height
                else (i + 1) * rows_per_thread |}.

Definition row_bands (ascii_height num_threads : Z) : list ThreadArgs :=
  map (band ascii_height num_threads) (range 0 num_threads).

Definition band_rows (a : ThreadArgs) : list Z :=
  range (start_row a) (end_row a).

Inductive outcome : Type :=
| AllocFailed
| Launched (char_off color_off : Z) (args : list ThreadArgs).

Definition with_arena (ctx : ProcessingContext) (a : Arena.t)
    : ProcessingContext :=
  {| dec_width := dec_width ctx;
     dec_height := dec_height ctx;
     rgb_data := rgb_data ctx;
     rgb_linesize := rgb_linesize ctx;
     ascii_width := ascii_width ctx;
     ascii_height := ascii_height ctx;
     frame_arena := a;
     num_threads := num_threads ctx;
     luts := luts ctx |}.

(** [(size_t)(ctx->ascii_width) * ctx->ascii_height]. *)
Definition char_buffer_size (ctx : ProcessingContext) : Z :=
  Size.mul (Size.wrap (ascii_width ctx)) (Size.wrap (ascii_height ctx)).

(** Everything up to and including the launch loop: the arena
    afterwards, and either the early return or the buffers' offsets and
    the arguments handed to the workers. *)
Definition engine_process_frame_to_ascii (ctx : ProcessingContext)
    : ProcessingContext * outcome :=
  let a0 := Arena.arena_reset (frame_arena ctx) in
  let '(chars, a1) := Arena.arena_alloc a0 (Size.mul (char_buffer_size ctx) 1) in
  let '(colors, a2) :=
    Arena.arena_alloc a1 (Size.mul (Size.mul (char_buffer_size ctx) 3) 1) in
  match chars, colors with
  | Some c, Some k =>
      (with_arena ctx a2,
       Launched c k (row_bands (ascii_height ctx) (num_threads ctx)))
  | _, _ => (with_arena ctx a2, AllocFailed)
  end.

(** The cells one worker writes, in its own order. *)
Definition worker_steps (ctx : ProcessingContext) (a : ThreadArgs)
    : list (Z * Z) :=
  Tile.worker_cells ctx (start_row a) (end_row a).

(** An execution of concurrently running threads, each a sequence of
    atomic steps: any merge of the sequences that keeps every thread's
    own order. *)
Inductive interleaving {A : Type} : list (list A) -> list A -> Prop :=
| interleaving_done : forall threads,
    Forall (fun t => t = []) threads -> interleaving threads []
| interleaving_step : forall before x t after sched,
    interleaving (before ++ t :: after) sched ->
    interleaving (before ++ (x :: t) :: after) (x :: sched).

(** The buffers after the cell writes happened in the order [sched]. *)
Definition run_schedule (ctx : ProcessingContext) (config : EngineConfig)
    (sched : list (Z * Z)) (b : Buffers) : Buffers :=
  fold_left (Tile.write_cell ctx config) sched b.

(** [sched] is a possible execution of the workers launched for [ctx]
    with [n] threads, from launch to the last join. *)
Definition execution (ctx : ProcessingContext) (n : Z)
    (sched : list (Z * Z)) : Prop :=
  interleaving (map (worker_steps ctx) (row_bands (ascii_height ctx) n)) sched.

End Frame.

(** ** The console renderer ([engine_render_to_console]) *)

Module Console.

Import Strings.String.

(** [%d] of a non-negative [int]. *)
Fixpoint digits (fuel : nat) (n : Z) (acc : list byte) : list byte :=
  match fuel with
  | O => acc
  | S fuel' =>
      let acc' := byte_of (48 + n mod 10) :: acc in
      if n <? 10 then acc' else digits fuel' (n / 10) acc'
  end.

Definition decimal (n : Z) : list byte := digits 10 n [].

(** The text of [sprintf(buf_ptr, "\x1b[38;2;%d;%d;%dm%c", r, g, b, c)],
    without the terminating NUL. *)
Definition cell_text (r g b c : byte) : list byte :=
  [x1b] ++ String.list_byte_of_string "[38;2;"
    ++ decimal (u8 r) ++ String.list_byte_of_string ";"
    ++ decimal (u8 g) ++ String.list_byte_of_string ";"
    ++ decimal (u8 b) ++ String.list_byte_of_string "m" ++ [c].

(** The write cursor into [full_frame_buffer]: [buf_ptr] as an offset
    from the start of the buffer, and every store made so far (offset
    and byte), latest first. *)
Record cursor : Type := { buf_ptr : Z; stores : list (Z * byte) }.

(** Stores [bs] at [buf_ptr], [buf_ptr + 1], ... without moving. *)
Fixpoint store_at (at_ : Z) (bs : list byte) (acc : list (Z * byte))
    : list (Z * byte) :=
  match bs with
  | [] => acc
  | b :: bs' => store_at (at_ + 1) bs' ((at_, b) :: acc)
  end.

(** [buf_ptr += sprintf(buf_ptr, ...)]: the text and its NUL are
    stored, the cursor moves past the text only. *)
Definition sprintf (s : cursor) (text : list byte) : cursor :=
  {| buf_ptr := buf_ptr s + Z.of_nat (List.length text);
     stores := store_at (buf_ptr s) (text ++ [x00]) (stores s) |}.

(** [*buf_ptr++ = c]. *)
Definition put (s : cursor) (c : byte) : cursor :=
  {| buf_ptr := buf_ptr s + 1; stores := (buf_ptr s, c) :: stores s |}.

(** The invariant of the renderer's loops: every store so far went to an
    offset between 0 and the cursor. *)
Definition behind_cursor (s : cursor) : Prop :=
  0 <= buf_ptr s /\
  forall o v, In (o, v) (stores s) -> 0 <= o <= buf_ptr s.

Section Render.

Variable ctx : ProcessingContext.
Variable config : EngineConfig.
Variable b : Buffers.

Definition emit_cell (y : Z) (s : cursor) (x : Z) : cursor :=
  let idx := y * ascii_width ctx + x in
  if use_color config then
    sprintf s (cell_text (color_buffer b (idx * 3 + 0))
                         (color_buffer b (idx * 3 + 1))
                         (color_buffer b (idx * 3 + 2))
                         (char_buffer b idx))
  else put s (char_buffer b idx).

Definition emit_row (s : cursor) (y : Z) : cursor :=
  put (fold_left (emit_cell y) (range 0 (ascii_width ctx)) s) x0a.

(** The two loops, then [*buf_ptr = '\0']. *)
Definition emit_frame : cursor :=
  let s := fold_left emit_row (range 0 (ascii_height ctx))
                     {| buf_ptr := 0; stores := [] |} in
  {| buf_ptr := buf_ptr s; stores := (buf_ptr s, x00) :: stores s |}.

(** [(size_t)(ctx->ascii_width * 20 + 2) * ctx->ascii_height]. *)
Definition full_buffer_size : Z :=
  Size.mul (Size.wrap (ascii_width ctx * 20 + 2))
           (Size.wrap (ascii_height ctx)).

(** [None] when the allocation fails and the function returns at
    once; otherwise the offset of [full_frame_buffer] in the arena and
    the stores made into it. *)
Definition engine_render_to_console
    : Arena.t * option (Z * list (Z * byte)) :=
  match Arena.arena_alloc (frame_arena ctx) full_buffer_size with
  | (None, a) => (a, None)
  | (Some off, a) => (a, Some (off, stores emit_frame))
  end.

End Render.

End Console.

(** ** The colour stage of the glyph compositor ([render_ascii_to_buffer]) *)

Module Compositor.

Definition rgb : Type := (byte * byte * byte)%type.

(** [c_f = luma + saturation_factor * (c_in - luma)], the product fused
    into the addition, and its clamp. *)
Definition saturate_channel (sat l : f32) (c_in : byte) : byte :=
  let c_f := fma sat (sub (of_int (u8 c_in)) l) l in
  if ltb f255 c_f then xff
  else if ltb c_f (of_int 0) then x00
  else to_uint8 c_f.

(** The block guarded by [if (config->saturation_factor != 1.0f)]. *)
Definition saturation_stage (config : EngineConfig) (c : rgb) : rgb :=
  let '(r_in, g_in, b_in) := c in
  if negb (eqb (saturation_factor config) one) then
    let l := Tile.luma r_in g_in b_in in
    (saturate_channel (saturation_factor config) l r_in,
     saturate_channel (saturation_factor config) l g_in,
     saturate_channel (saturation_factor config) l b_in)
  else (r_in, g_in, b_in).

(** [c_f = c_in * brightness_factor], clamped above. *)
Definition brightness_channel (bf : f32) (c_in : byte) : byte :=
  let c_f := mul (of_int (u8 c_in)) bf in
  if ltb f255 c_f then xff else to_uint8 c_f.

Definition brightness_stage (config : EngineConfig) (c : rgb) : rgb :=
  let '(r_in, g_in, b_in) := c in
  (brightness_channel (brightness_factor config) r_in,
   brightness_channel (brightness_factor config) g_in,
   brightness_channel (brightness_factor config) b_in).

(** The colour written into the lit pixels of a cell's glyph. *)
Definition cell_pixel_color (config : EngineConfig) (c : rgb) : rgb :=
  brightness_stage config (saturation_stage config c).

End Compositor.

(** ** Concrete inputs *)

Module Examples.

(** A 4x4 source frame whose left half is black and whose right half is
    white, without row padding. *)
Definition half_split_row : list byte :=
  [x00; x00; x00; x00; x00; x00; xff; xff; xff; xff; xff; xff].

Definition half_split_data : list byte :=
  half_split_row ++ half_split_row ++ half_split_row ++ half_split_row.

(** A context for that frame: a 4x4 output grid, two workers and the
    64 MiB arena of [engine_init]. *)
Definition half_split_ctx (powf : f32 -> f32 -> f32) : ProcessingContext :=
  {| dec_width := 4;
     dec_height := 4;
     rgb_data := half_split_data;
     rgb_linesize := 12;
     ascii_width := 4;
     ascii_height := 4;
     frame_arena := Arena.arena_init (64 * 1024 * 1024);
     num_threads := 2;
     luts := Luts.init_luts powf |}.

(** The defaults of [main], with [--width 4] and [--threads 2]. *)
Definition default_config : EngineConfig :=
  {| output_width := 4;
     edge_strength := lit 4 10;
     aspect_correction := lit 5 10;
     brightness_factor := one;
     saturation_factor := one;
     use_color := true;
     cfg_num_threads := 2 |}.

(** The same context after [engine_update_output_dims(ctx, 1, 0)], the
    call [fit_to_terminal] makes for a terminal of one column and one
    row: the corrected aspect of the frame is [1 / 0.5f = 2], so
    [new_width = 1] and [new_height = (int)(1 / 2.0f) = 0]. *)
Definition zero_height_ctx : ProcessingContext :=
  engine_update_output_dims (half_split_ctx Luts.powf_ref) 1 0.

Definition blank_buffers : Buffers :=
  {| char_buffer := fun _ => x00; color_buffer := fun _ => x00 |}.

(** A 4x4 source frame of a single colour, with a 4x4 output grid. *)
Definition uniform_data (r g b : byte) : list byte :=
  concat (repeat [r; g; b] 16).

Definition uniform_ctx (r g b : byte) : ProcessingContext :=
  {| dec_width := 4;
     dec_height := 4;
     rgb_data := uniform_data r g b;
     rgb_linesize := 12;
     ascii_width := 4;
     ascii_height := 4;
     frame_arena := Arena.arena_init (64 * 1024 * 1024);
     num_threads := 2;
     luts := Luts.init_luts Luts.powf_ref |}.

End Examples.

(** ** Series of arena allocations *)

Module ArenaBlocks.

(** The requests [sizes] served one after the other, with no reset in
    between: the offset each call returns ([None] for [NULL]) and the
    arena at the end. *)
Fixpoint alloc_all (a : Arena.t) (sizes : list Z) : list (option Z) * Arena.t :=
  match sizes with
  | [] => ([], a)
  | sz :: rest =>
      let '(p, a') := Arena.arena_alloc a sz in
      let '(ps, a'') := alloc_all a' rest in
      (p :: ps, a'')
  end.

End ArenaBlocks.

(** ** File names ([is_animated_file]) and the mode [main] selects *)

Module Names.

Import Strings.String.

(** A C string is held as the list of its bytes before the terminating
    NUL. *)

(** [strrchr(s, c)] for a [c] other than NUL: the part of [s] that starts
    at the last [c], [None] for [NULL]. *)
Fixpoint strrchr (s : list byte) (c : byte) : option (list byte) :=
  match s with
  | [] => None
  | b :: s' =>
      match strrchr s' c with
      | Some r => Some r
      | None => if Byte.eqb b c then Some s else None
      end
  end.

(** [strcmp(a, b) == 0]. *)
Fixpoint streq (a b : list byte) : bool :=
  match a, b with
  | [], [] => true
  | x :: a', y :: b' => Byte.eqb x y && streq a' b'
  | _, _ => false
  end.

(** [needle] is found at the very start of [s]. *)
Fixpoint starts_with (needle s : list byte) : bool :=
  match needle, s with
  | [], _ => true
  | x :: needle', y :: s' => Byte.eqb x y && starts_with needle' s'
  | _ :: _, [] => false
  end.

(** [strstr(haystack, needle)]: the part of [haystack] that starts at the
    first occurrence of [needle], [None] for [NULL]. *)
Fixpoint strstr (haystack needle : list byte) : option (list byte) :=
  if starts_with needle haystack then Some haystack
  else match haystack with
       | [] => None
       | _ :: h' => strstr h' needle
       end.

Definition ext_mp4 : list byte := String.list_byte_of_string ".mp4".
Definition ext_mkv : list byte := String.list_byte_of_string ".mkv".
Definition ext_avi : list byte := String.list_byte_of_string ".avi".
Definition ext_mov : list byte := String.list_byte_of_string ".mov".
Definition ext_gif : list byte := String.list_byte_of_string ".gif".

(** [is_animated_file]; the [int] it returns is 0 or 1, held as a
    [bool]. *)
Definition is_animated_file (filename : list byte) : bool :=
  match strrchr filename "." with
  | None => false
  | Some ext =>
      streq ext ext_mp4 || streq ext ext_mkv ||
      streq ext ext_avi || streq ext ext_mov ||
      streq ext ext_gif
  end.

Inductive ProcessingMode : Type := MODE_IMAGE | MODE_VIDEO | MODE_ANIMATED_GIF.

(** The [config.mode] that [main] derives from [argv[1]]. *)
Definition main_mode (input_file : list byte) : ProcessingMode :=
  if is_animated_file input_file then
    match strstr input_file ext_gif with
    | Some _ => MODE_ANIMATED_GIF
    | None => MODE_VIDEO
    end
  else MODE_IMAGE.

End Names.

(** ** The ramp behind each lookup table *)

(** The string literal and the length constant [init_luts] builds the
    table of a ramp from. *)
Definition ramp_literal (r : Tile.ramp) : list byte :=
  match r with
  | Tile.Flat => Luts.flat_ramp
  | Tile.Vert => Luts.vertical_ramp
  | Tile.Horz => Luts.horizontal_ramp
  | Tile.Diag1 => Luts.diagonal1_ramp
  | Tile.Diag2 => Luts.diagonal2_ramp
  end.

Definition ramp_len (r : Tile.ramp) : Z :=
  match r with
  | Tile.Flat => Luts.flat_ramp_len
  | Tile.Vert => Luts.vertical_ramp_len
  | Tile.Horz => Luts.horizontal_ramp_len
  | Tile.Diag1 => Luts.diagonal1_ramp_len
  | Tile.Diag2 => Luts.diagonal2_ramp_len
  end.

(** ** The video encoder's frame buffer ([engine_encode_video_frame]) *)

Module Encoder.

Definition out_width (ctx : ProcessingContext) : Z := ascii_width ctx * 8.
Definition out_height (ctx : ProcessingContext) : Z := ascii_height ctx * 8.

(** [(size_t)out_width * out_height * 3]. *)
Definition rgb_buffer_size (ctx : ProcessingContext) : Z :=
  Size.mul (Size.mul (Size.wrap (out_width ctx)) (Size.wrap (out_height ctx))) 3.

(** The allocation [engine_encode_video_frame] starts with: the offset
    of [rgb_buffer], or [None] for the [NULL] on which the function
    returns -1 before it renders or encodes anything; and the arena
    afterwards. *)
Definition alloc_rgb_buffer (ctx : ProcessingContext) : option Z * Arena.t :=
  Arena.arena_alloc (frame_arena ctx) (rgb_buffer_size ctx).

End Encoder.

(** ** The text of a console frame *)

Module FrameText.

(** The byte at offset [o] of a buffer after the stores [st] (latest
    first) were made into it; [None] where none of them went. *)
Fixpoint load (st : list (Z * byte)) (o : Z) : option byte :=
  match st with
  | [] => None
  | (a, v) :: st' => if a =? o then Some v else load st' o
  end.

(** The buffer holds the text [t] from offset 0 and the cursor stands at
    the end of it: the invariant of the renderer's loops. *)
Definition holds (s : Console.cursor) (t : list byte) : Prop :=
  Console.buf_ptr s = Z.of_nat (List.length t) /\
  forall i, 0 <= i < Z.of_nat (List.length t) ->
    load (Console.stores s) i = Some (nth (Z.to_nat i) t x00).

Section Text.

Variable ctx : ProcessingContext.
Variable config : EngineConfig.
Variable b : Buffers.

(** What one cell contributes to the frame: its escape sequence and
    character, or the character alone when colour is off. *)
Definition cell_bytes (y x : Z) : list byte :=
  let idx := y * ascii_width ctx + x in
  if use_color config then
    Console.cell_text (color_buffer b (idx * 3 + 0))
                      (color_buffer b (idx * 3 + 1))
                      (color_buffer b (idx * 3 + 2))
                      (char_buffer b idx)
  else [char_buffer b idx].

(** A row: its cells from left to right, then a newline. *)
Definition row_text (y : Z) : list byte :=
  flat_map (cell_bytes y) (range 0 (ascii_width ctx)) ++ [x0a].

(** The frame: its rows from top to bottom. *)
Definition frame_text : list byte :=
  flat_map row_text (range 0 (ascii_height ctx)).

End Text.

End FrameText.

(** ** The glyph compositor ([render_ascii_to_buffer]) *)

Module Blit.

Section Render.

(** [font8x8_basic[char_code]], the eight row bytes of a glyph.  The font
    table comes from a header outside the repository. *)
Variable font8x8_basic : Z -> list byte.

Variable ctx : ProcessingContext.
Variable config : EngineConfig.
Variable b : Buffers.

Definition out_img_width : Z := ascii_width ctx * 8.
Definition out_img_height : Z := ascii_height ctx * 8.

(** [(size_t)out_img_width * out_img_height * 3]. *)
Definition image_size : Z :=
  Size.mul (Size.mul (Size.wrap out_img_width) (Size.wrap out_img_height)) 3.

(** [memset(buffer, 0, n)]. *)
Definition memset0 (buffer : Z -> byte) (n : Z) : Z -> byte :=
  fun j => if (0 <=? j) && (j <? n) then x00 else buffer j.

(** [(glyph[gy] >> (7 - gx)) & 1]. *)
Definition glyph_bit (glyph : list byte) (gy gx : Z) : bool :=
  negb (Z.land (Z.shiftr (u8 (byte_at glyph gy)) (7 - gx)) 1 =? 0).

(** The body of the [gx] loop. *)
Definition plot (x y : Z) (glyph : list byte) (c : Compositor.rgb) (gy : Z)
    (buffer : Z -> byte) (gx : Z) : Z -> byte :=
  if glyph_bit glyph gy gx then
    let img_x := x * 8 + gx in
    let img_y := y * 8 + gy in
    let img_idx := (img_y * out_img_width + img_x) * 3 in
    let '(r, g, bl) := c in
    store (store (store buffer (img_idx + 0) r) (img_idx + 1) g) (img_idx + 2) bl
  else buffer.

(** The colour of the glyph of cell [art_idx]: the colour buffer's
    triple after the saturation and brightness stages. *)
Definition glyph_color (art_idx : Z) : Compositor.rgb :=
  Compositor.cell_pixel_color config
    (color_buffer b (art_idx * 3 + 0),
     color_buffer b (art_idx * 3 + 1),
     color_buffer b (art_idx * 3 + 2)).

Definition cell_glyph (art_idx : Z) : list byte :=
  font8x8_basic (u8 (char_buffer b art_idx)).

(** The body of the [x] loop for the cell in row [fst c], column
    [snd c]. *)
Definition blit_cell (buffer : Z -> byte) (c : Z * Z) : Z -> byte :=
  let '(y, x) := c in
  let art_idx := y * ascii_width ctx + x in
  fold_left
    (fun buf gy =>
       fold_left (plot x y (cell_glyph art_idx) (glyph_color art_idx) gy)
                 (range 0 8) buf)
    (range 0 8) buffer.

Definition render_ascii_to_buffer (buffer : Z -> byte) : Z -> byte :=
  fold_left blit_cell (Tile.worker_cells ctx 0 (ascii_height ctx))
            (memset0 buffer image_size).

(** *** Which iteration stores where

    The address [j] belongs to the pixel that the [gx] iteration of glyph
    row [gy] of cell [c] draws, and the glyph is lit there. *)
Definition hits (c : Z * Z) (gy gx j : Z) : bool :=
  glyph_bit (cell_glyph (fst c * ascii_width ctx + snd c)) gy gx
  && (j / 3 =? (fst c * 8 + gy) * out_img_width + (snd c * 8 + gx)).

(** Some iteration of cell [c] stores at address [j]. *)
Definition cell_hit (c : Z * Z) (j : Z) : bool :=
  existsb (fun gy => existsb (fun gx => hits c gy gx j) (range 0 8)) (range 0 8).

(** The index of the cell whose 8x8 block holds address [j]. *)
Definition owner (j : Z) : Z :=
  (j / 3 / out_img_width / 8) * ascii_width ctx
  + (j / 3) mod out_img_width / 8.

End Render.

End Blit.

(** ** The SSE helpers of [simd_ops.h] *)

Module Simd.

(** A 128-bit register as its 16 bytes, byte 0 (the one loaded from the
    lowest address) first. *)
Definition m128i : Type := list byte.

Definition lane (v : m128i) (i : Z) : byte := byte_at v i.

(** The intrinsics, as the instruction set reference defines them. *)

(** [_mm_loadu_si128((__m128i * )(p))] on the memory [mem]. *)
Definition _mm_loadu_si128 (mem : list byte) (p : Z) : m128i :=
  map (fun i => byte_at mem (p + i)) (range 0 16).

(** [_mm_setr_epi8]: the sixteen [char] arguments in memory order. *)
Definition _mm_setr_epi8 (e : list Z) : m128i := map byte_of e.

Definition _mm_setzero_si128 : m128i := repeat x00 16.

(** [pshufb]: byte [i] of the result is zero when bit 7 of byte [i] of
    the mask is set, else the byte of [a] that the low four mask bits
    select. *)
Definition _mm_shuffle_epi8 (a mask : m128i) : m128i :=
  map (fun i =>
         let m := u8 (lane mask i) in
         if Z.testbit m 7 then x00 else lane a (Z.land m 15))
      (range 0 16).

(** [psrldq] and [pslldq]: shifts by whole bytes, zeros shifted in. *)
Definition _mm_srli_si128 (a : m128i) (n : Z) : m128i :=
  map (fun i => if i + n <? 16 then lane a (i + n) else x00) (range 0 16).

Definition _mm_slli_si128 (a : m128i) (n : Z) : m128i :=
  map (fun i => if 0 <=? i - n then lane a (i - n) else x00) (range 0 16).

Definition _mm_or_si128 (a b : m128i) : m128i :=
  map (fun i => byte_of (Z.lor (u8 (lane a i)) (u8 (lane b i)))) (range 0 16).

(** [punpcklbw], [punpckhbw]: the low (high) eight bytes of [a] and [b]
    interleaved. *)
Definition _mm_unpacklo_epi8 (a b : m128i) : m128i :=
  flat_map (fun i => [lane a i; lane b i]) (range 0 8).

Definition _mm_unpackhi_epi8 (a b : m128i) : m128i :=
  flat_map (fun i => [lane a i; lane b i]) (range 8 16).

(** [punpcklwd], [punpckhwd]: the low (high) four 16-bit words
    interleaved. *)
Definition _mm_unpacklo_epi16 (a b : m128i) : m128i :=
  flat_map (fun i => [lane a (2 * i); lane a (2 * i + 1);
                      lane b (2 * i); lane b (2 * i + 1)]) (range 0 4).

Definition _mm_unpackhi_epi16 (a b : m128i) : m128i :=
  flat_map (fun i => [lane a (2 * i); lane a (2 * i + 1);
                      lane b (2 * i); lane b (2 * i + 1)]) (range 4 8).

(** The signed 32-bit integer in the little-endian bytes [4i .. 4i+3]. *)
Definition epi32 (a : m128i) (i : Z) : Z :=
  let u := u8 (lane a (4 * i)) + 2 ^ 8 * u8 (lane a (4 * i + 1))
           + 2 ^ 16 * u8 (lane a (4 * i + 2)) + 2 ^ 24 * u8 (lane a (4 * i + 3)) in
  if u <? 2 ^ 31 then u else u - 2 ^ 32.

(** [cvtdq2ps]: the four signed 32-bit integers converted to [float]. *)
Definition _mm_cvtepi32_ps (a : m128i) : list f32 :=
  map (fun i => of_int (epi32 a i)) (range 0 4).

(** [load_and_interleave_8_pixels_to_3_planes]: the values stored
    through [r], [g] and [b], and the vector returned. *)
Definition load_and_interleave_8_pixels_to_3_planes (mem : list byte) (p : Z)
    : m128i * m128i * m128i * m128i :=
  let p0 := _mm_loadu_si128 mem p in
  let p1 := _mm_loadu_si128 mem (p + 16) in
  let r_mask := _mm_setr_epi8 [0; 3; 6; 9; 12; 15; 1; 4; 7; 10; 13; -1; -1; -1; -1; -1] in
  let g_mask := _mm_setr_epi8 [1; 4; 7; 10; 13; 0; 2; 5; 8; 11; 14; -1; -1; -1; -1; -1] in
  let b_mask := _mm_setr_epi8 [2; 5; 8; 11; 14; 1; 3; 6; 9; 12; 15; -1; -1; -1; -1; -1] in
  let r_shuf := _mm_shuffle_epi8 p0 r_mask in
  let g_shuf := _mm_shuffle_epi8 p0 g_mask in
  let b_shuf := _mm_shuffle_epi8 p0 b_mask in
  let r_shuf_hi := _mm_shuffle_epi8 p1 (_mm_srli_si128 r_mask 5) in
  let g_shuf_hi := _mm_shuffle_epi8 p1 (_mm_srli_si128 g_mask 5) in
  let b_shuf_hi := _mm_shuffle_epi8 p1 (_mm_srli_si128 b_mask 5) in
  (_mm_or_si128 r_shuf (_mm_slli_si128 r_shuf_hi 6),
   _mm_or_si128 g_shuf (_mm_slli_si128 g_shuf_hi 6),
   _mm_or_si128 b_shuf (_mm_slli_si128 b_shuf_hi 5),
   _mm_loadu_si128 mem (p + 24)).

(** [convert_uint8_to_float]: the values stored through [out_lo] and
    [out_hi]. *)
Definition convert_uint8_to_float (v : m128i) : list f32 * list f32 :=
  let zero := _mm_setzero_si128 in
  let lo := _mm_unpacklo_epi8 v zero in
  let hi := _mm_unpackhi_epi8 v zero in
  (_mm_cvtepi32_ps (_mm_unpacklo_epi16 lo zero),
   _mm_cvtepi32_ps (_mm_unpackhi_epi16 hi zero)).

End Simd.

(** ** Frames out of the decoder ([engine_get_next_packet],
    [engine_decode_video_packet]) *)

Module Decoder.

(** Two of libavutil's error codes. *)
Definition AVERROR_EOF : Z := -541478725.
Definition AVERROR_INVALIDDATA : Z := -1094995529.

(** The fields of the context these functions read: whether
    [dec_fmt_ctx] is non-null (it is null for a still image), and
    [decoded_frame], [None] for [NULL]; frames are named by numbers. *)
Record t : Type := { dec_fmt_ctx : bool; decoded_frame : option Z }.

(** [engine_get_next_packet]; [read] is what [av_read_frame] returns
    when it is called. *)
Definition engine_get_next_packet (ctx : option t) (read : Z) : Z :=
  match ctx with
  | None => AVERROR_EOF
  | Some c => if dec_fmt_ctx c then read else AVERROR_EOF
  end.

(** [engine_decode_video_packet]: the value returned, [*frame] and the
    context afterwards.  [send] and [receive] are what
    [avcodec_send_packet] and [avcodec_receive_frame] return when they
    are called. *)
Definition engine_decode_video_packet (ctx : option t) (send receive : Z)
    (frame : option Z) : Z * option Z * option t :=
  match ctx with
  | None => (AVERROR_INVALIDDATA, frame, None)
  | Some c =>
      if negb (dec_fmt_ctx c) then
        match decoded_frame c with
        | Some f =>
            (0, Some f, Some {| dec_fmt_ctx := dec_fmt_ctx c; decoded_frame := None |})
        | None => (AVERROR_EOF, frame, Some c)
        end
      else if send <? 0 then (send, frame, Some c)
      else if receive =? 0 then (receive, decoded_frame c, Some c)
      else (receive, frame, Some c)
  end.

(** A series of calls, each with the results of its library calls: the
    values returned, and [*frame] and the context at the end. *)
Fixpoint decode_calls (ctx : option t) (calls : list (Z * Z)) (frame : option Z)
    : list Z * option Z * option t :=
  match calls with
  | [] => ([], frame, ctx)
  | (send, receive) :: rest =>
      let '(ret, frame', ctx') :=
        engine_decode_video_packet ctx send receive frame in
      let '(rets, frame'', ctx'') := decode_calls ctx' rest frame' in
      (ret :: rets, frame'', ctx'')
  end.

End Decoder.

(** ** The command line ([main]) *)

Module Main.

Import Strings.String.

Inductive DitherMode : Type := DITHER_NONE | DITHER_FLOYD.

(** [EngineConfig] in full: the fields of the record above, which the
    frame path reads, and the five others. *)
Record Settings : Type := {
  config : EngineConfig;
  mode : Names.ProcessingMode;
  output_filename : option (list byte);
  dither_mode : DitherMode;
  use_simd : Z;
  crf : Z
}.

(** Assignments to single fields. *)
Definition set_output_width (v : Z) (c : EngineConfig) : EngineConfig :=
  {| output_width := v; edge_strength := edge_strength c;
     aspect_correction := aspect_correction c;
     brightness_factor := brightness_factor c;
     saturation_factor := saturation_factor c;
     use_color := use_color c; cfg_num_threads := cfg_num_threads c |}.

Definition set_edge_strength (v : f32) (c : EngineConfig) : EngineConfig :=
  {| output_width := output_width c; edge_strength := v;
     aspect_correction := aspect_correction c;
     brightness_factor := brightness_factor c;
     saturation_factor := saturation_factor c;
     use_color := use_color c; cfg_num_threads := cfg_num_threads c |}.

Definition set_aspect_correction (v : f32) (c : EngineConfig) : EngineConfig :=
  {| output_width := output_width c; edge_strength := edge_strength c;
     aspect_correction := v;
     brightness_factor := brightness_factor c;
     saturation_factor := saturation_factor c;
     use_color := use_color c; cfg_num_threads := cfg_num_threads c |}.

Definition set_brightness_factor (v : f32) (c : EngineConfig) : EngineConfig :=
  {| output_width := output_width c; edge_strength := edge_strength c;
     aspect_correction := aspect_correction c;
     brightness_factor := v;
     saturation_factor := saturation_factor c;
     use_color := use_color c; cfg_num_threads := cfg_num_threads c |}.

Definition set_saturation_factor (v : f32) (c : EngineConfig) : EngineConfig :=
  {| output_width := output_width c; edge_strength := edge_strength c;
     aspect_correction := aspect_correction c;
     brightness_factor := brightness_factor c;
     saturation_factor := v;
     use_color := use_color c; cfg_num_threads := cfg_num_threads c |}.

Definition set_num_threads (v : Z) (c : EngineConfig) : EngineConfig :=
  {| output_width := output_width c; edge_strength := edge_strength c;
     aspect_correction := aspect_correction c;
     brightness_factor := brightness_factor c;
     saturation_factor := saturation_factor c;
     use_color := use_color c; cfg_num_threads := v |}.

Definition with_config (f : EngineConfig -> EngineConfig) (s : Settings)
    : Settings :=
  {| config := f (config s); mode := mode s;
     output_filename := output_filename s; dither_mode := dither_mode s;
     use_simd := use_simd s; crf := crf s |}.

Definition set_mode (v : Names.ProcessingMode) (s : Settings) : Settings :=
  {| config := config s; mode := v;
     output_filename := output_filename s; dither_mode := dither_mode s;
     use_simd := use_simd s; crf := crf s |}.

Definition set_output_filename (v : option (list byte)) (s : Settings)
    : Settings :=
  {| config := config s; mode := mode s;
     output_filename := v; dither_mode := dither_mode s;
     use_simd := use_simd s; crf := crf s |}.

Definition set_use_simd (v : Z) (s : Settings) : Settings :=
  {| config := config s; mode := mode s;
     output_filename := output_filename s; dither_mode := dither_mode s;
     use_simd := v; crf := crf s |}.

Definition set_crf (v : Z) (s : Settings) : Settings :=
  {| config := config s; mode := mode s;
     output_filename := output_filename s; dither_mode := dither_mode s;
     use_simd := use_simd s; crf := v |}.

(** The option names. *)
Definition opt_width : list byte := String.list_byte_of_string "--width".
Definition opt_edge : list byte := String.list_byte_of_string "--edge".
Definition opt_output : list byte := String.list_byte_of_string "--output".
Definition opt_fit_terminal : list byte :=
  String.list_byte_of_string "--fit-terminal".
Definition opt_brightness : list byte :=
  String.list_byte_of_string "--brightness".
Definition opt_saturate : list byte := String.list_byte_of_string "--saturate".
Definition opt_threads : list byte := String.list_byte_of_string "--threads".
Definition opt_crf : list byte := String.list_byte_of_string "--crf".
Definition opt_no_simd : list byte := String.list_byte_of_string "--no-simd".

(** The initial value of [config] in [main]; [mode] is not named by the
    initialiser and starts as member 0 of its enumeration. *)
Definition defaults : Settings :=
  {| config := {| output_width := 120;
                  edge_strength := lit 4 10;
                  aspect_correction := lit 5 10;
                  brightness_factor := one;
                  saturation_factor := one;
                  use_color := true;
                  cfg_num_threads := 0 |};
     mode := Names.MODE_IMAGE;
     output_filename := None;
     dither_mode := DITHER_NONE;
     use_simd := 1;
     crf := 23 |}.

Section Parse.

(** [atoi] and [strtof(., NULL)] of the C library. *)
Variable atoi : list byte -> Z.
Variable strtof : list byte -> f32.

(** The option loop over [argv[2]], [argv[3]], ...: the settings and
    [fit_terminal] after it.  An option that takes a value matches only
    when an argument follows ([i + 1 < argc]) and then consumes it; the
    second branch is the chain for the last argument, where those tests
    fail. *)
Fixpoint parse_args (args : list (list byte)) (st : Settings * bool)
    : Settings * bool :=
  match args with
  | [] => st
  | a :: rest =>
      let '(s, fit) := st in
      match rest with
      | v :: rest' =>
          if Names.streq a opt_width then
            parse_args rest' (with_config (set_output_width (atoi v)) s, fit)
          else if Names.streq a opt_edge then
            parse_args rest' (with_config (set_edge_strength (strtof v)) s, fit)
          else if Names.streq a opt_output then
            parse_args rest' (set_output_filename (Some v) s, fit)
          else if Names.streq a opt_fit_terminal then
            parse_args rest (s, true)
          else if Names.streq a opt_brightness then
            parse_args rest' (with_config (set_brightness_factor (strtof v)) s, fit)
          else if Names.streq a opt_saturate then
            parse_args rest' (with_config (set_saturation_factor (strtof v)) s, fit)
          else if Names.streq a opt_threads then
            parse_args rest' (with_config (set_num_threads (atoi v)) s, fit)
          else if Names.streq a opt_crf then
            parse_args rest' (set_crf (atoi v) s, fit)
          else if Names.streq a opt_no_simd then
            parse_args rest (set_use_simd 0 s, fit)
          else parse_args rest (s, fit)
      | [] =>
          if Names.streq a opt_fit_terminal then (s, true)
          else if Names.streq a opt_no_simd then (set_use_simd 0 s, fit)
          else (s, fit)
      end
  end.

(** The settings [main] hands to [engine_init], and [fit_terminal]:
    the defaults, the option loop, the mode of the input name, and the
    aspect correction of 1.0 for output into a file. *)
Definition main_settings (input_file : list byte) (args : list (list byte))
    : Settings * bool :=
  let '(s, fit) := parse_args args (defaults, false) in
  let s := set_mode (Names.main_mode input_file) s in
  let s := match output_filename s with
           | Some _ => with_config (set_aspect_correction one) s
           | None => s
           end in
  (s, fit).

End Parse.

End Main.
(** ** Fitting the grid to the terminal ([main.c]) *)

Module Terminal.

(** [struct winsize] as [ioctl(TIOCGWINSZ)] fills it; the two fields
    read are of type [unsigned short]. *)
Record winsize : Type := { ws_row : Z; ws_col : Z }.

(** [None] is a null [ctx].  A context that exists has a decoder context
    ([engine_init] returns [NULL] otherwise), which is why the test of
    [ctx->dec_codec_ctx] has no case of its own. *)
Definition engine_get_video_aspect (ctx : option ProcessingContext) : f32 :=
  match ctx with
  | None => div (of_int 16) (of_int 9)
  | Some c =>
      if dec_height c =? 0 then div (of_int 16) (of_int 9)
      else div (of_int (dec_width c)) (of_int (dec_height c))
  end.

(** [ioctl] is what the call returned and the [winsize] it filled;
    [ctx] is the context [engine_init] returned, which [main] has
    checked. *)
Definition fit_to_terminal (ioctl : Z * winsize)
    (ctx : ProcessingContext) (config : EngineConfig) : ProcessingContext :=
  let '(ret, w) := ioctl in
  if negb (ret =? 0) || (ws_col w <=? 0) || (ws_row w <=? 0) then ctx
  else
    let video_aspect := engine_get_video_aspect (Some ctx) in
    let corrected_video_aspect := div video_aspect (aspect_correction config) in
    let terminal_aspect := div (of_int (ws_col w)) (of_int (ws_row w)) in
    if ltb corrected_video_aspect terminal_aspect then
      let new_height := ws_row w - 1 in
      let new_width := to_int (mul (of_int new_height) corrected_video_aspect) in
      engine_update_output_dims ctx new_width new_height
    else
      let new_width := ws_col w in
      let new_height := to_int (div (of_int new_width) corrected_video_aspect) in
      engine_update_output_dims ctx new_width new_height.

End Terminal.

(** The real number a finite float stands for (0 for the others). *)
Definition B2R (x : f32) : Rdefinitions.R :=
  match x with
  | S754_finite s m e =>
      Rdefinitions.Rmult
        (Rdefinitions.IZR (if s then Zneg m else Zpos m))
        (Rfunctions.powerRZ (Rdefinitions.IZR 2) e)
  | _ => Rdefinitions.IZR 0
  end.

(* ================================================================== *)
(** * Part II: properties                                              *)
(* ================================================================== *)

(** ** The embedding on known values *)

(** The float constants of the source have the bit patterns a C compiler
    gives them: [0.299f = 0x3E991687], [0.587f = 0x3F1645A2],
    [0.114f = 0x3DE978D5], [2.41421356f = 0x401A827A],
    [1.0f / 2.2f = 0x3EE8BA2E] and [255.0f = 0x437F0000]. *)
Example float_constants :
  lit 299 1000 = S754_finite false 10032775 (-25) /\
  lit 587 1000 = S754_finite false 9848226 (-24) /\
  lit 114 1000 = S754_finite false 15300821 (-27) /\
  Tile.D_THRESH = S754_finite false 10125946 (-22) /\
  Luts.gamma_exponent = S754_finite false 15252014 (-25) /\
  f255 = S754_finite false 16711680 (-16).
Proof. repeat split. Qed.

(** White has luma exactly 255, black exactly 0. *)
Example luma_white_black :
  Tile.luma xff xff xff = f255 /\ Tile.luma x00 x00 x00 = zero.
Proof. split; reflexivity. Qed.

(** The truncated luma of five colours.  Rounding the three products and
    the two sums one by one would give 27, 36, 165, 63 and 30; the build,
    which fuses two of the products into the sums, gives these. *)
Example luma_contracted :
  map (fun c : byte * byte * byte =>
         let '(r, g, b) := c in u8 (to_uint8 (Tile.luma r g b)))
      [(x1b, x1b, x1b); (x25, x25, x25); (x01, xe9, xf5);
       (x3f, x3f, x3f); (x04, x26, x39)]
  = [26; 37; 164; 62; 29].
Proof. vm_compute. reflexivity. Qed.

(** The window loop visits [ky = -1, 0, 1] and, inside, [kx = -1, 0, 1]. *)
Example window_order :
  Tile.window
  = [(-1, -1); (-1, 0); (-1, 1); (0, -1); (0, 0); (0, 1); (1, -1); (1, 0); (1, 1)].
Proof. reflexivity. Qed.

(** The ends of the character tables: level 0 maps to the first glyph of
    each ramp, level 255 to glyph [ramp_len - 1]; for the vertical ramp
    that is the first byte of the two-byte second character. *)
Example ramp_table_ends :
  map (fun r => Luts.ramp_entry (fst r) (snd r) 0)
      [(Luts.flat_ramp, 90); (Luts.vertical_ramp, 2); (Luts.horizontal_ramp, 2);
       (Luts.diagonal1_ramp, 2); (Luts.diagonal2_ramp, 2)]
  = [x60; x7c; x2d; x5c; x2f] /\
  map (fun r => Luts.ramp_entry (fst r) (snd r) 255)
      [(Luts.flat_ramp, 90); (Luts.vertical_ramp, 2); (Luts.horizontal_ramp, 2);
       (Luts.diagonal1_ramp, 2); (Luts.diagonal2_ramp, 2)]
  = [x26; xc2; x3d; x5f; x5f].
Proof. split; reflexivity. Qed.

(** [sprintf] of a white ['A']: ESC [ 3 8 ; 2 ; 2 5 5 ; 2 5 5 ; 2 5 5 m A. *)
Example cell_text_white :
  map u8 (Console.cell_text xff xff xff x41)
  = [27; 91; 51; 56; 59; 50; 59; 50; 53; 53; 59; 50; 53; 53; 59; 50; 53; 53; 109; 65].
Proof. reflexivity. Qed.

(** ** Bytes and ranges *)

Lemma u8_range (b : byte) : 0 <= u8 b <= 255.
Proof.
  unfold u8. pose proof (Byte.to_N_bounded b) as H. lia.
Qed.

Lemma range_In (a b v : Z) : In v (range a b) <-> a <= v < b.
Proof.
  unfold range. rewrite in_map_iff. split.
  - intros [k [<- Hk]]. apply in_seq in Hk. lia.
  - intros H. exists (Z.to_nat (v - a)). split; [lia|].
    apply in_seq. lia.
Qed.

Lemma range_length (a b : Z) : List.length (range a b) = Z.to_nat (b - a).
Proof. unfold range. now rewrite length_map, length_seq. Qed.

Lemma range_nil (a b : Z) : b <= a -> range a b = [].
Proof.
  intros H. unfold range. replace (Z.to_nat (b - a)) with 0%nat by lia.
  reflexivity.
Qed.

Lemma map_seq_from_0 {A : Type} (f : nat -> A) (n m : nat) :
  map f (seq n m) = map (fun k => f (n + k)%nat) (seq 0 m).
Proof.
  revert f n. induction m as [|m IH]; intros f n; [reflexivity|].
  simpl. rewrite Nat.add_0_r. f_equal.
  rewrite (IH f (S n)), (IH (fun k => f (n + k)%nat) 1%nat).
  apply map_ext. intros k. f_equal. lia.
Qed.

Lemma range_app (a b c : Z) :
  a <= b -> b <= c -> range a b ++ range b c = range a c.
Proof.
  intros Hab Hbc. unfold range.
  replace (Z.to_nat (c - a)) with (Z.to_nat (b - a) + Z.to_nat (c - b))%nat by lia.
  rewrite seq_app, map_app. f_equal.
  rewrite Nat.add_0_l, (map_seq_from_0 _ (Z.to_nat (b - a))).
  apply map_ext. intros k. lia.
Qed.

Lemma range_snoc (a b : Z) : a <= b -> range a (b + 1) = range a b ++ [b].
Proof.
  intros H. rewrite <- (range_app a b (b + 1)) by lia. f_equal.
  unfold range. replace (Z.to_nat (b + 1 - b)) with 1%nat by lia.
  simpl. f_equal. lia.
Qed.

Lemma range_nth (a b : Z) (k : nat) (d : Z) :
  (k < Z.to_nat (b - a))%nat -> nth k (range a b) d = a + Z.of_nat k.
Proof.
  intros H. unfold range.
  rewrite (nth_indep _ d (a + Z.of_nat 0)) by (now rewrite length_map, length_seq).
  rewrite (map_nth (fun k => a + Z.of_nat k)), seq_nth by assumption.
  reflexivity.
Qed.

(** ** The frame arena *)

Section ArenaFacts.

Import Arena.

Lemma land_align16 (x : Z) :
  0 <= x < Size.modulus ->
  Z.land x (Size.wrap (Z.lnot 15)) = 16 * (x / 16).
Proof.
  intros Hx.
  replace (Size.wrap (Z.lnot 15)) with (Z.land (Z.lnot (Z.ones 4)) (Z.ones 64))
    by reflexivity.
  rewrite (Z.land_comm (Z.lnot _)), Z.land_assoc, Z.land_ones by lia.
  change (2 ^ 64) with Size.modulus. rewrite Z.mod_small by assumption.
  rewrite <- Z.ldiff_land, Z.ldiff_ones_r by lia.
  rewrite Z.shiftr_div_pow2, Z.shiftl_mul_pow2 by lia.
  change (2 ^ 4) with 16. lia.
Qed.

Lemma round_up_16_spec (sz : Z) :
  round_up_16 sz mod 16 = 0 /\ sz <= round_up_16 sz < sz + 16.
Proof.
  unfold round_up_16. split.
  - rewrite Z.mul_comm. apply Z.mod_mul. lia.
  - pose proof (Z.mod_pos_bound (sz + 15) 16 ltac:(lia)).
    pose proof (Z.div_mod (sz + 15) 16 ltac:(lia)). lia.
Qed.

(** The least multiple of 16 at or above the request. *)
Lemma round_up_16_least (sz k : Z) :
  sz <= 16 * k -> round_up_16 sz <= 16 * k.
Proof.
  intros H. unfold round_up_16.
  assert ((sz + 15) / 16 <= k); [|lia].
  apply Z.lt_succ_r, Z.div_lt_upper_bound; lia.
Qed.

Lemma align16_no_wrap (sz : Z) :
  0 <= sz -> sz + 15 <= Size.SIZE_MAX -> align16 sz = round_up_16 sz.
Proof.
  intros H0 H1. unfold align16, Size.add, Size.wrap.
  unfold Size.SIZE_MAX in H1.
  rewrite Z.mod_small by lia.
  apply land_align16. lia.
Qed.

Lemma align16_range (sz : Z) :
  0 <= align16 sz < Size.modulus /\ align16 sz mod 16 = 0.
Proof.
  unfold align16, Size.add.
  assert (Hx : 0 <= Size.wrap (sz + 15) < Size.modulus)
    by (apply Z.mod_pos_bound; reflexivity).
  rewrite land_align16 by assumption.
  pose proof (Z.mod_pos_bound (Size.wrap (sz + 15)) 16 ltac:(lia)).
  pose proof (Z.div_mod (Size.wrap (sz + 15)) 16 ltac:(lia)).
  split; [lia|]. rewrite Z.mul_comm. apply Z.mod_mul. lia.
Qed.

Lemma arena_alloc_well_formed (a : t) (sz : Z) :
  well_formed a -> well_formed (snd (arena_alloc a sz)).
Proof.
  intros (Hu & Hs & Hm). unfold arena_alloc.
  destruct (Size.add (used a) (align16 sz) >? size a) eqn:E; [now repeat split|].
  simpl. rewrite Z.gtb_ltb in E; apply Z.ltb_ge in E.
  destruct (align16_range sz) as [Hr Hr16].
  assert (H64 : (16 | Size.modulus)) by (exists (2 ^ 60); reflexivity).
  unfold Size.add, Size.wrap in *.
  pose proof (Z.mod_pos_bound (used a + align16 sz) Size.modulus ltac:(reflexivity)).
  repeat split; simpl; try lia.
  rewrite Z.mod_mod_divide by assumption.
  rewrite Z.add_mod, Hm, Hr16 by lia. reflexivity.
Qed.

Lemma run_well_formed (ops : list op) (a : t) :
  well_formed a -> well_formed (run a ops).
Proof.
  revert a. induction ops as [|o ops IH]; intros a Ha; [exact Ha|].
  apply IH. destruct o as [sz|]; simpl.
  - now apply arena_alloc_well_formed.
  - destruct Ha as (Hu & Hs & _). repeat split; simpl; try lia.
Qed.

(** X19: after any sequence of allocations and resets, a request
    that does not wrap around in [size_t] is rounded up to the next
    multiple of 16 and is served, at the current mark, exactly when the
    rounded size fits in the remaining capacity; a request that does
    not fit returns [NULL] and leaves the arena as it was; [arena_reset]
    puts the mark back to zero in one assignment and keeps the capacity,
    so that the whole capacity can be allocated again. *)
Theorem arena_alloc_reset_spec (a0 : t) (ops : list op) (sz : Z) :
  well_formed a0 ->
  let a := run a0 ops in
  let r := round_up_16 sz in
  0 <= sz -> sz + 15 <= Size.SIZE_MAX -> used a + r <= Size.SIZE_MAX ->
  (r mod 16 = 0 /\ sz <= r < sz + 16) /\
  (r <= size a - used a ->
     arena_alloc a sz = (Some (used a), {| size := size a; used := used a + r |})) /\
  (size a - used a < r -> arena_alloc a sz = (None, a)) /\
  (fst (arena_alloc a sz) <> None <-> r <= size a - used a) /\
  arena_reset a = {| size := size a; used := 0 |} /\
  (r <= size a ->
     arena_alloc (arena_reset a) sz = (Some 0, {| size := size a; used := r |})).
Proof.
  intros Hwf a r H0 H15 Hsum.
  assert (Ha : well_formed a) by now apply run_well_formed.
  destruct Ha as (Hu & Hs & Hm).
  destruct (round_up_16_spec sz) as [Hr16 Hr]. fold r in Hr16, Hr.
  assert (Hal : align16 sz = r) by now apply align16_no_wrap.
  assert (Hadd : forall u, 0 <= u -> u + r <= Size.SIZE_MAX ->
                           Size.add u r = u + r).
  { intros u Hu0 Hur. unfold Size.add, Size.wrap.
    apply Z.mod_small. unfold Size.SIZE_MAX in Hur. lia. }
  assert (Hfit : r <= size a - used a ->
     arena_alloc a sz = (Some (used a), {| size := size a; used := used a + r |})).
  { intros Hle. unfold arena_alloc. rewrite Hal, Hadd by lia.
    destruct (used a + r >? size a) eqn:E; [|reflexivity].
    rewrite Z.gtb_ltb in E; apply Z.ltb_lt in E. lia. }
  assert (Hnofit : size a - used a < r -> arena_alloc a sz = (None, a)).
  { intros Hlt. unfold arena_alloc. rewrite Hal, Hadd by lia.
    destruct (used a + r >? size a) eqn:E; [reflexivity|].
    rewrite Z.gtb_ltb in E; apply Z.ltb_ge in E. lia. }
  repeat split; try assumption; try lia.
  - intros Hsome. destruct (Z.le_gt_cases r (size a - used a)) as [|Hgt]; [assumption|].
    rewrite (Hnofit Hgt) in Hsome. now contradiction Hsome.
  - intros Hle. rewrite (Hfit Hle). discriminate.
  - intros Hle. unfold arena_alloc, arena_reset. simpl.
    rewrite Hal, Hadd by lia.
    destruct (0 + r >? size a) eqn:E; [|reflexivity].
    rewrite Z.gtb_ltb in E; apply Z.ltb_lt in E. lia.
Qed.

Lemma arena_alloc_reset_spec_witness :
  let a := run (arena_init 64) [Alloc 10; Reset; Alloc 20] in
  arena_alloc a 5 = (Some 32, {| size := 64; used := 48 |}) /\
  arena_alloc (arena_reset a) 5 = (Some 0, {| size := 64; used := 16 |}).
Proof.
  assert (Hwf : well_formed (arena_init 64)) by (repeat split; vm_compute; congruence).
  destruct (arena_alloc_reset_spec (arena_init 64) [Alloc 10; Reset; Alloc 20] 5 Hwf)
    as (_ & Hfit & _ & _ & _ & Hreset);
    [lia | vm_compute; discriminate | vm_compute; discriminate |].
  split; [apply Hfit | apply Hreset]; vm_compute; discriminate.
Defined.

(** C6: the capacity check of [arena_alloc] can be defeated.  The
    comparison [a->used + size > a->size] is there to refuse what does
    not fit, but both the rounding and the sum wrap around in [size_t]:
    a request of [SIZE_MAX] bytes is rounded to 0 and served from a
    64-byte arena, and a request of [SIZE_MAX - 15] bytes is served from
    an arena with 32 bytes left, the mark moving back from 32 to 16.  In
    both cases the rounded size does not fit and the result is not
    [NULL]. *)
Lemma arena_alloc_wraps :
  arena_alloc (arena_init 64) Size.SIZE_MAX = (Some 0, arena_init 64) /\
  ~ round_up_16 Size.SIZE_MAX <= 64 /\
  arena_alloc {| size := 64; used := 32 |} (Size.SIZE_MAX - 15)
    = (Some 32, {| size := 64; used := 16 |}) /\
  ~ round_up_16 (Size.SIZE_MAX - 15) <= 64 - 32.
Proof. repeat split; vm_compute; congruence. Qed.

End ArenaFacts.

(** ** The row bands of the frame orchestrator *)

Section RowBands.

Import Frame.

Lemma engine_init_num_threads_pos (config : EngineConfig) (nproc : Z) :
  1 <= engine_init_num_threads config nproc.
Proof.
  unfold engine_init_num_threads.
  destruct (cfg_num_threads config >? 0) eqn:E.
  - rewrite Z.gtb_ltb in E; apply Z.ltb_lt in E. lia.
  - destruct (nproc <=? 0) eqn:E'; [lia|]. apply Z.leb_gt in E'. lia.
Qed.

Lemma row_bands_nth (h n i : Z) (d : ThreadArgs) :
  0 <= i < n -> nth (Z.to_nat i) (row_bands h n) d = band h n i.
Proof.
  intros Hi. unfold row_bands.
  rewrite (nth_indep _ d (band h n 0)) by (rewrite length_map, range_length; lia).
  rewrite (map_nth (band h n)), range_nth by lia. f_equal. lia.
Qed.

Lemma band_rows_inner (h n i : Z) :
  i <> n - 1 ->
  band_rows (band h n i) = range (i * Z.quot h n) ((i + 1) * Z.quot h n).
Proof.
  intros Hi. unfold band_rows, band. simpl.
  destruct (i =? n - 1) eqn:E; [apply Z.eqb_eq in E; contradiction|reflexivity].
Qed.

Lemma band_rows_last (h n : Z) :
  band_rows (band h n (n - 1)) = range ((n - 1) * Z.quot h n) h.
Proof. unfold band_rows, band. simpl. now rewrite Z.eqb_refl. Qed.

(** The rows of the first [k] bands, one band after the other. *)
Lemma band_rows_prefix (h n : Z) (k : nat) :
  0 <= Z.quot h n -> Z.of_nat k <= n - 1 ->
  concat (map band_rows (map (band h n) (range 0 (Z.of_nat k))))
  = range 0 (Z.of_nat k * Z.quot h n).
Proof.
  intros Hq. induction k as [|k IH]; intros Hk; [reflexivity|].
  replace (Z.of_nat (S k)) with (Z.of_nat k + 1) by lia.
  rewrite range_snoc, !map_app, concat_app, IH by lia.
  simpl. rewrite app_nil_r, band_rows_inner by lia.
  apply range_app; nia.
Qed.

Lemma row_bands_concat (h n : Z) :
  0 <= h -> 1 <= n -> concat (map band_rows (row_bands h n)) = range 0 h.
Proof.
  intros Hh Hn. unfold row_bands.
  assert (Hq : Z.quot h n = h / n) by (apply Z.quot_div_nonneg; lia).
  pose proof (Z.div_pos h n Hh ltac:(lia)) as Hq0.
  pose proof (Z.mul_div_le h n ltac:(lia)) as Hle.
  assert (E : range 0 n = range 0 (Z.of_nat (Z.to_nat (n - 1))) ++ [n - 1]).
  { replace (Z.of_nat (Z.to_nat (n - 1))) with (n - 1) by lia.
    rewrite <- range_snoc by lia. f_equal. lia. }
  rewrite E, !map_app, concat_app, band_rows_prefix by lia.
  simpl. rewrite app_nil_r, band_rows_last.
  replace (Z.of_nat (Z.to_nat (n - 1))) with (n - 1) by lia.
  apply range_app; nia.
Qed.

(** C4: for every output height [h >= 0] and the worker count [n] that
    [engine_init] settles on (the configured count when positive, else
    the detected processor count, at least 1), the launch loop makes [n]
    bands; read one after the other their rows are exactly
    [0, 1, ..., h - 1], so the bands are contiguous, pairwise disjoint
    and cover every row once; each band but the last holds [h / n] rows
    (rounded down) and the last one holds the [h mod n] remaining rows
    as well; when [h < n] every band but the last is empty. *)
Theorem row_bands_partition (config : EngineConfig) (nproc h : Z) :
  0 <= h ->
  let n := engine_init_num_threads config nproc in
  let bands := row_bands h n in
  let B := fun i => nth (Z.to_nat i) bands {| start_row := 0; end_row := 0 |} in
  1 <= n /\
  Z.of_nat (List.length bands) = n /\
  concat (map band_rows bands) = range 0 h /\
  start_row (B 0) = 0 /\
  end_row (B (n - 1)) = h /\
  (forall i, 0 <= i < n - 1 ->
     end_row (B i) = start_row (B (i + 1)) /\
     end_row (B i) - start_row (B i) = h / n) /\
  end_row (B (n - 1)) - start_row (B (n - 1)) = h / n + h mod n /\
  (forall y, 0 <= y < h ->
     exists i, 0 <= i < n /\ start_row (B i) <= y < end_row (B i) /\
       forall j, 0 <= j < n -> start_row (B j) <= y < end_row (B j) -> j = i) /\
  (h < n -> forall i, 0 <= i < n - 1 -> band_rows (B i) = []).
Proof.
  intros Hh n bands B.
  pose proof (engine_init_num_threads_pos config nproc) as Hn. fold n in Hn.
  assert (Hq : Z.quot h n = h / n) by (apply Z.quot_div_nonneg; lia).
  pose proof (Z.div_pos h n Hh ltac:(lia)) as Hq0.
  pose proof (Z.div_mod h n ltac:(lia)) as Hdm.
  pose proof (Z.mod_pos_bound h n ltac:(lia)) as Hmod.
  assert (HB : forall i, 0 <= i < n -> B i = band h n i)
    by (intros i Hi; apply row_bands_nth; assumption).
  assert (Hstart : forall i, 0 <= i < n -> start_row (B i) = i * (h / n))
    by (intros i Hi; rewrite (HB i Hi); simpl; now rewrite Hq).
  assert (Hend : forall i, 0 <= i < n - 1 -> end_row (B i) = (i + 1) * (h / n)).
  { intros i Hi. rewrite HB by lia. simpl.
    destruct (i =? n - 1) eqn:E; [apply Z.eqb_eq in E; lia|now rewrite Hq]. }
  assert (Hlast : end_row (B (n - 1)) = h)
    by (rewrite HB by lia; simpl; now rewrite Z.eqb_refl).
  repeat split.
  - exact Hn.
  - unfold bands, row_bands. rewrite length_map, range_length. lia.
  - now apply row_bands_concat.
  - rewrite Hstart by lia. lia.
  - exact Hlast.
  - rewrite Hend, Hstart by lia. reflexivity.
  - rewrite Hend, Hstart by lia. lia.
  - rewrite Hlast, Hstart by lia. nia.
  - intros y Hy.
    destruct (Z.lt_ge_cases y ((n - 1) * (h / n))) as [Hlt|Hge].
    + assert (Hpos : 0 < h / n) by nia.
      pose proof (Z.div_mod y (h / n) ltac:(lia)) as Hy1.
      pose proof (Z.mod_pos_bound y (h / n) Hpos) as Hy2.
      assert (Hi : 0 <= y / (h / n) < n - 1).
      { split; [apply Z.div_pos; lia|].
        apply Z.div_lt_upper_bound; lia. }
      exists (y / (h / n)). split; [lia|]. split.
      * rewrite Hend, Hstart by lia. lia.
      * intros j Hj Hin. rewrite Hstart in Hin by lia.
        destruct (Z.eq_dec j (n - 1)) as [->|Hne]; [lia|].
        rewrite Hend in Hin by lia. nia.
    + exists (n - 1). split; [lia|]. split.
      * rewrite Hlast, Hstart by lia. lia.
      * intros j Hj Hin. rewrite Hstart in Hin by lia.
        destruct (Z.eq_dec j (n - 1)) as [->|Hne]; [reflexivity|].
        rewrite Hend in Hin by lia. nia.
  - intros Hlt i Hi. rewrite HB by lia.
    rewrite band_rows_inner, Hq by lia.
    rewrite (Z.div_small h n) by lia. apply range_nil. lia.
Qed.

Lemma row_bands_partition_witness :
  row_bands 10 4
  = [ {| start_row := 0; end_row := 2 |}; {| start_row := 2; end_row := 4 |};
      {| start_row := 4; end_row := 6 |}; {| start_row := 6; end_row := 10 |} ]
  /\ concat (map band_rows (row_bands 10 4)) = range 0 10.
Proof.
  split; [reflexivity|].
  pose (config := {| output_width := 120; edge_strength := zero;
                     aspect_correction := one; brightness_factor := one;
                     saturation_factor := one; use_color := true;
                     cfg_num_threads := 4 |}).
  destruct (row_bands_partition config 0 10 ltac:(lia)) as (_ & _ & H & _).
  exact H.
Defined.

End RowBands.

(** ** The Sobel window stays inside the source frame *)

Section SobelWindow.

Import Tile.

Lemma clamp_range (s n : Z) : 0 < n -> 0 <= clamp s n < n.
Proof.
  intros Hn. unfold clamp.
  destruct (s <? 0) eqn:E1; [lia|]. apply Z.ltb_ge in E1.
  destruct (s >=? n) eqn:E2; [lia|].
  rewrite Z.geb_leb in E2. apply Z.leb_gt in E2. lia.
Qed.

(** Edge replication: the nearest coordinate of the valid range. *)
Lemma clamp_nearest (s n : Z) :
  0 < n -> clamp s n = Z.max 0 (Z.min (n - 1) s).
Proof.
  intros Hn. unfold clamp.
  destruct (s <? 0) eqn:E1; [apply Z.ltb_lt in E1; lia|]. apply Z.ltb_ge in E1.
  destruct (s >=? n) eqn:E2; rewrite Z.geb_leb in E2.
  - apply Z.leb_le in E2. lia.
  - apply Z.leb_gt in E2. lia.
Qed.

(** The gradient of a cell is computed from the pixels at its window
    samples alone. *)
Lemma sobel_reads_samples (ctx ctx' : ProcessingContext) (srcx srcy : Z) :
  dec_width ctx' = dec_width ctx ->
  dec_height ctx' = dec_height ctx ->
  (forall k, In k window ->
     let s := sample_coord ctx srcx srcy k in
     pixel ctx' (fst s) (snd s) = pixel ctx (fst s) (snd s)) ->
  sobel ctx' srcx srcy = sobel ctx srcx srcy.
Proof.
  intros Hw Hh. unfold sobel.
  generalize {| gx := zero; gy := zero; center_luma := zero |}.
  induction window as [|k l IH]; intros acc Hpix; [reflexivity|].
  simpl. rewrite IH by (intros k' Hk'; apply Hpix; now right).
  f_equal. unfold sobel_step.
  assert (Hs : sample_coord ctx' srcx srcy k = sample_coord ctx srcx srcy k)
    by (unfold sample_coord; now rewrite Hw, Hh).
  rewrite Hs. specialize (Hpix k (or_introl eq_refl)). cbv zeta in Hpix.
  destruct (sample_coord ctx srcx srcy k) as [sx sy]. simpl in Hpix.
  unfold luma_at. now rewrite Hpix.
Qed.

(** C5: for every output cell of a source frame with positive
    dimensions, each of the nine coordinates the Sobel window samples
    lies in [0, width) x [0, height): a coordinate that falls outside is
    replaced by the nearest one inside (edge replication).  The gradient
    is computed from the pixels at those coordinates only, so it is the
    same for any frame that agrees with this one inside the rectangle. *)
Theorem sobel_window_in_bounds (ctx : ProcessingContext) (x y : Z) :
  0 < dec_width ctx -> 0 < dec_height ctx ->
  (forall s, In s (window_samples ctx x y) ->
     0 <= fst s < dec_width ctx /\ 0 <= snd s < dec_height ctx) /\
  window_samples ctx x y
  = map (fun k => (Z.max 0 (Z.min (dec_width ctx - 1) (source_x ctx x + snd k)),
                   Z.max 0 (Z.min (dec_height ctx - 1) (source_y ctx y + fst k))))
        window /\
  (forall data',
     let ctx' := {| dec_width := dec_width ctx; dec_height := dec_height ctx;
                    rgb_data := data'; rgb_linesize := rgb_linesize ctx;
                    ascii_width := ascii_width ctx;
                    ascii_height := ascii_height ctx;
                    frame_arena := frame_arena ctx;
                    num_threads := num_threads ctx; luts := luts ctx |} in
     (forall sx sy, 0 <= sx < dec_width ctx -> 0 <= sy < dec_height ctx ->
                    pixel ctx' sx sy = pixel ctx sx sy) ->
     cell_gradient ctx' x y = cell_gradient ctx x y).
Proof.
  intros Hw Hh. split; [|split].
  - intros s Hs. unfold window_samples in Hs.
    apply in_map_iff in Hs. destruct Hs as [k [<- _]]. simpl.
    split; apply clamp_range; assumption.
  - unfold window_samples. apply map_ext. intros k. unfold sample_coord.
    now rewrite !clamp_nearest.
  - intros data' ctx' Hpix. unfold cell_gradient.
    change (source_x ctx' x) with (source_x ctx x).
    change (source_y ctx' y) with (source_y ctx y).
    apply sobel_reads_samples; try reflexivity.
    intros k _. simpl. apply Hpix; apply clamp_range; assumption.
Qed.

Lemma sobel_window_in_bounds_witness :
  window_samples (Examples.half_split_ctx Luts.powf_ref) 0 3
  = [(0, 2); (0, 2); (1, 2); (0, 3); (0, 3); (1, 3); (0, 3); (0, 3); (1, 3)]
  /\ forall s, In s (window_samples (Examples.half_split_ctx Luts.powf_ref) 0 3) ->
       0 <= fst s < 4 /\ 0 <= snd s < 4.
Proof.
  split; [reflexivity|].
  exact (proj1 (sobel_window_in_bounds (Examples.half_split_ctx Luts.powf_ref) 0 3
                  ltac:(reflexivity) ltac:(reflexivity))).
Defined.

End SobelWindow.

(** ** The saturation stage of the glyph compositor *)

Section Saturation.

Import Compositor.

(** C9: when [saturation_factor] equals [1.0f] the saturation block is
    skipped, so every RGB triple reaches the brightness stage as it was
    read from the colour buffer. *)
Theorem saturation_one_is_identity (config : EngineConfig) (c : rgb) :
  eqb (saturation_factor config) one = true ->
  saturation_stage config c = c /\
  cell_pixel_color config c = brightness_stage config c.
Proof.
  intros H.
  assert (Hs : saturation_stage config c = c).
  { unfold saturation_stage. destruct c as [[r g] b]. now rewrite H. }
  split; [exact Hs|]. unfold cell_pixel_color. now rewrite Hs.
Qed.

Lemma saturation_one_is_identity_witness :
  saturation_stage Examples.default_config (x10, x80, xf0) = (x10, x80, xf0) /\
  cell_pixel_color Examples.default_config (x10, x80, xf0)
  = brightness_stage Examples.default_config (x10, x80, xf0).
Proof.
  exact (saturation_one_is_identity Examples.default_config (x10, x80, xf0)
           ltac:(reflexivity)).
Defined.

End Saturation.

(** ** The console renderer stays inside its buffer *)

Section ConsoleBuffer.

Import Console.

Lemma decimal_length (b : byte) : (1 <= List.length (decimal (u8 b)) <= 3)%nat.
Proof. destruct b; vm_compute; lia. Qed.

(** One coloured cell takes at most 19 bytes of escape sequence and one
    byte for the character. *)
Lemma cell_text_length (r g b c : byte) :
  (List.length (cell_text r g b c) <= 20)%nat.
Proof.
  unfold cell_text. rewrite !length_app. simpl.
  pose proof (decimal_length r). pose proof (decimal_length g).
  pose proof (decimal_length b). lia.
Qed.

Lemma store_at_In (bs : list byte) (p : Z) (acc : list (Z * byte)) (o : Z) (v : byte) :
  In (o, v) (store_at p bs acc) ->
  In (o, v) acc \/ p <= o < p + Z.of_nat (List.length bs).
Proof.
  revert p acc. induction bs as [|b bs IH]; intros p acc H; simpl in *.
  - now left.
  - apply IH in H. destruct H as [[H|H]|H].
    + inversion H; subst. right. lia.
    + now left.
    + right. lia.
Qed.

Lemma sprintf_behind (s : cursor) (text : list byte) :
  behind_cursor s ->
  behind_cursor (sprintf s text) /\
  buf_ptr (sprintf s text) = buf_ptr s + Z.of_nat (List.length text).
Proof.
  intros [H0 Hst]. split; [|reflexivity]. split; simpl; [lia|].
  intros o v H. apply store_at_In in H. rewrite length_app in H. simpl in H.
  destruct H as [H|H]; [apply Hst in H|]; lia.
Qed.

Lemma put_behind (s : cursor) (c : byte) :
  behind_cursor s -> behind_cursor (put s c).
Proof.
  intros [H0 Hst]. split; simpl; [lia|].
  intros o v [H|H]; [inversion H; subst|apply Hst in H]; lia.
Qed.

Lemma emit_cell_behind (ctx : ProcessingContext) (config : EngineConfig)
    (b : Buffers) (y : Z) (s : cursor) (x : Z) :
  behind_cursor s ->
  behind_cursor (emit_cell ctx config b y s x) /\
  buf_ptr (emit_cell ctx config b y s x) <= buf_ptr s + 20.
Proof.
  intros Hs. unfold emit_cell. destruct (use_color config).
  - destruct (sprintf_behind s
      (cell_text (color_buffer b ((y * ascii_width ctx + x) * 3 + 0))
                 (color_buffer b ((y * ascii_width ctx + x) * 3 + 1))
                 (color_buffer b ((y * ascii_width ctx + x) * 3 + 2))
                 (char_buffer b (y * ascii_width ctx + x))) Hs) as [Hb Hp].
    split; [exact Hb|]. rewrite Hp.
    pose proof (cell_text_length
                  (color_buffer b ((y * ascii_width ctx + x) * 3 + 0))
                  (color_buffer b ((y * ascii_width ctx + x) * 3 + 1))
                  (color_buffer b ((y * ascii_width ctx + x) * 3 + 2))
                  (char_buffer b (y * ascii_width ctx + x))). lia.
  - split; [now apply put_behind|simpl; lia].
Qed.

(** A loop whose body moves the cursor by at most [c]. *)
Lemma fold_behind {A : Type} (f : cursor -> A -> cursor) (c : Z) (l : list A) :
  (forall s a, behind_cursor s ->
               behind_cursor (f s a) /\ buf_ptr (f s a) <= buf_ptr s + c) ->
  forall s, behind_cursor s ->
    behind_cursor (fold_left f l s) /\
    buf_ptr (fold_left f l s) <= buf_ptr s + c * Z.of_nat (List.length l).
Proof.
  intros Hf. induction l as [|a l IH]; intros s Hs; simpl fold_left.
  - split; [exact Hs|simpl; lia].
  - destruct (Hf s a Hs) as [Hb Hp]. destruct (IH _ Hb) as [Hb' Hp'].
    split; [exact Hb'|]. simpl List.length. lia.
Qed.

Lemma emit_row_behind (ctx : ProcessingContext) (config : EngineConfig)
    (b : Buffers) (s : cursor) (y : Z) :
  0 <= ascii_width ctx ->
  behind_cursor s ->
  behind_cursor (emit_row ctx config b s y) /\
  buf_ptr (emit_row ctx config b s y) <= buf_ptr s + (20 * ascii_width ctx + 1).
Proof.
  intros Hw Hs. unfold emit_row.
  destruct (fold_behind (emit_cell ctx config b y) 20 (range 0 (ascii_width ctx))
              (fun s a => emit_cell_behind ctx config b y s a) s Hs) as [Hb Hp].
  rewrite range_length in Hp.
  split; [now apply put_behind|]. unfold put. cbn [buf_ptr]. lia.
Qed.

Lemma emit_frame_behind (ctx : ProcessingContext) (config : EngineConfig)
    (b : Buffers) :
  0 <= ascii_width ctx -> 0 <= ascii_height ctx ->
  behind_cursor (emit_frame ctx config b) /\
  buf_ptr (emit_frame ctx config b)
  <= (20 * ascii_width ctx + 1) * ascii_height ctx.
Proof.
  intros Hw Hh. unfold emit_frame.
  assert (H0 : behind_cursor {| buf_ptr := 0; stores := [] |})
    by (split; simpl; [lia|contradiction]).
  destruct (fold_behind (emit_row ctx config b) (20 * ascii_width ctx + 1)
              (range 0 (ascii_height ctx))
              (fun s y => emit_row_behind ctx config b s y Hw) _ H0) as [[Hb0 Hb] Hp].
  rewrite range_length in Hp. cbn [buf_ptr] in Hp.
  split; [|cbn [buf_ptr]; lia]. split; cbn [buf_ptr stores]; [exact Hb0|].
  intros o v [H|H]; [inversion H; subst; lia|now apply Hb in H].
Qed.

(** C10: for a grid of positive dimensions (whose size expression
    [ascii_width * 20 + 2] is a defined [int]), whatever the cell
    characters and colours, every store of the console renderer goes to
    an offset below [(ascii_width * 20 + 2) * ascii_height], the size it
    requested from the arena: a cell takes at most 20 bytes, a row one
    newline more, and the terminating NUL is the last byte written.
    When the allocation succeeds that block lies inside the arena. *)
Theorem console_render_within_buffer (ctx : ProcessingContext)
    (config : EngineConfig) (b : Buffers) :
  0 < ascii_width ctx -> 0 < ascii_height ctx <= INT_MAX ->
  ascii_width ctx * 20 + 2 <= INT_MAX ->
  full_buffer_size ctx = (ascii_width ctx * 20 + 2) * ascii_height ctx /\
  (forall r g bl c, (List.length (cell_text r g bl c) <= 20)%nat) /\
  (forall o v, In (o, v) (stores (emit_frame ctx config b)) ->
               0 <= o < full_buffer_size ctx) /\
  buf_ptr (emit_frame ctx config b) + 1 <= full_buffer_size ctx /\
  (forall a off st,
     Arena.well_formed (frame_arena ctx) ->
     Arena.size (frame_arena ctx) < 2 ^ 62 ->
     engine_render_to_console ctx config b = (a, Some (off, st)) ->
     st = stores (emit_frame ctx config b) /\
     0 <= off /\ off + full_buffer_size ctx <= Arena.size (frame_arena ctx)).
Proof.
  intros Hw Hh Hint. unfold INT_MAX in *.
  assert (Hsz : full_buffer_size ctx = (ascii_width ctx * 20 + 2) * ascii_height ctx).
  { unfold full_buffer_size, Size.mul, Size.wrap, Size.modulus.
    rewrite (Z.mod_small (ascii_width ctx * 20 + 2)) by lia.
    rewrite (Z.mod_small (ascii_height ctx)) by lia.
    apply Z.mod_small. nia. }
  destruct (emit_frame_behind ctx config b ltac:(lia) ltac:(lia)) as [[Hb0 Hb] Hp].
  split; [exact Hsz|]. split; [exact cell_text_length|].
  split; [|split].
  - intros o v H. apply Hb in H. rewrite Hsz. nia.
  - rewrite Hsz. nia.
  - intros a off st (Hu & Hs & Hm) Hcap Hr.
    unfold engine_render_to_console, Arena.arena_alloc in Hr.
    assert (Hfs : 0 <= full_buffer_size ctx <= 2 ^ 62) by (rewrite Hsz; nia).
    rewrite align16_no_wrap in Hr
      by (unfold Size.SIZE_MAX, Size.modulus; lia).
    destruct (round_up_16_spec (full_buffer_size ctx)) as [_ Hr16].
    unfold Size.add, Size.wrap, Size.modulus in Hr.
    rewrite Z.mod_small in Hr by lia.
    destruct (_ >? _) eqn:E in Hr; [discriminate|].
    rewrite Z.gtb_ltb in E; apply Z.ltb_ge in E.
    injection Hr as _ <- <-. repeat split; lia.
Qed.

Lemma console_render_within_buffer_witness :
  full_buffer_size (Examples.half_split_ctx Luts.powf_ref) = 328 /\
  buf_ptr (emit_frame (Examples.half_split_ctx Luts.powf_ref)
                      Examples.default_config Examples.blank_buffers) + 1
  <= full_buffer_size (Examples.half_split_ctx Luts.powf_ref).
Proof.
  destruct (console_render_within_buffer (Examples.half_split_ctx Luts.powf_ref)
              Examples.default_config Examples.blank_buffers)
    as (Hsz & _ & _ & Hlen & _);
    [reflexivity | split; [reflexivity | discriminate] | discriminate |].
  split; [rewrite Hsz; reflexivity | exact Hlen].
Defined.

End ConsoleBuffer.

(** ** The parallel phase computes a function of its inputs *)

Section Determinism.

Import Frame Tile.

Lemma interleaving_nil_cons {A : Type} (ts : list (list A)) (s : list A) :
  interleaving ts s -> interleaving ([] :: ts) s.
Proof.
  induction 1 as [ts Hall | before x t after sched _ IH].
  - apply interleaving_done. now constructor.
  - exact (interleaving_step ([] :: before) x t after sched IH).
Qed.

(** Running the threads one after the other is an execution. *)
Lemma interleaving_concat {A : Type} (ts : list (list A)) :
  interleaving ts (concat ts).
Proof.
  induction ts as [|t ts IH]; [apply interleaving_done; constructor|].
  induction t as [|x t IHt]; simpl.
  - now apply interleaving_nil_cons.
  - exact (interleaving_step [] x t ts _ IHt).
Qed.

(** An execution performs the steps of all threads, each once. *)
Lemma interleaving_Permutation {A : Type} (ts : list (list A)) (s : list A) :
  interleaving ts s -> Permutation s (concat ts).
Proof.
  induction 1 as [ts Hall | before x t after sched _ IH].
  - induction Hall as [|t ts -> _ IHall]; [constructor|exact IHall].
  - rewrite concat_app in *. simpl in *.
    now apply Permutation_cons_app.
Qed.

Lemma worker_cells_In (ctx : ProcessingContext) (s e y x : Z) :
  In (y, x) (worker_cells ctx s e) <-> s <= y < e /\ 0 <= x < ascii_width ctx.
Proof.
  unfold worker_cells. rewrite in_flat_map. split.
  - intros [y' [Hy' Hin]]. apply in_map_iff in Hin.
    destruct Hin as [x' [Heq Hx']]. inversion Heq; subst.
    apply range_In in Hy', Hx'. lia.
  - intros [Hy Hx]. exists y. split; [now apply range_In|].
    apply in_map_iff. exists x. split; [reflexivity|now apply range_In].
Qed.

(** The cells an execution writes are those of the grid. *)
Lemma execution_In (ctx : ProcessingContext) (n : Z) (sched : list (Z * Z)) :
  0 <= ascii_height ctx -> 1 <= n -> execution ctx n sched ->
  forall y x, In (y, x) sched <->
              0 <= y < ascii_height ctx /\ 0 <= x < ascii_width ctx.
Proof.
  intros Hh Hn Hex y x.
  apply interleaving_Permutation in Hex.
  assert (Hcells : forall bands,
    In (y, x) (concat (map (worker_steps ctx) bands)) <->
    In y (concat (map band_rows bands)) /\ 0 <= x < ascii_width ctx).
  { induction bands as [|a bands IH]; simpl; [tauto|].
    rewrite !in_app_iff, IH. unfold worker_steps, band_rows.
    rewrite worker_cells_In, range_In. tauto. }
  split.
  - intros Hin. apply (Permutation_in _ Hex), Hcells in Hin.
    rewrite row_bands_concat, range_In in Hin by assumption. exact Hin.
  - intros Hin. apply (Permutation_in _ (Permutation_sym Hex)), Hcells.
    rewrite row_bands_concat, range_In by assumption. exact Hin.
Qed.

Section Writes.

Variable ctx : ProcessingContext.
Variable config : EngineConfig.
Hypothesis width_pos : 0 < ascii_width ctx.

Lemma cell_index_mod (y x : Z) :
  0 <= x < ascii_width ctx -> (y * ascii_width ctx + x) mod ascii_width ctx = x.
Proof.
  intros Hx. rewrite Z.add_comm, Z.mod_add by lia. now apply Z.mod_small.
Qed.

Lemma cell_index_div (y x : Z) :
  0 <= x < ascii_width ctx -> (y * ascii_width ctx + x) / ascii_width ctx = y.
Proof.
  intros Hx. rewrite Z.add_comm, Z.div_add, Z.div_small by lia. lia.
Qed.

(** What a cell write leaves in the character buffer. *)
Lemma write_cell_char (b : Buffers) (y x a : Z) :
  0 <= x < ascii_width ctx ->
  char_buffer (write_cell ctx config b (y, x)) a
  = if a =? y * ascii_width ctx + x
    then selected_char ctx config (a mod ascii_width ctx) (a / ascii_width ctx)
    else char_buffer b a.
Proof.
  intros Hx. unfold write_cell. destruct (cell_color ctx x y) as [[r g] bl].
  cbn [char_buffer]. unfold store. destruct (a =? y * ascii_width ctx + x) eqn:E; [|reflexivity].
  apply Z.eqb_eq in E. subst a.
  now rewrite (cell_index_mod y x Hx), (cell_index_div y x Hx).
Qed.

(** What a cell write leaves in the colour buffer. *)
Lemma write_cell_color (b : Buffers) (y x j : Z) :
  0 <= x < ascii_width ctx ->
  color_buffer (write_cell ctx config b (y, x)) j
  = if j / 3 =? y * ascii_width ctx + x
    then channel (j mod 3)
           (cell_color ctx ((j / 3) mod ascii_width ctx) (j / 3 / ascii_width ctx))
    else color_buffer b j.
Proof.
  intros Hx. unfold write_cell.
  destruct (cell_color ctx x y) as [[r g] bl] eqn:Hc.
  cbn [color_buffer]. unfold store.
  pose proof (Z.div_mod j 3 ltac:(lia)) as Hdm.
  pose proof (Z.mod_pos_bound j 3 ltac:(lia)) as Hm.
  destruct (j / 3 =? y * ascii_width ctx + x) eqn:E.
  - apply Z.eqb_eq in E. rewrite E.
    rewrite (cell_index_mod y x Hx), (cell_index_div y x Hx), Hc. unfold channel.
    destruct (j =? (y * ascii_width ctx + x) * 3 + 2) eqn:E2;
      [apply Z.eqb_eq in E2|apply Z.eqb_neq in E2].
    { replace (j mod 3) with 2 by lia. reflexivity. }
    destruct (j =? (y * ascii_width ctx + x) * 3 + 1) eqn:E1;
      [apply Z.eqb_eq in E1|apply Z.eqb_neq in E1].
    { replace (j mod 3) with 1 by lia. reflexivity. }
    destruct (j =? (y * ascii_width ctx + x) * 3 + 0) eqn:E0;
      [apply Z.eqb_eq in E0|apply Z.eqb_neq in E0].
    { replace (j mod 3) with 0 by lia. reflexivity. }
    lia.
  - apply Z.eqb_neq in E.
    destruct (j =? (y * ascii_width ctx + x) * 3 + 2) eqn:E2;
      [apply Z.eqb_eq in E2; lia|].
    destruct (j =? (y * ascii_width ctx + x) * 3 + 1) eqn:E1;
      [apply Z.eqb_eq in E1; lia|].
    destruct (j =? (y * ascii_width ctx + x) * 3 + 0) eqn:E0;
      [apply Z.eqb_eq in E0; lia|reflexivity].
Qed.

(** A character cell holds the function's value once some step of the
    schedule has written it, whatever was written before or after. *)
Lemma run_schedule_char (sched : list (Z * Z)) (b : Buffers) (a : Z) :
  (forall c, In c sched -> 0 <= snd c < ascii_width ctx) ->
  char_buffer b a
    = selected_char ctx config (a mod ascii_width ctx) (a / ascii_width ctx)
  \/ (exists c, In c sched /\ fst c * ascii_width ctx + snd c = a) ->
  char_buffer (run_schedule ctx config sched b) a
  = selected_char ctx config (a mod ascii_width ctx) (a / ascii_width ctx).
Proof.
  revert b. induction sched as [|[y x] sched IH]; intros b Hx H.
  - destruct H as [H|[c [[] _]]]. exact H.
  - change (run_schedule ctx config ((y, x) :: sched) b)
      with (run_schedule ctx config sched (write_cell ctx config b (y, x))).
    apply IH; [intros c Hc; apply Hx; now right|].
    rewrite write_cell_char by (apply (Hx (y, x)); now left).
    destruct (a =? y * ascii_width ctx + x) eqn:E; [now left|].
    apply Z.eqb_neq in E.
    destruct H as [H|[c [[<-|Hc] Hidx]]]; [now left|simpl in Hidx; lia|].
    right. now exists c.
Qed.

Lemma run_schedule_color (sched : list (Z * Z)) (b : Buffers) (j : Z) :
  (forall c, In c sched -> 0 <= snd c < ascii_width ctx) ->
  color_buffer b j
    = channel (j mod 3)
        (cell_color ctx ((j / 3) mod ascii_width ctx) (j / 3 / ascii_width ctx))
  \/ (exists c, In c sched /\ fst c * ascii_width ctx + snd c = j / 3) ->
  color_buffer (run_schedule ctx config sched b) j
  = channel (j mod 3)
      (cell_color ctx ((j / 3) mod ascii_width ctx) (j / 3 / ascii_width ctx)).
Proof.
  revert b. induction sched as [|[y x] sched IH]; intros b Hx H.
  - destruct H as [H|[c [[] _]]]. exact H.
  - change (run_schedule ctx config ((y, x) :: sched) b)
      with (run_schedule ctx config sched (write_cell ctx config b (y, x))).
    apply IH; [intros c Hc; apply Hx; now right|].
    rewrite write_cell_color by (apply (Hx (y, x)); now left).
    destruct (j / 3 =? y * ascii_width ctx + x) eqn:E; [now left|].
    apply Z.eqb_neq in E.
    destruct H as [H|[c [[<-|Hc] Hidx]]]; [now left|simpl in Hidx; lia|].
    right. now exists c.
Qed.

(** After any execution every cell of the grid holds the function's
    value. *)
Lemma execution_result (n : Z) (sched : list (Z * Z)) (b : Buffers) :
  0 <= ascii_height ctx -> 1 <= n -> execution ctx n sched ->
  (forall idx, 0 <= idx < ascii_width ctx * ascii_height ctx ->
     char_buffer (run_schedule ctx config sched b) idx
     = selected_char ctx config (idx mod ascii_width ctx) (idx / ascii_width ctx)) /\
  (forall j, 0 <= j < 3 * (ascii_width ctx * ascii_height ctx) ->
     color_buffer (run_schedule ctx config sched b) j
     = channel (j mod 3)
         (cell_color ctx ((j / 3) mod ascii_width ctx) (j / 3 / ascii_width ctx))).
Proof.
  intros Hh Hn Hex.
  pose proof (execution_In ctx n sched Hh Hn Hex) as Hin.
  assert (Hx : forall c, In c sched -> 0 <= snd c < ascii_width ctx)
    by (intros [y x] Hc; apply Hin in Hc; simpl; lia).
  assert (Hcov : forall idx, 0 <= idx < ascii_width ctx * ascii_height ctx ->
            exists c, In c sched /\ fst c * ascii_width ctx + snd c = idx).
  { intros idx Hidx.
    pose proof (Z.div_mod idx (ascii_width ctx) ltac:(lia)) as Hdm.
    pose proof (Z.mod_pos_bound idx (ascii_width ctx) width_pos) as Hm.
    exists (idx / ascii_width ctx, idx mod ascii_width ctx).
    split; [|simpl; lia]. apply Hin. split; [|lia].
    split; [apply Z.div_pos; lia|apply Z.div_lt_upper_bound; lia]. }
  split.
  - intros idx Hidx. apply run_schedule_char; [exact Hx|right; now apply Hcov].
  - intros j Hj. apply run_schedule_color; [exact Hx|right]. apply Hcov.
    split; [apply Z.div_pos; lia|apply Z.div_lt_upper_bound; lia].
Qed.

End Writes.

(** C7: for every source frame and configuration, any two executions of
    the per-frame transform (any interleaving of the workers' cell writes,
    any worker counts, any previous contents of the arena memory) leave
    the same bytes in the character buffer and in the colour buffer: cell
    [idx] holds [selected_char] and [cell_color] of its column
    [idx mod ascii_width] and row [idx / ascii_width], which are functions
    of the source pixels, the configuration and the lookup tables. *)
Theorem frame_transform_deterministic (ctx : ProcessingContext)
    (config : EngineConfig) (n1 n2 : Z) (sched1 sched2 : list (Z * Z))
    (b1 b2 : Buffers) :
  0 < ascii_width ctx -> 0 <= ascii_height ctx ->
  1 <= n1 -> 1 <= n2 ->
  execution ctx n1 sched1 -> execution ctx n2 sched2 ->
  let r1 := run_schedule ctx config sched1 b1 in
  let r2 := run_schedule ctx config sched2 b2 in
  (forall idx, 0 <= idx < ascii_width ctx * ascii_height ctx ->
     char_buffer r1 idx = char_buffer r2 idx /\
     char_buffer r1 idx
     = selected_char ctx config (idx mod ascii_width ctx) (idx / ascii_width ctx)) /\
  (forall j, 0 <= j < 3 * (ascii_width ctx * ascii_height ctx) ->
     color_buffer r1 j = color_buffer r2 j /\
     color_buffer r1 j
     = channel (j mod 3)
         (cell_color ctx ((j / 3) mod ascii_width ctx) (j / 3 / ascii_width ctx))).
Proof.
  intros Hw Hh Hn1 Hn2 He1 He2 r1 r2.
  destruct (execution_result ctx config Hw n1 sched1 b1 Hh Hn1 He1) as [Hc1 Hk1].
  destruct (execution_result ctx config Hw n2 sched2 b2 Hh Hn2 He2) as [Hc2 Hk2].
  split.
  - intros idx Hidx. unfold r1, r2. rewrite Hc1, Hc2 by assumption. now split.
  - intros j Hj. unfold r1, r2. rewrite Hk1, Hk2 by assumption. now split.
Qed.

End Determinism.

Lemma frame_transform_deterministic_witness :
  let ctx := Examples.half_split_ctx Luts.powf_ref in
  let two_workers := concat (map (Frame.worker_steps ctx) (Frame.row_bands 4 2)) in
  let one_worker := concat (map (Frame.worker_steps ctx) (Frame.row_bands 4 1)) in
  char_buffer (Frame.run_schedule ctx Examples.default_config two_workers
                 Examples.blank_buffers) 6
  = char_buffer (Frame.run_schedule ctx Examples.default_config one_worker
                   {| char_buffer := fun _ => xff; color_buffer := fun _ => xff |}) 6.
Proof.
  intros ctx two_workers one_worker.
  refine (proj1 (proj1 (frame_transform_deterministic ctx Examples.default_config
                          2 1 two_workers one_worker _ _ _ _ _ _ _ _) 6 _));
    try exact (interleaving_concat _);
    cbn [ascii_width ascii_height Examples.half_split_ctx ctx]; lia.
Defined.

(** ** Output grids without cells *)

Section Geometry.

Import Frame.

Lemma worker_steps_empty (ctx : ProcessingContext) (a : ThreadArgs) :
  ascii_width ctx <= 0 \/ end_row a <= start_row a -> worker_steps ctx a = [].
Proof.
  intros [Hw|Hr]; unfold worker_steps, Tile.worker_cells.
  - rewrite (range_nil 0 (ascii_width ctx)) by lia.
    induction (range (start_row a) (end_row a)) as [|y l IH]; [reflexivity|exact IH].
  - now rewrite (range_nil (start_row a) (end_row a)).
Qed.

Lemma band_empty (h n i : Z) :
  h <= 0 -> 1 <= n -> 0 <= i < n ->
  end_row (band h n i) <= start_row (band h n i).
Proof.
  intros Hh Hn Hi. unfold band. simpl.
  pose proof (Z.quot_rem' h n) as Hqr.
  pose proof (Z.rem_bound_pos_neg h n ltac:(lia) Hh) as Hr.
  assert (Hq : Z.quot h n <= 0) by nia.
  destruct (i =? n - 1) eqn:E; [apply Z.eqb_eq in E; subst i|]; nia.
Qed.

(** C8 (amended): the engine has no geometry check.
    [engine_update_output_dims] stores whatever dimensions it is given,
    and [engine_process_frame_to_ascii] returns before the launch loop
    only when an arena allocation fails.  For a grid whose width or height
    is zero (and whenever the allocations succeed for a negative one) it
    divides the height by the worker count, which is at least 1, and
    launches every worker; each of them then visits no cell and leaves
    the buffers as they were. *)
Theorem nonpositive_geometry_not_rejected (ctx : ProcessingContext) :
  1 <= num_threads ctx ->
  ascii_width ctx <= 0 \/ ascii_height ctx <= 0 ->
  (forall w h,
     ascii_width (engine_update_output_dims ctx w h) = w /\
     ascii_height (engine_update_output_dims ctx w h) = h) /\
  match snd (engine_process_frame_to_ascii ctx) with
  | AllocFailed => True
  | Launched _ _ args =>
      args = row_bands (ascii_height ctx) (num_threads ctx) /\
      Z.of_nat (List.length args) = num_threads ctx /\
      forall a, In a args ->
        worker_steps ctx a = [] /\
        forall config b,
          Tile.process_slice_worker ctx config (start_row a) (end_row a) b = b
  end /\
  (ascii_width ctx = 0 \/ ascii_height ctx = 0 ->
   0 <= Arena.size (frame_arena ctx) ->
   snd (engine_process_frame_to_ascii ctx)
   = Launched 0 0 (row_bands (ascii_height ctx) (num_threads ctx))).
Proof.
  intros Hn Hgeo. split; [intros w h; split; reflexivity|]. split.
  - unfold engine_process_frame_to_ascii.
    destruct (Arena.arena_alloc _ _) as [chars a1].
    destruct (Arena.arena_alloc _ _) as [colors a2].
    destruct chars as [c|]; [|exact I]. destruct colors as [k|]; [|exact I].
    simpl. split; [reflexivity|]. split.
    + unfold row_bands. rewrite length_map, range_length. lia.
    + intros a Ha.
      assert (Hempty : worker_steps ctx a = []).
      { apply worker_steps_empty. destruct Hgeo as [Hw|Hh]; [now left|right].
        unfold row_bands in Ha. apply in_map_iff in Ha.
        destruct Ha as [i [<- Hi]]. apply range_In in Hi.
        apply band_empty; lia. }
      split; [exact Hempty|]. intros config b.
      unfold Tile.process_slice_worker. unfold worker_steps in Hempty.
      now rewrite Hempty.
  - intros Hzero Hcap. unfold engine_process_frame_to_ascii.
    assert (Hsz : char_buffer_size ctx = 0).
    { unfold char_buffer_size, Size.mul.
      destruct Hzero as [-> | ->]; [|rewrite Z.mul_comm]; reflexivity. }
    rewrite Hsz. unfold Arena.arena_alloc, Arena.arena_reset. simpl.
    change (Arena.align16 (Size.mul 0 1)) with 0.
    change (Arena.align16 (Size.mul (Size.mul 0 3) 1)) with 0.
    change (Size.add 0 0) with 0.
    destruct (0 >? Arena.size (frame_arena ctx)) eqn:E;
      [rewrite Z.gtb_ltb in E; apply Z.ltb_lt in E; lia|].
    simpl. change (Size.add 0 0) with 0. rewrite E. reflexivity.
Qed.

Lemma nonpositive_geometry_not_rejected_witness :
  snd (engine_process_frame_to_ascii Examples.zero_height_ctx)
  = Launched 0 0 (row_bands 0 2).
Proof.
  refine (proj2 (proj2 (nonpositive_geometry_not_rejected Examples.zero_height_ctx
                          _ _)) _ _).
  - cbn. lia.
  - right. cbn. lia.
  - now right.
  - cbn. lia.
Defined.

(** C8 as stated fails: with an output height of 0 the frame is not
    rejected; the rows are partitioned and both workers are launched on
    empty bands. *)
Lemma zero_height_frame_launches :
  ascii_height Examples.zero_height_ctx = 0 /\
  snd (engine_process_frame_to_ascii Examples.zero_height_ctx)
  = Launched 0 0 [ {| start_row := 0; end_row := 0 |};
                   {| start_row := 0; end_row := 0 |} ].
Proof. split; reflexivity. Qed.

End Geometry.

(** ** Binary32 rounding: what the proofs need of [binary_round_aux] *)

Section Rounding.

(** *** Digits *)

Lemma digits2_pos_bounds (m : positive) :
  2 ^ (Zpos (digits2_pos m) - 1) <= Zpos m < 2 ^ Zpos (digits2_pos m).
Proof.
  induction m as [m IH|m IH|]; simpl digits2_pos.
  - rewrite Pos2Z.inj_succ. change (Zpos m~1) with (2 * Zpos m + 1).
    replace (Z.succ (Zpos (digits2_pos m)) - 1) with (Z.succ (Zpos (digits2_pos m) - 1)) by lia.
    rewrite !Z.pow_succ_r by lia.
    remember (2 ^ (Zpos (digits2_pos m) - 1)) as a.
    remember (2 ^ Zpos (digits2_pos m)) as b. lia.
  - rewrite Pos2Z.inj_succ. change (Zpos m~0) with (2 * Zpos m).
    replace (Z.succ (Zpos (digits2_pos m)) - 1) with (Z.succ (Zpos (digits2_pos m) - 1)) by lia.
    rewrite !Z.pow_succ_r by lia.
    remember (2 ^ (Zpos (digits2_pos m) - 1)) as a.
    remember (2 ^ Zpos (digits2_pos m)) as b. lia.
  - simpl. lia.
Qed.

Lemma digits2_pos_le (m : positive) (k : Z) :
  Zpos m < 2 ^ k -> Zpos (digits2_pos m) <= k.
Proof.
  intros H. destruct (digits2_pos_bounds m) as [Hlo _].
  destruct (Z.le_gt_cases (Zpos (digits2_pos m)) k) as [|Hgt]; [assumption|].
  assert (0 <= k).
  { destruct (Z.le_gt_cases 0 k); [assumption|]. rewrite Z.pow_neg_r in H by lia. lia. }
  assert (2 ^ k <= 2 ^ (Zpos (digits2_pos m) - 1)) by (apply Z.pow_le_mono_r; lia).
  lia.
Qed.

Lemma Zdigits2_le (m k : Z) :
  0 <= m < 2 ^ k -> 0 <= k -> Zdigits2 m <= k.
Proof.
  intros [H0 H] Hk. destruct m as [|m|m]; simpl; [lia| |lia].
  now apply digits2_pos_le.
Qed.

(** *** Shifting right *)

Lemma shr_1_m (mrs : shr_record) :
  0 <= shr_m mrs -> shr_m (shr_1 mrs) = shr_m mrs / 2.
Proof.
  destruct mrs as [m r s]. simpl. intros Hm.
  destruct m as [|[p|p|]|p]; simpl; try reflexivity; try lia.
  - change (Zpos p~1) with (2 * Zpos p + 1). apply (Z.div_unique _ _ _ 1); lia.
  - change (Zpos p~0) with (2 * Zpos p). apply (Z.div_unique _ _ _ 0); lia.
Qed.

Lemma iter_pos_shr_m (p : positive) (mrs : shr_record) :
  0 <= shr_m mrs ->
  shr_m (iter_pos shr_1 p mrs) = shr_m mrs / 2 ^ Zpos p.
Proof.
  revert mrs. induction p as [p IH|p IH|]; intros mrs Hm; simpl iter_pos.
  - assert (H1 : 0 <= shr_m (shr_1 mrs)) by (rewrite shr_1_m by assumption; apply Z.div_pos; lia).
    assert (H2 : 0 <= shr_m (iter_pos shr_1 p (shr_1 mrs)))
      by (rewrite IH by assumption; apply Z.div_pos; [lia|apply Z.pow_pos_nonneg; lia]).
    rewrite IH, IH, shr_1_m by assumption.
    rewrite !Z.div_div by (try lia; apply Z.pow_pos_nonneg; lia).
    f_equal. change (Zpos p~1) with (2 * Zpos p + 1).
    replace (2 * Zpos p + 1) with (1 + Zpos p + Zpos p) by lia.
    rewrite !Z.pow_add_r by lia. lia.
  - assert (H2 : 0 <= shr_m (iter_pos shr_1 p mrs))
      by (rewrite IH by assumption; apply Z.div_pos; [lia|apply Z.pow_pos_nonneg; lia]).
    rewrite IH, IH by assumption.
    rewrite !Z.div_div by (try lia; apply Z.pow_pos_nonneg; lia).
    f_equal. change (Zpos p~0) with (2 * Zpos p).
    replace (2 * Zpos p) with (Zpos p + Zpos p) by lia.
    rewrite !Z.pow_add_r by lia. lia.
  - now apply shr_1_m.
Qed.

Lemma shr_record_of_loc_m (m : Z) (l : location) : shr_m (shr_record_of_loc m l) = m.
Proof. destruct l as [|[| |]]; reflexivity. Qed.

(** The first component of [shr_fexp]: the mantissa divided by the power
    of two that brings the exponent up to [fexp]. *)
Lemma shr_fexp_spec (m e : Z) (l : location) :
  0 <= m ->
  let e' := Z.max e (fexp prec emax (Zdigits2 m + e)) in
  snd (shr_fexp prec emax m e l) = e' /\
  shr_m (fst (shr_fexp prec emax m e l)) = m / 2 ^ (e' - e) /\
  (e' = e -> fst (shr_fexp prec emax m e l) = shr_record_of_loc m l).
Proof.
  intros Hm e'. unfold shr_fexp, shr.
  destruct (fexp prec emax (Zdigits2 m + e) - e) as [|p|p] eqn:E; simpl.
  - replace e' with e by lia. rewrite Z.sub_diag, Z.div_1_r, shr_record_of_loc_m. auto.
  - replace e' with (e + Zpos p) by lia.
    rewrite iter_pos_shr_m, shr_record_of_loc_m by (now rewrite shr_record_of_loc_m).
    replace (e + Zpos p - e) with (Zpos p) by lia.
    repeat split. lia.
  - replace e' with e by lia. rewrite Z.sub_diag, Z.div_1_r, shr_record_of_loc_m. auto.
Qed.

Lemma round_nearest_even_range (m : Z) (l : location) :
  m <= round_nearest_even m l <= m + 1.
Proof.
  destruct l as [|[| |]]; simpl; try lia. destruct (Z.even m); lia.
Qed.

(** The result of rounding an exact product or sum [M * 2^e]. *)
Lemma binary_round_aux_exact (s : bool) (M : positive) (e : Z) :
  exists e1 e3 m2 m3 : Z,
    e1 = Z.max e (fexp prec emax (Zpos (digits2_pos M) + e)) /\
    Zpos M / 2 ^ (e1 - e) <= m2 <= Zpos M / 2 ^ (e1 - e) + 1 /\
    (e1 = e -> m2 = Zpos M) /\
    e3 = Z.max e1 (fexp prec emax (Zdigits2 m2 + e1)) /\
    m3 = m2 / 2 ^ (e3 - e1) /\
    binary_round_aux prec emax s (Zpos M) e loc_Exact
    = match m3 with
      | Z0 => S754_zero s
      | Zpos m => if e3 <=? emax - prec then S754_finite s m e3 else S754_infinity s
      | Zneg _ => S754_nan
      end.
Proof.
  unfold binary_round_aux.
  destruct (shr_fexp_spec (Zpos M) e loc_Exact ltac:(lia)) as (He1 & Hm1 & Hex).
  destruct (shr_fexp prec emax (Zpos M) e loc_Exact) as [mrs' e1] eqn:E1.
  cbn [fst snd Zdigits2] in He1, Hm1, Hex.
  set (m2 := round_nearest_even (shr_m mrs') (loc_of_shr_record mrs')).
  assert (Hm2 : shr_m mrs' <= m2 <= shr_m mrs' + 1) by apply round_nearest_even_range.
  assert (H0 : 0 <= shr_m mrs')
    by (rewrite Hm1; apply Z.div_pos; [lia|apply Z.pow_pos_nonneg; lia]).
  destruct (shr_fexp_spec m2 e1 loc_Exact ltac:(lia)) as (He3 & Hm3 & _).
  destruct (shr_fexp prec emax m2 e1 loc_Exact) as [mrs'' e3] eqn:E3.
  cbn [fst snd] in He3, Hm3.
  exists e1, e3, m2, (shr_m mrs'').
  split; [exact He1|]. split; [rewrite He1, <- Hm1; exact Hm2|].
  split.
  { intros Heq. unfold m2. rewrite Hex by (rewrite <- He1; exact Heq). reflexivity. }
  split; [exact He3|]. split; [rewrite He3; exact Hm3|reflexivity].
Qed.

(** *** Magnitude bounds: no overflow, no NaN *)

Lemma fexp_eq (x : Z) : fexp prec emax x = Z.max (x - 24) (-149).
Proof. reflexivity. Qed.

Lemma bounded_by_mono (k k' : Z) (x : f32) :
  k <= k' -> bounded_by k x -> bounded_by k' x.
Proof. destruct x; simpl; unfold prec; intros; lia || assumption. Qed.

Lemma bounded_by_finite (k : Z) (x : f32) : bounded_by k x -> is_finite x = true.
Proof. destruct x; simpl; intros H; (reflexivity || contradiction). Qed.

Lemma binary_round_aux_bounded (s : bool) (M : positive) (e k : Z) :
  Zpos (digits2_pos M) + e <= k -> e <= k - prec -> -125 <= k <= 127 ->
  bounded_by (k + 1) (binary_round_aux prec emax s (Zpos M) e loc_Exact).
Proof.
  unfold prec at 1. intros Hd He Hk.
  destruct (binary_round_aux_exact s M e)
    as (e1 & e3 & m2 & m3 & He1 & Hm2 & _ & He3 & Hm3 & ->).
  rewrite fexp_eq in He1, He3.
  assert (He1' : e <= e1 <= k - 24) by lia.
  assert (Hp1 : 0 < 2 ^ (e1 - e)) by (apply Z.pow_pos_nonneg; lia).
  assert (HM : Zpos M < 2 ^ (k - e)).
  { destruct (digits2_pos_bounds M) as [_ HM].
    assert (2 ^ Zpos (digits2_pos M) <= 2 ^ (k - e)) by (apply Z.pow_le_mono_r; lia).
    lia. }
  assert (Hq : 0 <= Zpos M / 2 ^ (e1 - e) < 2 ^ (k - e1)).
  { split; [apply Z.div_pos; lia|]. apply Z.div_lt_upper_bound; [exact Hp1|].
    rewrite <- Z.pow_add_r by lia. replace (e1 - e + (k - e1)) with (k - e) by lia.
    exact HM. }
  assert (Hm2' : 0 <= m2 <= 2 ^ (k - e1)) by lia.
  assert (Hd2 : Zdigits2 m2 <= k - e1 + 1).
  { apply Zdigits2_le; [|lia]. rewrite Z.pow_add_r by lia.
    change (2 ^ 1) with 2. lia. }
  assert (He3' : e1 <= e3 <= k - 23) by lia.
  assert (Hp3 : 0 < 2 ^ (e3 - e1)) by (apply Z.pow_pos_nonneg; lia).
  assert (Hm3' : 0 <= m3 <= 2 ^ (k - e3)).
  { rewrite Hm3. split; [apply Z.div_pos; lia|].
    replace (k - e3) with ((k - e1) - (e3 - e1)) by lia.
    rewrite (Z.pow_sub_r 2 (k - e1) (e3 - e1)) by lia. apply Z.div_le_mono; lia. }
  destruct m3 as [|m|m]; [exact I| |lia].
  replace (e3 <=? emax - prec) with true
    by (symmetry; apply Z.leb_le; unfold emax, prec; lia).
  unfold bounded_by, prec. split; [|lia].
  assert (Zpos (digits2_pos m) <= k - e3 + 1); [|lia].
  apply digits2_pos_le. rewrite Z.pow_add_r by lia. change (2 ^ 1) with 2. lia.
Qed.

Lemma mul_bounded (x y : f32) (kx ky : Z) :
  bounded_by kx x -> bounded_by ky y -> -125 <= kx + ky <= 127 ->
  bounded_by (kx + ky + 1) (mul x y).
Proof.
  intros Hx Hy Hk.
  destruct x as [sx|sx| |sx mx ex], y as [sy|sy| |sy my ey];
    try contradiction; try exact I.
  destruct Hx as [Hdx Hex], Hy as [Hdy Hey]. unfold prec in Hex, Hey.
  unfold mul, SFmul.
  assert (Hd : Zpos (digits2_pos (mx * my))
               <= Zpos (digits2_pos mx) + Zpos (digits2_pos my)).
  { apply digits2_pos_le. rewrite Pos2Z.inj_mul, Z.pow_add_r by lia.
    destruct (digits2_pos_bounds mx) as [_ Hx], (digits2_pos_bounds my) as [_ Hy].
    nia. }
  apply binary_round_aux_bounded; unfold prec; lia.
Qed.

Lemma pos_iter_xO (m p : positive) : Zpos (Pos.iter xO m p) = Zpos m * 2 ^ Zpos p.
Proof.
  induction p as [|p IH] using Pos.peano_ind.
  - simpl. lia.
  - rewrite Pos.iter_succ, Pos2Z.inj_succ, Z.pow_succ_r by lia.
    change (Zpos (Pos.iter xO m p)~0) with (2 * Zpos (Pos.iter xO m p)).
    rewrite IH. lia.
Qed.

(** The mantissa [shl_align] returns denotes the same number at the lower
    exponent. *)
Lemma shl_align_m (m : positive) (e e' : Z) :
  e' <= e -> Zpos (fst (shl_align m e e')) = Zpos m * 2 ^ (e - e').
Proof.
  intros H. unfold shl_align.
  destruct (e' - e) as [|p|p] eqn:E; simpl.
  - replace (e - e') with 0 by lia. rewrite Z.pow_0_r. lia.
  - lia.
  - rewrite pos_iter_xO. replace (e - e') with (Zpos p) by lia. reflexivity.
Qed.

Lemma binary_round_bounded (s : bool) (m : positive) (e k : Z) :
  Zpos (digits2_pos m) + e <= k -> -125 <= k <= 127 ->
  bounded_by (k + 1) (binary_round prec emax s m e).
Proof.
  intros Hd Hk. unfold binary_round, shl_align.
  rewrite fexp_eq.
  destruct (Z.max (Zpos (digits2_pos m) + e - 24) (-149) - e) as [|p|p] eqn:E.
  - apply binary_round_aux_bounded; unfold prec; lia.
  - apply binary_round_aux_bounded; unfold prec; lia.
  - apply binary_round_aux_bounded; unfold prec; try lia.
    assert (Zpos (digits2_pos (Pos.iter xO m p)) <= Zpos (digits2_pos m) + Zpos p); [|lia].
    apply digits2_pos_le. rewrite pos_iter_xO, Z.pow_add_r by lia.
    destruct (digits2_pos_bounds m) as [_ Hm].
    assert (0 < 2 ^ Zpos p) by (apply Z.pow_pos_nonneg; lia). nia.
Qed.

Lemma binary_normalize_bounded (z e k : Z) :
  Z.abs z < 2 ^ (k - e) -> e <= k -> -125 <= k <= 127 ->
  bounded_by (k + 1) (binary_normalize prec emax z e false).
Proof.
  intros Hz He Hk. destruct z as [|m|m]; simpl; [exact I| |];
    apply binary_round_bounded; try lia;
    (assert (Zpos (digits2_pos m) <= k - e); [apply digits2_pos_le; lia|lia]).
Qed.

Lemma of_int_bounded (z k : Z) :
  Z.abs z < 2 ^ k -> 0 <= k <= 127 -> bounded_by (k + 1) (of_int z).
Proof.
  intros Hz Hk. apply binary_normalize_bounded; try lia.
  now rewrite Z.sub_0_r.
Qed.

Lemma add_bounded (x y : f32) (k : Z) :
  bounded_by k x -> bounded_by k y -> -125 <= k <= 126 ->
  bounded_by (k + 2) (add x y).
Proof.
  intros Hx Hy Hk.
  destruct x as [sx|sx| |sx mx ex], y as [sy|sy| |sy my ey];
    try contradiction.
  - destruct sx, sy; exact I.
  - exact (bounded_by_mono k (k + 2) _ ltac:(lia) Hy).
  - exact (bounded_by_mono k (k + 2) _ ltac:(lia) Hx).
  - destruct Hx as [Hdx Hex], Hy as [Hdy Hey]. unfold prec in Hex, Hey.
    unfold add, SFadd. set (ez := Z.min ex ey).
    pose proof (shl_align_m mx ex ez ltac:(lia)) as Hmx.
    pose proof (shl_align_m my ey ez ltac:(lia)) as Hmy.
    destruct (digits2_pos_bounds mx) as [_ Hbx], (digits2_pos_bounds my) as [_ Hby].
    assert (Hx' : Zpos (fst (shl_align mx ex ez)) < 2 ^ (k - ez)).
    { rewrite Hmx.
      apply Z.lt_le_trans with (2 ^ Zpos (digits2_pos mx) * 2 ^ (ex - ez)).
      - apply Z.mul_lt_mono_pos_r; [apply Z.pow_pos_nonneg; lia|exact Hbx].
      - rewrite <- Z.pow_add_r by lia. apply Z.pow_le_mono_r; lia. }
    assert (Hy' : Zpos (fst (shl_align my ey ez)) < 2 ^ (k - ez)).
    { rewrite Hmy.
      apply Z.lt_le_trans with (2 ^ Zpos (digits2_pos my) * 2 ^ (ey - ez)).
      - apply Z.mul_lt_mono_pos_r; [apply Z.pow_pos_nonneg; lia|exact Hby].
      - rewrite <- Z.pow_add_r by lia. apply Z.pow_le_mono_r; lia. }
    replace (k + 2) with (k + 1 + 1) by lia.
    apply binary_normalize_bounded; try lia.
    replace (k + 1 - ez) with (k - ez + 1) by lia.
    rewrite Z.pow_add_r by lia. change (2 ^ 1) with 2.
    remember (Zpos (fst (shl_align mx ex ez))) as a.
    remember (Zpos (fst (shl_align my ey ez))) as b.
    remember (2 ^ (k - ez)) as c.
    assert (0 < a) by (subst a; lia). assert (0 < b) by (subst b; lia).
    unfold cond_Zopp. destruct sx, sy; lia.
Qed.

(** A fused multiply-add of bounded operands is bounded: the exact
    product has the magnitude of the rounded one. *)
Lemma fma_bounded (x y z : f32) (kx ky k : Z) :
  bounded_by kx x -> bounded_by ky y -> bounded_by k z ->
  kx + ky + 1 <= k -> -125 <= kx + ky -> k <= 126 ->
  bounded_by (k + 2) (fma x y z).
Proof.
  intros Hx Hy Hz Hk Hlo Hhi.
  assert (Hm : bounded_by k (mul x y)).
  { apply (bounded_by_mono (kx + ky + 1)); [lia|].
    apply mul_bounded; try assumption; lia. }
  destruct x as [sx|sx| |sx mx ex], y as [sy|sy| |sy my ey];
    try contradiction;
    try (unfold fma; apply add_bounded; [exact Hm|exact Hz|lia]).
  unfold fma. destruct z as [sz|sz| |sz mz ez]; try contradiction.
  - apply (bounded_by_mono k); [lia|exact Hm].
  - apply add_bounded; [|exact Hz|lia].
    destruct Hx as [Hdx Hex], Hy as [Hdy Hey]. unfold prec in Hex, Hey.
    assert (Hd : Zpos (digits2_pos (mx * my))
                 <= Zpos (digits2_pos mx) + Zpos (digits2_pos my)).
    { apply digits2_pos_le. rewrite Pos2Z.inj_mul, Z.pow_add_r by lia.
      destruct (digits2_pos_bounds mx) as [_ Hx], (digits2_pos_bounds my) as [_ Hy].
      nia. }
    unfold bounded_by, prec. lia.
Qed.

End Rounding.

Section Classification.

Import Tile.

Lemma luma_bounded (r g b : byte) : bounded_by 14 (luma r g b).
Proof.
  assert (Hc : forall c : byte, bounded_by 9 (of_int (u8 c))).
  { intros c. apply (of_int_bounded (u8 c) 8); [|lia].
    pose proof (u8_range c). change (2 ^ 8) with 256. lia. }
  assert (H1 : bounded_by 0 (lit 299 1000)) by (vm_compute; split; discriminate).
  assert (H2 : bounded_by 0 (lit 587 1000)) by (vm_compute; split; discriminate).
  assert (H3 : bounded_by 0 (lit 114 1000)) by (vm_compute; split; discriminate).
  unfold luma.
  apply (fma_bounded _ _ _ 0 9 12 H3 (Hc b)); [|lia|lia|lia].
  apply (fma_bounded _ _ _ 0 9 10 H1 (Hc r)); [|lia|lia|lia].
  exact (mul_bounded _ _ 0 9 H2 (Hc g) ltac:(lia)).
Qed.

Lemma sobel_coefficient_range (ky kx : Z) :
  Z.abs (sobel_x ky kx) < 2 ^ 2 /\ Z.abs (sobel_y ky kx) < 2 ^ 2.
Proof.
  unfold sobel_x, sobel_y.
  destruct (Z.to_nat (ky + 1)) as [|[|[|n]]], (Z.to_nat (kx + 1)) as [|[|[|n']]];
    simpl; try destruct n; try destruct n'; split; reflexivity.
Qed.

(** One step of the window loop adds a term of magnitude below [2^18]. *)
Lemma sobel_step_bounded (ctx : ProcessingContext) (srcx srcy : Z)
    (acc : gradient) (k : Z * Z) (b : Z) :
  18 <= b <= 126 ->
  bounded_by b (gx acc) -> bounded_by b (gy acc) ->
  bounded_by (b + 2) (gx (sobel_step ctx srcx srcy acc k)) /\
  bounded_by (b + 2) (gy (sobel_step ctx srcx srcy acc k)).
Proof.
  intros Hb Hgx Hgy. unfold sobel_step.
  destruct (sample_coord ctx srcx srcy k) as [sx sy].
  assert (Hl : bounded_by 14 (luma_at ctx sx sy)).
  { unfold luma_at. destruct (pixel ctx sx sy) as [[r g] bl]. apply luma_bounded. }
  destruct (sobel_coefficient_range (fst k) (snd k)) as [Hx Hy].
  cbn [gx gy]. split.
  - apply add_bounded; [exact Hgx| |lia].
    apply (bounded_by_mono 18); [lia|].
    exact (mul_bounded _ _ 14 3 Hl (of_int_bounded _ 2 Hx ltac:(lia)) ltac:(lia)).
  - apply add_bounded; [exact Hgy| |lia].
    apply (bounded_by_mono 18); [lia|].
    exact (mul_bounded _ _ 14 3 Hl (of_int_bounded _ 2 Hy ltac:(lia)) ltac:(lia)).
Qed.






(** *** A vertical boundary

    When the window holds identical rows, [gy] is zero and the cascade
    can only answer [Flat] or [Horz]. *)

Lemma mul_abs_nonneg (x d : f32) :
  d = D_THRESH -> ltb (mul (fabsf x) d) (S754_zero false) = false.
Proof.
  intros ->. unfold D_THRESH.
  change (lit 241421356 100000000) with (S754_finite false 10125946 (-22)).
  destruct x as [s|s| |s m e]; try reflexivity.
  unfold mul, fabsf, SFabs, SFmul. cbn [xorb].
  destruct (binary_round_aux_exact false (m * 10125946) (e + -22))
    as (e1 & e3 & m2 & m3 & _ & _ & _ & _ & _ & ->).
  destruct m3 as [|p|p]; try reflexivity.
  destruct (e3 <=? emax - prec); reflexivity.
Qed.

(** With [gy = 0] the vertical ramp is never selected, and an edge cell
    with a non-zero finite [gx] takes the horizontal ramp. *)
Lemma zero_gy_selects_horizontal (config : EngineConfig) (g : gradient) :
  fabsf (gy g) = S754_zero false ->
  select_ramp config g <> Vert /\
  (forall s m e, gx g = S754_finite s m e ->
     ltb (mag_sq g) (edge_strength_sq config) = false ->
     select_ramp config g = Horz).
Proof.
  intros Hgy. unfold select_ramp. rewrite Hgy.
  rewrite (mul_abs_nonneg (gx g) D_THRESH eq_refl). split.
  - destruct (ltb (mag_sq g) (edge_strength_sq config)); [discriminate|].
    destruct (ltb _ (fabsf (gx g))); [discriminate|].
    destruct (ltb (of_int 0) _); discriminate.
  - intros s m e Hgx Hedge. rewrite Hedge, Hgx. reflexivity.
Qed.

(** C1, evaluated: on the 4x4 frame whose left half is black and right
    half white, with a 4x4 grid and the default threshold 0.4, the two
    columns of cells next to the boundary are edge cells with [gy = 0]
    and [gx = -1020]; in every row they take their glyph from the
    horizontal ramp (['-'] and ['=']), not from the vertical one. *)
Theorem half_split_boundary_is_horizontal :
  let ctx := Examples.half_split_ctx Luts.powf_ref in
  let config := Examples.default_config in
  map (fun y => map (fun x => cell_ramp ctx config x y) [0; 1; 2; 3]) [0; 1; 2; 3]
  = [ [Flat; Horz; Horz; Flat]; [Flat; Horz; Horz; Flat];
      [Flat; Horz; Horz; Flat]; [Flat; Horz; Horz; Flat] ] /\
  gy (cell_gradient ctx 1 1) = S754_zero false /\
  gx (cell_gradient ctx 1 1) = SFopp (of_int 1020) /\
  map (fun x => selected_char ctx config x 1) [1; 2] = [x2d; x3d] /\
  byte_at (Luts.char_lut_vert (luts ctx)) 0 = x7c.
Proof. vm_compute. repeat split. Qed.

End Classification.

(** ** The gamma table *)

Section Gamma.

Import Luts.

Lemma u8_byte_of (z : Z) : 0 <= z <= 255 -> u8 (byte_of z) = z.
Proof.
  intros Hz. unfold u8, byte_of. rewrite Z.mod_small by lia.
  destruct (Byte.of_N (Z.to_N z)) as [b|] eqn:E.
  - apply Byte.to_of_N in E. lia.
  - apply Byte.of_N_None_iff in E. lia.
Qed.

Lemma table_at (entry : Z -> byte) (i : Z) :
  0 <= i <= 255 -> byte_at (table entry) i = entry i.
Proof.
  intros Hi. unfold byte_at, table.
  destruct (i <? 0) eqn:E; [apply Z.ltb_lt in E; lia|].
  rewrite (nth_indep _ x00 (entry 0)) by (rewrite length_map, range_length; lia).
  rewrite (map_nth entry), range_nth by lia. f_equal. lia.
Qed.

Lemma gamma_floor_checked (i : Z) :
  0 <= i <= 255 -> gamma_floor_ok i = true.
Proof.
  intros Hi.
  assert (H : forallb gamma_floor_ok (range 0 256) = true) by (vm_compute; reflexivity).
  rewrite forallb_forall in H. apply H, range_In. lia.
Qed.

Lemma gamma_margin_checked (i : Z) :
  1 <= i <= 254 -> gamma_margin_ok i = true.
Proof.
  intros Hi.
  assert (H : forallb gamma_margin_ok (range 1 255) = true) by (vm_compute; reflexivity).
  rewrite forallb_forall in H. apply H, range_In. lia.
Qed.

Lemma gamma_floor_correct (i : Z) :
  0 <= i <= 255 -> is_gamma_floor i (gamma_floor i) /\ gamma_floor i <= 255.
Proof.
  intros Hi. pose proof (gamma_floor_checked i Hi) as H.
  unfold gamma_floor_ok in H. cbv zeta in H.
  apply andb_prop in H. destruct H as [H H4].
  apply andb_prop in H. destruct H as [H H3].
  apply andb_prop in H. destruct H as [H1 H2].
  apply Z.leb_le in H1, H2, H3. apply Z.ltb_lt in H4.
  unfold is_gamma_floor. auto.
Qed.

Lemma is_gamma_floor_unique (i n n' : Z) :
  is_gamma_floor i n -> is_gamma_floor i n' -> n = n'.
Proof.
  intros (H0 & Hlo & Hhi) (H0' & Hlo' & Hhi').
  destruct (Z.lt_trichotomy n n') as [Hlt|[Heq|Hgt]]; [|exact Heq|].
  - assert ((n + 1) ^ 11 <= n' ^ 11) by (apply Z.pow_le_mono_l; lia). lia.
  - assert ((n' + 1) ^ 11 <= n ^ 11) by (apply Z.pow_le_mono_l; lia). lia.
Qed.

Lemma powf_ref_accurate : powf_accurate powf_ref.
Proof.
  intros i Hi.
  assert (H : forallb (powf_ok_at powf_ref) (range 0 256) = true)
    by (vm_cast_no_check (eq_refl true)).
  rewrite forallb_forall in H. apply H, range_In. lia.
Qed.

(** From the error bound on [powf] and the distance of the exact gamma
    value from the integers: [255 * r] lies well inside [(n, n + 1)]. *)
Lemma pow11_scale (y : Z) : (130560 * y) ^ 11 = 255 ^ 5 * (255 ^ 6 * 512 ^ 11) * y ^ 11.
Proof.
  rewrite Z.pow_mul_l.
  replace (130560 ^ 11) with (255 ^ 5 * (255 ^ 6 * 512 ^ 11)) by (vm_compute; reflexivity).
  reflexivity.
Qed.

Lemma powf_close_bounds (i : Z) (m : positive) (e : Z) :
  1 <= i <= 254 ->
  powf_close i (S754_finite false m e) = true ->
  -149 <= e <= 0 /\
  gamma_floor i * 2 ^ 172 + 2 ^ 162 <= 255 * scaled m e
    <= (gamma_floor i + 1) * 2 ^ 172 - 2 ^ 162.
Proof.
  intros Hi H. unfold powf_close in H.
  apply andb_prop in H. destruct H as [H H5].
  apply andb_prop in H. destruct H as [H H4].
  apply andb_prop in H. destruct H as [H H3].
  apply andb_prop in H. destruct H as [H1 H2].
  apply Z.leb_le in H1, H2, H3, H4, H5.
  split; [lia|].
  pose proof (gamma_margin_checked i Hi) as Hm. unfold gamma_margin_ok in Hm.
  cbv zeta in Hm.
  apply andb_prop in Hm. destruct Hm as [Hm Hm3].
  apply andb_prop in Hm. destruct Hm as [Hm1 Hm2].
  apply Z.leb_le in Hm1, Hm2, Hm3.
  destruct (gamma_floor_correct i ltac:(lia)) as [(Hn0 & _) _].
  set (n := gamma_floor i) in *. set (Rs := scaled m e) in *.
  assert (HS : 2 ^ (172 * 11) = (2 ^ 172) ^ 11) by (apply Z.pow_mul_r; lia).
  rewrite HS in H3, H4. clear HS.
  assert (HT : 0 <= i ^ 5) by (apply Z.pow_nonneg; lia).
  remember (2 ^ 172) as S eqn:ES. remember (2 ^ 152) as D eqn:ED.
  assert (HSpos : 0 < S) by (subst S; apply Z.pow_pos_nonneg; lia).
  assert (HS11 : 0 < S ^ 11) by (apply Z.pow_pos_nonneg; lia).
  remember (S ^ 11) as S11 eqn:ES11.
  remember (255 ^ 5) as P eqn:EP. remember (255 ^ 6 * 512 ^ 11) as Q eqn:EQ.
  assert (HPpos : 0 < P) by (subst P; vm_compute; reflexivity).
  assert (HQpos : 0 < Q) by (subst Q; vm_compute; reflexivity).
  remember (i ^ 5) as T eqn:ET.
  assert (HDpos : 0 < D) by (subst D; apply Z.pow_pos_nonneg; lia).
  (* lower bound *)
  assert (Hlo : (512 * n + 1) * S <= 130560 * (Rs + D)).
  { destruct (Z.le_gt_cases ((512 * n + 1) * S) (130560 * (Rs + D)))
      as [|Hc]; [assumption|exfalso].
    assert (Hpow : (130560 * (Rs + D)) ^ 11 < ((512 * n + 1) * S) ^ 11).
    { apply Z.pow_lt_mono_l; [lia|]. split; [|exact Hc]. clear - H5 HDpos. lia. }
    rewrite pow11_scale, <- EP, <- EQ, (Z.pow_mul_l (512 * n + 1)), <- ES11 in Hpow.
    remember ((Rs + D) ^ 11) as A. remember ((512 * n + 1) ^ 11) as W.
    assert (H6 : W * S11 <= T * Q * S11)
      by (apply Z.mul_le_mono_nonneg_r; [clear - HS11; lia|exact Hm2]).
    assert (H7 : T * S11 * Q <= A * P * Q)
      by (apply Z.mul_le_mono_nonneg_r; [clear - HQpos; lia|exact H4]).
    clear - Hpow H6 H7. lia. }
  (* upper bound *)
  assert (Hhi : 130560 * (Rs - D) <= (512 * n + 511) * S).
  { destruct (Z.le_gt_cases (130560 * (Rs - D)) ((512 * n + 511) * S))
      as [|Hc]; [assumption|exfalso].
    assert (Hpow : ((512 * n + 511) * S) ^ 11 < (130560 * (Rs - D)) ^ 11).
    { apply Z.pow_lt_mono_l; [lia|]. split; [|exact Hc].
      apply Z.mul_nonneg_nonneg; clear - Hn0 HSpos; lia. }
    rewrite pow11_scale, <- EP, <- EQ, (Z.pow_mul_l (512 * n + 511)), <- ES11 in Hpow.
    remember ((Rs - D) ^ 11) as A. remember ((512 * n + 511) ^ 11) as W.
    assert (H6 : T * Q * S11 <= W * S11)
      by (apply Z.mul_le_mono_nonneg_r; [clear - HS11; lia|exact Hm3]).
    assert (H7 : A * P * Q <= T * S11 * Q)
      by (apply Z.mul_le_mono_nonneg_r; [clear - HQpos; lia|exact H3]).
    clear - Hpow H6 H7. lia. }
  clear - Hlo Hhi ES ED. subst S D. lia.
Qed.

(** The product [r * 255.0f], rounded to binary32 and truncated, when
    the exact product lies inside [(n, n + 1)] with room to spare. *)
Lemma mul_f255_floor (m : positive) (e n : Z) :
  -149 <= e <= 0 -> 0 <= n <= 254 ->
  n * 2 ^ 172 + 2 ^ 162 <= 255 * scaled m e <= (n + 1) * 2 ^ 172 - 2 ^ 162 ->
  to_int (mul (S754_finite false m e) f255) = n.
Proof.
  intros He Hn Hr.
  change f255 with (S754_finite false 16711680 (-16)).
  unfold mul, SFmul. cbn [xorb].
  destruct (binary_round_aux_exact false (m * 16711680) (e + -16))
    as (e1 & e3 & m2 & m3 & He1 & Hm2 & _ & He3 & Hm3 & ->).
  rewrite fexp_eq in He1, He3.
  set (E := e + -16) in *. set (M := Zpos (m * 16711680)) in *.
  set (U := 2 ^ (E + 172)).
  assert (HU : 0 < U) by (apply Z.pow_pos_nonneg; lia).
  (* the exact product, in units of 2^-172 *)
  assert (HMU : M * U = 255 * scaled m e).
  { unfold M, U, scaled, E. rewrite Pos2Z.inj_mul.
    replace (e + 172) with (16 + (e + -16 + 172)) by lia.
    rewrite (Z.pow_add_r 2 16) by lia. change (2 ^ 16) with 65536. lia. }
  rewrite <- HMU in Hr.
  (* its magnitude *)
  assert (HM : M < 2 ^ (8 - E)).
  { destruct (Z.lt_ge_cases M (2 ^ (8 - E))) as [|Hge]; [assumption|exfalso].
    assert (2 ^ (8 - E) * U <= M * U) by (apply Z.mul_le_mono_nonneg_r; lia).
    assert (HX : 2 ^ (8 - E) * U = 2 ^ 180).
    { unfold U. rewrite <- Z.pow_add_r by lia. f_equal. lia. }
    rewrite HX in *. clear - H Hr Hn. lia. }
  assert (HdM : Zpos (digits2_pos (m * 16711680)) <= 8 - E).
  { apply digits2_pos_le. exact HM. }
  assert (He1' : E <= e1 <= -16) by lia.
  set (pa := 2 ^ (e1 - E)) in *.
  assert (Hpa : 0 < pa) by (apply Z.pow_pos_nonneg; lia).
  assert (Hq1 : M / pa * pa <= M < (M / pa + 1) * pa).
  { pose proof (Z.div_mod M pa ltac:(lia)). pose proof (Z.mod_pos_bound M pa Hpa). lia. }
  assert (Hq1' : 0 <= M / pa < 2 ^ (8 - e1)).
  { split; [apply Z.div_pos; unfold M; lia|]. apply Z.div_lt_upper_bound; [exact Hpa|].
    unfold pa. rewrite <- Z.pow_add_r by lia.
    replace (e1 - E + (8 - e1)) with (8 - E) by lia. exact HM. }
  assert (Hd2 : Zdigits2 m2 <= 9 - e1).
  { apply Zdigits2_le; [|lia]. replace (9 - e1) with (8 - e1 + 1) by lia.
    rewrite Z.pow_add_r by lia. change (2 ^ 1) with 2. lia. }
  assert (He3' : e1 <= e3 <= -15) by lia.
  set (pc := 2 ^ (e3 - e1)) in *.
  assert (Hpc : 0 < pc) by (apply Z.pow_pos_nonneg; lia).
  assert (Hq3 : m3 * pc <= m2 < (m3 + 1) * pc).
  { rewrite Hm3. pose proof (Z.div_mod m2 pc ltac:(lia)).
    pose proof (Z.mod_pos_bound m2 pc Hpc). lia. }
  assert (Hm3pos : 0 <= m3) by (rewrite Hm3; apply Z.div_pos; lia).
  (* the rounded product, in the same units *)
  set (X := pc * pa * U).
  assert (HX : 0 < X) by (unfold X; apply Z.mul_pos_pos; [apply Z.mul_pos_pos|]; assumption).
  assert (HXle : X <= 2 ^ 157).
  { unfold X, pc, pa, U. rewrite <- !Z.pow_add_r by lia.
    apply Z.pow_le_mono_r; lia. }
  assert (HpaU : pa * U <= 2 ^ 156).
  { unfold pa, U. rewrite <- !Z.pow_add_r by lia. apply Z.pow_le_mono_r; lia. }
  set (t := 2 ^ (- e3)).
  assert (Ht : 0 < t) by (apply Z.pow_pos_nonneg; lia).
  assert (HtX : t * X = 2 ^ 172).
  { unfold t, X, pc, pa, U. rewrite <- !Z.pow_add_r by lia. f_equal. lia. }
  assert (Hup : m3 * X <= M * U + pa * U).
  { unfold X. clear - Hq3 Hm2 Hq1 Hpa HU Hpc Hm3pos.
    assert (m3 * pc * pa <= M + pa) by nia.
    replace (m3 * (pc * pa * U)) with (m3 * pc * pa * U) by ring.
    replace (M * U + pa * U) with ((M + pa) * U) by ring.
    apply Z.mul_le_mono_nonneg_r; lia. }
  assert (Hdown : M * U < (m3 + 1) * X).
  { unfold X. clear - Hq3 Hm2 Hq1 Hpa HU Hpc Hm3pos.
    assert (M < (m3 + 1) * pc * pa) by nia.
    replace ((m3 + 1) * (pc * pa * U)) with ((m3 + 1) * pc * pa * U) by ring.
    apply Z.mul_lt_mono_pos_r; lia. }
  assert (Hfloor : n * t <= m3 < (n + 1) * t).
  { rewrite <- HtX in Hr.
    remember (2 ^ 162) as c162. remember (2 ^ 157) as c157. remember (2 ^ 156) as c156.
    assert (Hc : c157 < c162 /\ c156 < c162) by (subst; split; reflexivity).
    clear - Hr Hup Hdown HXle HpaU HX Ht Hc Hn Hm3pos.
    split.
    - assert (n * t * X < (m3 + 1) * X) by lia.
      assert (n * t < m3 + 1) by (apply (Z.mul_lt_mono_pos_r X); assumption).
      lia.
    - assert (m3 * X < (n + 1) * t * X) by lia.
      apply (Z.mul_lt_mono_pos_r X); assumption. }
  assert (Hdiv : m3 / t = n).
  { symmetry. apply (Z.div_unique m3 t n (m3 - n * t)); lia. }
  destruct m3 as [|m3'|m3']; [| |lia].
  - unfold to_int. cbn [trunc]. rewrite Z.div_0_l in Hdiv by lia. subst n. reflexivity.
  - replace (e3 <=? emax - prec) with true
      by (symmetry; apply Z.leb_le; unfold emax, prec; lia).
    unfold to_int, trunc. destruct e3 as [|p|p]; try lia.
    change (2 ^ (- Zneg p)) with (2 ^ Zpos p) in t. fold t. rewrite Hdiv.
    unfold INT_MIN, INT_MAX.
    replace ((- 2 ^ 31 <=? n) && (n <=? 2 ^ 31 - 1)) with true; [reflexivity|].
    symmetry. apply andb_true_intro. split; apply Z.leb_le; lia.
Qed.

(** Every entry of the gamma table is the floor of the exact value. *)
Lemma gamma_entry_floor (powf : f32 -> f32 -> f32) (i : Z) :
  powf_accurate powf -> 0 <= i <= 255 ->
  u8 (gamma_entry powf i) = gamma_floor i.
Proof.
  intros Hacc Hi. specialize (Hacc i Hi). unfold powf_ok_at in Hacc.
  unfold gamma_entry, to_uint8.
  destruct (gamma_floor_correct i Hi) as [(Hn0 & _) Hn255].
  destruct (i =? 0) eqn:E0; [apply Z.eqb_eq in E0; subst i|].
  { destruct (powf (brightness 0) gamma_exponent) as [s|s| |s m e];
      try destruct s; try discriminate Hacc; reflexivity. }
  destruct (i =? 255) eqn:E255; [apply Z.eqb_eq in E255; subst i|].
  { apply andb_prop in Hacc. destruct Hacc as [Heq _].
    change one with (S754_finite false 8388608 (-23)) in Heq.
    unfold eqb, SFeqb, SFcompare in Heq.
    destruct (powf (brightness 255) gamma_exponent) as [s|s| |s m e];
      try destruct s; try discriminate Heq.
    destruct (Z.compare e (-23)) eqn:Ee; try discriminate Heq.
    apply Z.compare_eq in Ee. subst e.
    destruct (Pos.compare_cont Eq m 8388608) eqn:Em; try discriminate Heq.
    apply Pos.compare_eq in Em. subst m. vm_compute. reflexivity. }
  apply Z.eqb_neq in E0, E255.
  destruct (powf (brightness i) gamma_exponent) as [s|s| |s m e];
    try discriminate Hacc.
  destruct s; [discriminate Hacc|].
  destruct (powf_close_bounds i m e ltac:(lia) Hacc) as [He Hb].
  assert (Hn254 : gamma_floor i <= 254).
  { pose proof (gamma_margin_checked i ltac:(lia)) as Hm. unfold gamma_margin_ok in Hm.
    cbv zeta in Hm. apply andb_prop in Hm. destruct Hm as [Hm _].
    apply andb_prop in Hm. destruct Hm as [Hm _]. now apply Z.leb_le in Hm. }
  rewrite (mul_f255_floor m e (gamma_floor i) He ltac:(lia) Hb).
  apply u8_byte_of. lia.
Qed.

(** C3 (amended): for every brightness level [i] in [0, 255] the gamma
    table entry is the exact value [255 * (i/255)^(1/2.2)] rounded down
    (the conversion to [uint8_t] truncates), for any [powf] that returns
    0 at 0, 1 at 1 and is otherwise within [2^-20] of the exact power. *)
Theorem gamma_lut_truncates (powf : f32 -> f32 -> f32) (i : Z) :
  powf_accurate powf -> 0 <= i <= 255 ->
  is_gamma_floor i (u8 (byte_at (gamma_lut (init_luts powf)) i)).
Proof.
  intros Hacc Hi. cbn [gamma_lut init_luts].
  rewrite table_at, gamma_entry_floor by assumption.
  exact (proj1 (gamma_floor_correct i Hi)).
Qed.

Lemma gamma_lut_truncates_witness :
  is_gamma_floor 1 (u8 (byte_at (gamma_lut (init_luts powf_ref)) 1)).
Proof.
  exact (gamma_lut_truncates powf_ref 1 powf_ref_accurate ltac:(lia)).
Defined.

(** C3 as stated fails: with an accurate [powf] the entry for [i = 1] is
    20, the floor of 20.54..., while rounding to nearest gives 21; no
    accurate [powf] makes every entry the rounded value. *)
Lemma gamma_lut_not_rounded :
  powf_accurate powf_ref /\
  u8 (byte_at (gamma_lut (init_luts powf_ref)) 1) = 20 /\
  gamma_round 1 = 21 /\ is_gamma_round 1 21 /\
  ~ (exists powf, powf_accurate powf /\
       forall i, 0 <= i <= 255 ->
         is_gamma_round i (u8 (byte_at (gamma_lut (init_luts powf)) i))).
Proof.
  split; [exact powf_ref_accurate|]. split.
  { cbn [gamma_lut init_luts].
    rewrite table_at, (gamma_entry_floor _ _ powf_ref_accurate) by lia.
    reflexivity. }
  split; [reflexivity|].
  split; [repeat split; vm_compute; congruence|].
  intros (powf & Hacc & H). specialize (H 1 ltac:(lia)).
  cbn [gamma_lut init_luts] in H.
  rewrite table_at, (gamma_entry_floor _ _ Hacc) in H by lia.
  change (gamma_floor 1) with 20 in H.
  destruct H as (_ & _ & H). vm_compute in H. discriminate H.
Qed.

End Gamma.

(** ** Arena arithmetic away from [SIZE_MAX] *)

Section ArenaSmall.

Import Arena.

(** An allocation whose arithmetic stays far from [SIZE_MAX]. *)
Lemma arena_alloc_small (a : Arena.t) (sz : Z) :
  0 <= Arena.used a <= Arena.size a -> Arena.size a < 2 ^ 62 ->
  0 <= sz <= 3 * 2 ^ 62 - 16 ->
  Arena.arena_alloc a sz
  = if Arena.used a + Arena.round_up_16 sz >? Arena.size a then (None, a)
    else (Some (Arena.used a),
          {| Arena.size := Arena.size a;
             Arena.used := Arena.used a + Arena.round_up_16 sz |}).
Proof.
  intros Hu Hs Hsz. unfold Arena.arena_alloc.
  rewrite align16_no_wrap by (unfold Size.SIZE_MAX, Size.modulus; lia).
  destruct (round_up_16_spec sz) as [_ Hr].
  unfold Size.add, Size.wrap, Size.modulus.
  rewrite Z.mod_small by lia. reflexivity.
Qed.

End ArenaSmall.

(** ** File names and processing modes *)

Section FileNames.

Import Names.

Lemma byte_eqb_eq (a b : byte) : Byte.eqb a b = true <-> a = b.
Proof.
  split; [apply Byte.byte_dec_bl|apply Byte.byte_dec_lb].
Qed.

Lemma streq_eq (a b : list byte) : streq a b = true <-> a = b.
Proof.
  revert b. induction a as [|x a IH]; intros [|y b]; simpl;
    try (split; [discriminate|discriminate]); [tauto|].
  rewrite andb_true_iff, byte_eqb_eq, IH. split.
  - intros [-> ->]. reflexivity.
  - intros H. inversion H. auto.
Qed.

Lemma strrchr_None (s : list byte) (c : byte) :
  strrchr s c = None <-> ~ In c s.
Proof.
  induction s as [|b s IH]; simpl; [tauto|].
  destruct (strrchr s c) as [r|].
  - split; [discriminate|]. intros H. exfalso. apply H. right.
    destruct (in_dec Byte.byte_eq_dec c s) as [Hin|Hn]; [exact Hin|].
    apply IH in Hn. discriminate.
  - destruct (Byte.eqb b c) eqn:E.
    + apply byte_eqb_eq in E. split; [discriminate|]. intros H. exfalso. apply H. now left.
    + split; [|reflexivity]. intros _ [H|H].
      * apply byte_eqb_eq in H. congruence.
      * now apply IH in H.
Qed.

(** What [strrchr] returns starts at the last occurrence. *)
Lemma strrchr_Some (s r : list byte) (c : byte) :
  strrchr s c = Some r <->
  exists pre tail, s = pre ++ c :: tail /\ r = c :: tail /\ ~ In c tail.
Proof.
  revert r. induction s as [|b s IH]; intros r; simpl.
  - split; [discriminate|]. intros (pre & tail & H & _). now destruct pre.
  - destruct (strrchr s c) as [r'|] eqn:E.
    + destruct (proj1 (IH r') eq_refl) as (pre & tail & Hs & Hr & Hn).
      split.
      * intros H. injection H as <-. exists (b :: pre), tail. subst s. auto.
      * intros (pre2 & tail2 & Hs2 & Hr2 & Hn2). f_equal. subst r r'.
        destruct pre2 as [|b2 pre2]; simpl in Hs2; injection Hs2 as Hb Hs2.
        { subst s tail2. exfalso. apply Hn2. apply in_or_app. right. now left. }
        assert (H : Some (c :: tail) = Some (c :: tail2))
          by (apply IH; exists pre2, tail2; auto).
        injection H as H. congruence.
    + apply strrchr_None in E. destruct (Byte.eqb b c) eqn:Eb.
      * apply byte_eqb_eq in Eb. subst b. split.
        { intros H. injection H as <-. exists [], s. auto. }
        intros (pre & tail & Hs & Hr & Hn). destruct pre as [|b2 pre]; simpl in Hs.
        { injection Hs as <-. now subst r. }
        injection Hs as _ Hs. subst s. exfalso. apply E, in_or_app. right. now left.
      * split; [discriminate|]. intros (pre & tail & Hs & Hr & Hn).
        destruct pre as [|b2 pre]; simpl in Hs; injection Hs as Hb Hs.
        { subst b. rewrite (proj2 (byte_eqb_eq c c) eq_refl) in Eb. discriminate. }
        subst s. exfalso. apply E, in_or_app. right. now left.
Qed.

(** A name that ends in one of the five extensions is animated. *)
Lemma animated_suffix (stem ext : list byte) :
  In ext [ext_mp4; ext_mkv; ext_avi; ext_mov; ext_gif] ->
  is_animated_file (stem ++ ext) = true.
Proof.
  intros Hin. unfold is_animated_file.
  assert (Hr : exists tail, ext = "."%byte :: tail /\ ~ In "."%byte tail).
  { cbn [In] in Hin.
    destruct Hin as [<-|[<-|[<-|[<-|[<-|[]]]]]];
      (eexists; split; [reflexivity|]);
      intros H; simpl in H; intuition discriminate. }
  destruct Hr as (tail & -> & Hn).
  assert (E : strrchr (stem ++ "."%byte :: tail) "."%byte = Some ("."%byte :: tail))
    by (apply strrchr_Some; exists stem, tail; auto).
  rewrite E. cbn [In] in Hin. rewrite !orb_true_iff, !streq_eq.
  intuition auto.
Qed.

(** X1: [is_animated_file] answers 1 exactly for the names that end in
    one of [.mp4], [.mkv], [.avi], [.mov] or [.gif], compared byte for
    byte (so in lower case only); a name without a dot, and a name whose
    last dot starts anything else, are not animated. *)
Theorem is_animated_file_suffix (filename : list byte) :
  is_animated_file filename = true <->
  exists stem ext,
    In ext [ext_mp4; ext_mkv; ext_avi; ext_mov; ext_gif] /\
    filename = stem ++ ext.
Proof.
  split.
  - unfold is_animated_file.
    destruct (strrchr filename "."%byte) as [ext|] eqn:E; [|discriminate].
    apply strrchr_Some in E. destruct E as (pre & tail & Hs & Hr & _).
    rewrite <- Hr in Hs. intros H. exists pre, ext. split; [|exact Hs].
    rewrite !orb_true_iff, !streq_eq in H. cbn [In]. intuition auto.
  - intros (stem & ext & Hin & ->). now apply animated_suffix.
Qed.

Lemma starts_with_app (n post : list byte) : starts_with n (n ++ post) = true.
Proof.
  induction n as [|x n IH]; [reflexivity|]. simpl.
  now rewrite (proj2 (byte_eqb_eq x x) eq_refl), IH.
Qed.

Lemma strstr_unfold (h n : list byte) :
  strstr h n
  = if starts_with n h then Some h
    else match h with [] => None | _ :: h' => strstr h' n end.
Proof. destruct h; reflexivity. Qed.

Lemma strstr_found (pre n post : list byte) : strstr (pre ++ n ++ post) n <> None.
Proof.
  induction pre as [|b pre IH]; rewrite strstr_unfold.
  - cbn [app]. rewrite starts_with_app. discriminate.
  - destruct (starts_with n ((b :: pre) ++ n ++ post)); [discriminate|exact IH].
Qed.

Lemma starts_with_gif_app (stem ext : list byte) :
  In ext [ext_mp4; ext_mkv; ext_avi; ext_mov] ->
  starts_with ext_gif stem = false ->
  starts_with ext_gif (stem ++ ext) = false.
Proof.
  intros Hin H. cbn [In] in Hin.
  destruct stem as [|a [|b [|c [|d rest]]]];
    [ | | | | exact H];
    destruct Hin as [<-|[<-|[<-|[<-|[]]]]]; cbn;
    rewrite ?andb_false_r; reflexivity.
Qed.

Lemma strstr_gif_app (stem ext : list byte) :
  In ext [ext_mp4; ext_mkv; ext_avi; ext_mov] ->
  strstr stem ext_gif = None ->
  strstr (stem ++ ext) ext_gif = None.
Proof.
  intros Hin. induction stem as [|b stem IH]; intros H.
  - cbn [In] in Hin. destruct Hin as [<-|[<-|[<-|[<-|[]]]]]; reflexivity.
  - rewrite strstr_unfold in H. rewrite strstr_unfold.
    destruct (starts_with ext_gif (b :: stem)) eqn:E; [discriminate|].
    rewrite (starts_with_gif_app (b :: stem) ext Hin E). cbn [app].
    now apply IH.
Qed.

(** X2: the mode [main] selects.  A name that ends in [.gif] is an
    animated GIF; so is every name with an animated extension that holds
    [.gif] anywhere before it (the test is a substring search), whatever
    the extension says; a name that ends in [.mp4], [.mkv], [.avi] or
    [.mov] and holds no [.gif] is a video; a name is taken for a still
    image exactly when [is_animated_file] rejects it. *)
Theorem main_mode_of_name :
  (forall stem, main_mode (stem ++ ext_gif) = MODE_ANIMATED_GIF) /\
  (forall pre mid ext,
     In ext [ext_mp4; ext_mkv; ext_avi; ext_mov; ext_gif] ->
     main_mode (pre ++ ext_gif ++ mid ++ ext) = MODE_ANIMATED_GIF) /\
  (forall stem ext,
     In ext [ext_mp4; ext_mkv; ext_avi; ext_mov] ->
     strstr stem ext_gif = None ->
     main_mode (stem ++ ext) = MODE_VIDEO) /\
  (forall name, main_mode name = MODE_IMAGE <-> is_animated_file name = false).
Proof.
  assert (Hgif : forall pre mid ext,
     In ext [ext_mp4; ext_mkv; ext_avi; ext_mov; ext_gif] ->
     main_mode (pre ++ ext_gif ++ mid ++ ext) = MODE_ANIMATED_GIF).
  { intros pre mid ext Hin. unfold main_mode.
    assert (Ha : is_animated_file (pre ++ ext_gif ++ mid ++ ext) = true).
    { replace (pre ++ ext_gif ++ mid ++ ext) with ((pre ++ ext_gif ++ mid) ++ ext)
        by (now rewrite <- !app_assoc).
      now apply animated_suffix. }
    rewrite Ha.
    pose proof (strstr_found pre ext_gif (mid ++ ext)) as Hf.
    destruct (strstr _ ext_gif); [reflexivity|contradiction]. }
  split; [|split; [exact Hgif|split]].
  - intros stem. unfold main_mode.
    assert (Ha : is_animated_file (stem ++ ext_gif) = true).
    { apply animated_suffix. do 4 right. now left. }
    rewrite Ha.
    pose proof (strstr_found stem ext_gif []) as Hf. rewrite app_nil_r in Hf.
    destruct (strstr _ ext_gif); [reflexivity|contradiction].
  - intros stem ext Hin Hno. unfold main_mode.
    assert (Ha : is_animated_file (stem ++ ext) = true).
    { apply animated_suffix. cbn [In] in *. intuition auto. }
    rewrite Ha. now rewrite (strstr_gif_app stem ext Hin Hno).
  - intros name. unfold main_mode. destruct (is_animated_file name).
    + destruct (strstr _ _); split; discriminate.
    + split; reflexivity.
Qed.

End FileNames.

(** ** The lookup tables in closed form *)

Section Tables.

Import Luts.

Lemma ramp_entry_checked (r : Tile.ramp) (i : Z) :
  0 <= i <= 255 ->
  ramp_entry (ramp_literal r) (ramp_len r) i
  = byte_at (ramp_literal r) (i * (ramp_len r - 1) / 255).
Proof.
  intros Hi.
  set (exact := fun r i =>
         Byte.eqb (ramp_entry (ramp_literal r) (ramp_len r) i)
                  (byte_at (ramp_literal r) (i * (ramp_len r - 1) / 255))).
  assert (H : forallb (fun r => forallb (exact r) (range 0 256))
                [Tile.Flat; Tile.Vert; Tile.Horz; Tile.Diag1; Tile.Diag2] = true)
    by (vm_compute; reflexivity).
  rewrite forallb_forall in H.
  assert (Hr : forallb (exact r) (range 0 256) = true)
    by (apply H; destruct r; simpl; auto 6).
  rewrite forallb_forall in Hr.
  apply byte_eqb_eq. apply (Hr i). apply range_In. lia.
Qed.

Lemma char_lut_at (powf : f32 -> f32 -> f32) (r : Tile.ramp) (i : Z) :
  0 <= i <= 255 ->
  byte_at (Tile.char_lut (init_luts powf) r) i
  = byte_at (ramp_literal r) (i * (ramp_len r - 1) / 255).
Proof.
  intros Hi. rewrite <- ramp_entry_checked by exact Hi.
  destruct r; cbn [Tile.char_lut init_luts char_lut_flat char_lut_vert
                   char_lut_horz char_lut_diag1 char_lut_diag2];
    now rewrite table_at.
Qed.

(** X3: every entry of the five character tables is the glyph at
    position [floor(i * (len - 1) / 255)] of its ramp: the binary32
    computation [(int)(i / 255.0f * (len - 1))] agrees with the exact
    quotient for all 256 levels.  So the flat table climbs through the
    glyphs 0 to 89 of its literal and never reaches the 91st character
    ['@'], and each edge table holds its first glyph at the levels 0 to
    254 and its second glyph at level 255 only; for the vertical ramp the
    second glyph is the byte [0xC2], the first half of a two-byte UTF-8
    character. *)
Theorem char_tables_closed_form (powf : f32 -> f32 -> f32) (r : Tile.ramp) (i : Z) :
  0 <= i <= 255 ->
  byte_at (Tile.char_lut (init_luts powf) r) i
  = byte_at (ramp_literal r) (i * (ramp_len r - 1) / 255) /\
  0 <= i * (ramp_len r - 1) / 255 <= ramp_len r - 1 /\
  byte_at (Tile.char_lut (init_luts powf) Tile.Flat) i <> "@"%byte /\
  (r <> Tile.Flat ->
   byte_at (Tile.char_lut (init_luts powf) r) i
   = if i =? 255 then byte_at (ramp_literal r) 1 else byte_at (ramp_literal r) 0) /\
  byte_at (ramp_literal Tile.Vert) 1 = xc2.
Proof.
  intros Hi. split; [now apply char_lut_at|]. split; [|split; [|split]].
  - assert (0 <= ramp_len r - 1) by (destruct r; vm_compute; discriminate).
    split; [apply Z.div_pos; nia|]. apply Z.div_le_upper_bound; nia.
  - rewrite char_lut_at by exact Hi.
    assert (H : forallb (fun k => negb (Byte.eqb (byte_at flat_ramp k) "@"%byte))
                  (range 0 90) = true) by (vm_compute; reflexivity).
    rewrite forallb_forall in H.
    assert (Hk : 0 <= i * (ramp_len Tile.Flat - 1) / 255 < 90).
    { change (ramp_len Tile.Flat - 1) with 89.
      split; [apply Z.div_pos; lia|apply Z.div_lt_upper_bound; lia]. }
    specialize (H _ (proj2 (range_In 0 90 _) Hk)).
    intros Heq. apply byte_eqb_eq in Heq.
    change (ramp_literal Tile.Flat) with flat_ramp in Heq.
    rewrite Heq in H. discriminate.
  - intros Hr. rewrite char_lut_at by exact Hi.
    assert (Hl : ramp_len r - 1 = 1) by (destruct r; [contradiction| | | |]; reflexivity).
    rewrite Hl, Z.mul_1_r.
    destruct (i =? 255) eqn:E; [apply Z.eqb_eq in E; now subst i|].
    apply Z.eqb_neq in E. now rewrite Z.div_small by lia.
  - reflexivity.
Qed.

Lemma char_tables_closed_form_witness :
  byte_at (Tile.char_lut (init_luts powf_ref) Tile.Horz) 254
  = byte_at (ramp_literal Tile.Horz) (254 * (ramp_len Tile.Horz - 1) / 255).
Proof.
  exact (proj1 (char_tables_closed_form powf_ref Tile.Horz 254 ltac:(lia))).
Defined.

(** *** The gamma table *)

Lemma gamma_floor_mono (i j : Z) :
  0 <= i <= j -> j <= 255 -> gamma_floor i <= gamma_floor j.
Proof.
  intros Hij Hj.
  destruct (gamma_floor_correct i ltac:(lia)) as [(Hi0 & Hilo & Hihi) _].
  destruct (gamma_floor_correct j ltac:(lia)) as [(Hj0 & Hjlo & Hjhi) _].
  destruct (Z.le_gt_cases (gamma_floor i) (gamma_floor j)) as [|Hgt]; [assumption|].
  exfalso.
  assert (H1 : (gamma_floor j + 1) ^ 11 <= gamma_floor i ^ 11)
    by (apply Z.pow_le_mono_l; lia).
  assert (H2 : i ^ 5 <= j ^ 5) by (apply Z.pow_le_mono_l; lia).
  assert (H3 : i ^ 5 * 255 ^ 6 <= j ^ 5 * 255 ^ 6)
    by (apply Z.mul_le_mono_nonneg_r; [apply Z.pow_nonneg; lia|exact H2]).
  clear - H1 H3 Hilo Hjhi.
  remember (gamma_floor i ^ 11) as a. remember ((gamma_floor j + 1) ^ 11) as b.
  remember (i ^ 5 * 255 ^ 6) as c. remember (j ^ 5 * 255 ^ 6) as d. lia.
Qed.

Lemma gamma_floor_brightens (i : Z) : 0 <= i <= 255 -> i <= gamma_floor i.
Proof.
  intros Hi.
  destruct (gamma_floor_correct i Hi) as [(H0 & Hlo & Hhi) _].
  destruct (Z.le_gt_cases i (gamma_floor i)) as [|Hgt]; [assumption|].
  exfalso.
  assert (H1 : (gamma_floor i + 1) ^ 11 <= i ^ 11) by (apply Z.pow_le_mono_l; lia).
  assert (H2 : i ^ 6 <= 255 ^ 6) by (apply Z.pow_le_mono_l; lia).
  assert (H3 : i ^ 11 = i ^ 5 * i ^ 6) by (rewrite <- Z.pow_add_r by lia; reflexivity).
  assert (H4 : i ^ 5 * i ^ 6 <= i ^ 5 * 255 ^ 6)
    by (apply Z.mul_le_mono_nonneg_l; [apply Z.pow_nonneg; lia|exact H2]).
  clear - H1 H3 H4 Hhi.
  remember ((gamma_floor i + 1) ^ 11) as a. remember (i ^ 11) as b.
  remember (i ^ 5 * i ^ 6) as c. remember (i ^ 5 * 255 ^ 6) as d. lia.
Qed.

Lemma gamma_lut_at (powf : f32 -> f32 -> f32) (i : Z) :
  powf_accurate powf -> 0 <= i <= 255 ->
  u8 (byte_at (gamma_lut (init_luts powf)) i) = gamma_floor i.
Proof.
  intros Hacc Hi. cbn [gamma_lut init_luts].
  now rewrite table_at, gamma_entry_floor.
Qed.

(** X4: with an accurate [powf] the gamma table is a brightening curve:
    it maps 0 to 0 and 255 to 255, no entry is below its index, the
    entries never decrease, and 255 is reached at index 255 only. *)
Theorem gamma_lut_monotone (powf : f32 -> f32 -> f32) :
  powf_accurate powf ->
  let G := fun i => u8 (byte_at (gamma_lut (init_luts powf)) i) in
  G 0 = 0 /\ G 255 = 255 /\
  (forall i, 0 <= i <= 255 -> i <= G i) /\
  (forall i j, 0 <= i <= j -> j <= 255 -> G i <= G j) /\
  (forall i, 0 <= i <= 255 -> (G i = 255 <-> i = 255)).
Proof.
  intros Hacc G. unfold G.
  split; [now rewrite gamma_lut_at by (assumption || lia)|].
  split; [now rewrite gamma_lut_at by (assumption || lia)|].
  split; [|split].
  - intros i Hi. rewrite gamma_lut_at by assumption. now apply gamma_floor_brightens.
  - intros i j Hij Hj. rewrite !gamma_lut_at by (assumption || lia).
    now apply gamma_floor_mono.
  - intros i Hi. rewrite gamma_lut_at by assumption. split.
    + intros H. destruct (Z.eq_dec i 255) as [|Hne]; [assumption|]. exfalso.
      pose proof (gamma_floor_mono i 254 ltac:(lia) ltac:(lia)) as Hm.
      change (gamma_floor 254) with 254 in Hm. lia.
    + intros ->. reflexivity.
Qed.

Lemma gamma_lut_monotone_witness :
  u8 (byte_at (gamma_lut (init_luts powf_ref)) 255) = 255.
Proof.
  exact (proj1 (proj2 (gamma_lut_monotone powf_ref powf_ref_accurate))).
Defined.

End Tables.

(** ** The glyph of a cell in closed form *)

Section Glyphs.

Import Tile.

(** The centre sample of the Sobel window is the source pixel of the
    cell, clamped into the frame. *)
Lemma sobel_center (ctx : ProcessingContext) (srcx srcy : Z) :
  center_luma (sobel ctx srcx srcy)
  = luma_at ctx (clamp srcx (dec_width ctx)) (clamp srcy (dec_height ctx)).
Proof.
  unfold sobel. rewrite window_order. cbn [fold_left].
  unfold sobel_step, sample_coord. cbn [fst snd center_luma Z.eqb andb].
  now rewrite !Z.add_0_r.
Qed.

(** X5: the glyph of every cell in closed form, for tables built with an
    accurate [powf].  Let [(r0, g0, b0)] be the source pixel of the cell,
    clamped into the frame, and [c] its luma truncated to a byte, the
    luma being [0.299f * r0 + 0.587f * g0 + 0.114f * b0] as the build
    evaluates it (the product by [0.587f] rounded, the other two fused
    into the sums).  The glyph is the one at position
    [floor(G * (len - 1) / 255)] of the ramp the classification names,
    where [G] is the floor of the exact gamma value of [c].  For the four
    edge ramps that position is 1 exactly when [c] is 255, and 0
    otherwise. *)
Theorem selected_char_closed_form (ctx : ProcessingContext)
    (config : EngineConfig) (powf : f32 -> f32 -> f32) (x y : Z)
    (r0 g0 b0 : byte) :
  luts ctx = Luts.init_luts powf -> Luts.powf_accurate powf ->
  pixel ctx (clamp (source_x ctx x) (dec_width ctx))
            (clamp (source_y ctx y) (dec_height ctx)) = (r0, g0, b0) ->
  let l := fma (lit 114 1000) (of_int (u8 b0))
               (fma (lit 299 1000) (of_int (u8 r0))
                    (mul (lit 587 1000) (of_int (u8 g0)))) in
  let c := u8 (to_uint8 l) in
  let r := cell_ramp ctx config x y in
  selected_char ctx config x y
  = byte_at (ramp_literal r) (Luts.gamma_floor c * (ramp_len r - 1) / 255) /\
  0 <= Luts.gamma_floor c * (ramp_len r - 1) / 255 <= ramp_len r - 1 /\
  (r <> Flat ->
   selected_char ctx config x y
   = byte_at (ramp_literal r) (if c =? 255 then 1 else 0)).
Proof.
  intros Hl Hacc Hpix. cbv zeta.
  assert (Ec : fma (lit 114 1000) (of_int (u8 b0))
                   (fma (lit 299 1000) (of_int (u8 r0))
                        (mul (lit 587 1000) (of_int (u8 g0))))
               = center_luma (cell_gradient ctx x y)).
  { unfold cell_gradient. rewrite sobel_center. unfold luma_at.
    rewrite Hpix. reflexivity. }
  rewrite Ec. clear Ec Hpix.
  unfold selected_char, cell_ramp, brightness_idx.
  remember (cell_gradient ctx x y) as g eqn:Eg. clear Eg.
  remember (select_ramp config g) as r eqn:Er. clear Er.
  remember (u8 (to_uint8 (center_luma g))) as c eqn:Ec.
  pose proof (u8_range (to_uint8 (center_luma g))) as Hc. rewrite <- Ec in Hc.
  clear Ec.
  destruct (gamma_floor_correct c Hc) as [(Hg0 & _) Hg255].
  rewrite Hl, gamma_lut_at by assumption.
  rewrite (char_lut_at powf r (Luts.gamma_floor c)) by lia.
  split; [reflexivity|]. split.
  - assert (0 <= ramp_len r - 1) by (destruct r; vm_compute; discriminate).
    split; [apply Z.div_pos; nia|]. apply Z.div_le_upper_bound; nia.
  - intros Hr.
    assert (Hlen : ramp_len r - 1 = 1) by (destruct r; [contradiction| | | |]; reflexivity).
    rewrite Hlen, Z.mul_1_r.
    destruct (c =? 255) eqn:E; [apply Z.eqb_eq in E; now rewrite E|].
    apply Z.eqb_neq in E.
    pose proof (gamma_floor_mono c 254 ltac:(lia) ltac:(lia)) as Hm.
    change (Luts.gamma_floor 254) with 254 in Hm.
    now rewrite Z.div_small by lia.
Qed.

Lemma selected_char_closed_form_witness :
  selected_char (Examples.uniform_ctx x3f x3f x3f) Examples.default_config 1 1
  = byte_at (ramp_literal
               (cell_ramp (Examples.uniform_ctx x3f x3f x3f)
                          Examples.default_config 1 1))
      (Luts.gamma_floor 62
       * (ramp_len (cell_ramp (Examples.uniform_ctx x3f x3f x3f)
                              Examples.default_config 1 1) - 1) / 255).
Proof.
  exact (proj1 (selected_char_closed_form (Examples.uniform_ctx x3f x3f x3f)
                  Examples.default_config Luts.powf_ref 1 1 x3f x3f x3f
                  eq_refl powf_ref_accurate eq_refl)).
Defined.

(** Two frames of a single colour, evaluated: the grey 63, whose luma
    truncates to 62, gets ['5'], and the colour (4, 38, 57), whose luma
    truncates to 29, gets ['C']; both cells are flat. *)
Example uniform_frames_evaluated :
  selected_char (Examples.uniform_ctx x3f x3f x3f) Examples.default_config 1 1
  = x35 /\
  selected_char (Examples.uniform_ctx x04 x26 x39) Examples.default_config 1 1
  = x43 /\
  cell_ramp (Examples.uniform_ctx x3f x3f x3f) Examples.default_config 1 1 = Flat /\
  cell_ramp (Examples.uniform_ctx x04 x26 x39) Examples.default_config 1 1 = Flat.
Proof. vm_compute. repeat split. Qed.

End Glyphs.

(** ** The frame's buffers in the arena *)

Section FrameMemory.

Import Frame.

Lemma round_up_16_mono (a b : Z) :
  a <= b -> Arena.round_up_16 a <= Arena.round_up_16 b.
Proof.
  intros H. unfold Arena.round_up_16.
  assert ((a + 15) / 16 <= (b + 15) / 16) by (apply Z.div_le_mono; lia). lia.
Qed.

Lemma frame_sizes (ctx : ProcessingContext) :
  0 <= ascii_width ctx <= INT_MAX -> 0 <= ascii_height ctx <= INT_MAX ->
  Size.mul (char_buffer_size ctx) 1 = ascii_width ctx * ascii_height ctx /\
  Size.mul (Size.mul (char_buffer_size ctx) 3) 1
  = 3 * (ascii_width ctx * ascii_height ctx) /\
  0 <= ascii_width ctx * ascii_height ctx <= 2 ^ 62 - 2 ^ 32 + 1.
Proof.
  unfold INT_MAX. intros Hw Hh.
  assert (Hc : 0 <= ascii_width ctx * ascii_height ctx <= 2 ^ 62 - 2 ^ 32 + 1) by nia.
  unfold char_buffer_size, Size.mul, Size.wrap, Size.modulus.
  rewrite (Z.mod_small (ascii_width ctx)) by lia.
  rewrite (Z.mod_small (ascii_height ctx)) by lia.
  rewrite (Z.mod_small (ascii_width ctx * ascii_height ctx)) by lia.
  rewrite !Z.mul_1_r.
  rewrite (Z.mod_small (ascii_width ctx * ascii_height ctx)) by lia.
  rewrite (Z.mod_small (ascii_width ctx * ascii_height ctx * 3)) by lia.
  rewrite (Z.mod_small (ascii_width ctx * ascii_height ctx * 3)) by lia.
  repeat split; lia.
Qed.

(** The frame transform, with the arena arithmetic carried out. *)
Lemma process_frame_explicit (ctx : ProcessingContext) :
  0 <= ascii_width ctx <= INT_MAX -> 0 <= ascii_height ctx <= INT_MAX ->
  0 <= Arena.size (frame_arena ctx) < 2 ^ 62 ->
  let cells := ascii_width ctx * ascii_height ctx in
  let k := Arena.round_up_16 cells in
  let m := Arena.round_up_16 (3 * cells) in
  let sz := Arena.size (frame_arena ctx) in
  engine_process_frame_to_ascii ctx
  = if k >? sz then
      (with_arena ctx {| Arena.size := sz; Arena.used := 0 |}, AllocFailed)
    else if k + m >? sz then
      (with_arena ctx {| Arena.size := sz; Arena.used := k |}, AllocFailed)
    else
      (with_arena ctx {| Arena.size := sz; Arena.used := k + m |},
       Launched 0 k (row_bands (ascii_height ctx) (num_threads ctx))).
Proof.
  intros Hw Hh Hs cells k m sz.
  destruct (frame_sizes ctx Hw Hh) as (E1 & E3 & Hc).
  fold cells in E1, E3, Hc.
  destruct (round_up_16_spec cells) as [_ Hk]. fold k in Hk.
  destruct (round_up_16_spec (3 * cells)) as [_ Hm]. fold m in Hm.
  pose proof (round_up_16_mono cells (3 * cells) ltac:(lia)) as Hkm.
  fold k m in Hkm.
  unfold engine_process_frame_to_ascii. rewrite E1, E3.
  rewrite (arena_alloc_small (Arena.arena_reset (frame_arena ctx)) cells)
    by (cbn [Arena.arena_reset Arena.used Arena.size]; lia).
  cbn [Arena.arena_reset Arena.used Arena.size]. rewrite Z.add_0_l.
  fold k sz.
  destruct (k >? sz) eqn:Ek.
  - rewrite Z.gtb_ltb in Ek; apply Z.ltb_lt in Ek.
    rewrite (arena_alloc_small _ (3 * cells))
      by (cbn [Arena.arena_reset Arena.used Arena.size]; unfold sz in *; lia).
    cbn [Arena.arena_reset Arena.used Arena.size]. rewrite Z.add_0_l. fold m sz.
    replace (m >? sz) with true by (symmetry; apply Z.gtb_lt; lia).
    reflexivity.
  - rewrite Z.gtb_ltb in Ek; apply Z.ltb_ge in Ek.
    rewrite (arena_alloc_small _ (3 * cells))
      by (cbn [Arena.arena_reset Arena.used Arena.size]; unfold sz in *; lia).
    cbn [Arena.used Arena.size]. fold m sz.
    destruct (k + m >? sz); reflexivity.
Qed.

(** A cell write outside the grid's index range changes nothing there. *)
Lemma run_schedule_frame (ctx : ProcessingContext) (config : EngineConfig)
    (sched : list (Z * Z)) (b : Buffers) :
  (forall c, In c sched ->
     0 <= fst c < ascii_height ctx /\ 0 <= snd c < ascii_width ctx) ->
  (forall a, ~ (0 <= a < ascii_width ctx * ascii_height ctx) ->
     char_buffer (run_schedule ctx config sched b) a = char_buffer b a) /\
  (forall j, ~ (0 <= j < 3 * (ascii_width ctx * ascii_height ctx)) ->
     color_buffer (run_schedule ctx config sched b) j = color_buffer b j).
Proof.
  revert b. induction sched as [|[y x] sched IH]; intros b Hin; [now split|].
  change (run_schedule ctx config ((y, x) :: sched) b)
    with (run_schedule ctx config sched (Tile.write_cell ctx config b (y, x))).
  destruct (IH (Tile.write_cell ctx config b (y, x))
              (fun c Hc => Hin c (or_intror Hc))) as [IHc IHk].
  destruct (Hin (y, x) (or_introl eq_refl)) as [Hy Hx]. cbn [fst snd] in Hy, Hx.
  assert (Hidx : 0 <= y * ascii_width ctx + x < ascii_width ctx * ascii_height ctx)
    by nia.
  split.
  - intros a Ha. rewrite IHc by exact Ha. unfold Tile.write_cell.
    destruct (Tile.cell_color ctx x y) as [[r g] bl]. cbn [char_buffer].
    unfold store. destruct (a =? y * ascii_width ctx + x) eqn:E; [|reflexivity].
    apply Z.eqb_eq in E. lia.
  - intros j Hj. rewrite IHk by exact Hj. unfold Tile.write_cell.
    destruct (Tile.cell_color ctx x y) as [[r g] bl]. cbn [color_buffer].
    unfold store.
    destruct (j =? (y * ascii_width ctx + x) * 3 + 2) eqn:E2;
      [apply Z.eqb_eq in E2; lia|].
    destruct (j =? (y * ascii_width ctx + x) * 3 + 1) eqn:E1;
      [apply Z.eqb_eq in E1; lia|].
    destruct (j =? (y * ascii_width ctx + x) * 3 + 0) eqn:E0;
      [apply Z.eqb_eq in E0; lia|reflexivity].
Qed.

(** X6: for a grid whose dimensions are non-negative [int]s and an arena
    like the one [engine_init] creates, the frame transform gives up
    exactly when the two buffers, each rounded up to a multiple of 16
    bytes, do not fit the arena together.  Otherwise the character buffer
    is the block at offset 0 and the colour buffer the block at the
    16-byte aligned offset [round_up_16 (w * h)]; the blocks do not
    overlap and both end inside the arena.  In every execution the
    workers store nowhere but in cells [0, w * h) of the character buffer
    and in bytes [0, 3 * w * h) of the colour buffer. *)
Theorem frame_buffers_layout (ctx : ProcessingContext) :
  0 <= ascii_width ctx <= INT_MAX -> 0 <= ascii_height ctx <= INT_MAX ->
  0 <= Arena.size (frame_arena ctx) < 2 ^ 62 ->
  let cells := ascii_width ctx * ascii_height ctx in
  let k := Arena.round_up_16 cells in
  (snd (engine_process_frame_to_ascii ctx) = AllocFailed <->
   Arena.size (frame_arena ctx) < k + Arena.round_up_16 (3 * cells)) /\
  (forall c o args,
     snd (engine_process_frame_to_ascii ctx) = Launched c o args ->
     c = 0 /\ o = k /\ o mod 16 = 0 /\
     c + cells <= o /\ o + 3 * cells <= Arena.size (frame_arena ctx) /\
     Arena.used (frame_arena (fst (engine_process_frame_to_ascii ctx)))
     = k + Arena.round_up_16 (3 * cells)) /\
  (forall config n sched b,
     1 <= n -> execution ctx n sched ->
     (forall a, ~ (0 <= a < cells) ->
        char_buffer (run_schedule ctx config sched b) a = char_buffer b a) /\
     (forall j, ~ (0 <= j < 3 * cells) ->
        color_buffer (run_schedule ctx config sched b) j = color_buffer b j)).
Proof.
  intros Hw Hh Hs cells k.
  pose proof (process_frame_explicit ctx Hw Hh Hs) as E. cbv zeta in E.
  fold cells in E. fold k in E.
  destruct (round_up_16_spec cells) as [Hk16 Hk]. fold k in Hk16, Hk.
  destruct (round_up_16_spec (3 * cells)) as [_ Hm].
  pose proof (round_up_16_mono cells (3 * cells)) as Hkm. fold k in Hkm.
  assert (Hc : 0 <= cells) by (unfold cells; nia).
  split; [|split].
  - rewrite E. destruct (k >? _) eqn:Ek.
    + rewrite Z.gtb_ltb in Ek; apply Z.ltb_lt in Ek. cbn [snd]. split; [lia|reflexivity].
    + rewrite Z.gtb_ltb in Ek; apply Z.ltb_ge in Ek.
      destruct (k + _ >? _) eqn:Em; cbn [snd]; rewrite Z.gtb_ltb in Em.
      * apply Z.ltb_lt in Em. split; [lia|reflexivity].
      * apply Z.ltb_ge in Em. split; [discriminate|lia].
  - intros c o args. rewrite E. destruct (k >? _) eqn:Ek; [discriminate|].
    destruct (k + _ >? _) eqn:Em; [discriminate|].
    rewrite Z.gtb_ltb in Em; apply Z.ltb_ge in Em.
    cbn [snd fst with_arena frame_arena Arena.used].
    intros H. injection H as <- <- _. repeat split; lia.
  - intros config n sched b Hn Hex. apply run_schedule_frame.
    intros [y x] Hin. cbn [fst snd].
    now apply (execution_In ctx n sched (proj1 Hh) Hn Hex).
Qed.

Lemma frame_buffers_layout_witness :
  Arena.used (frame_arena (fst (engine_process_frame_to_ascii
                                  (Examples.half_split_ctx Luts.powf_ref)))) = 64.
Proof.
  destruct (frame_buffers_layout (Examples.half_split_ctx Luts.powf_ref))
    as (_ & Hl & _);
    [cbn; unfold INT_MAX; lia | cbn; unfold INT_MAX; lia | cbn; lia |].
  exact (proj2 (proj2 (proj2 (proj2 (proj2
           (Hl 0 16 (row_bands 4 2) eq_refl)))))).
Defined.

(** X7: when the frame transform has given up for lack of arena space,
    the two consumers that allocate from the same arena give up as well:
    the console renderer returns before its loops and the video encoder
    returns -1 before it renders, so neither reads the buffer pointers
    that the failed transform left null. *)
Theorem alloc_failure_propagates (ctx : ProcessingContext)
    (config : EngineConfig) (b : Buffers) :
  0 <= ascii_width ctx -> ascii_width ctx * 20 + 2 <= INT_MAX ->
  0 <= ascii_height ctx -> ascii_height ctx * 8 <= INT_MAX ->
  0 <= Arena.size (frame_arena ctx) < 2 ^ 62 ->
  snd (engine_process_frame_to_ascii ctx) = AllocFailed ->
  let ctx' := fst (engine_process_frame_to_ascii ctx) in
  Console.engine_render_to_console ctx' config b = (frame_arena ctx', None) /\
  Encoder.alloc_rgb_buffer ctx' = (None, frame_arena ctx').
Proof.
  unfold INT_MAX. intros Hw Hw20 Hh Hh8 Hs.
  pose proof (process_frame_explicit ctx ltac:(unfold INT_MAX; lia)
                ltac:(unfold INT_MAX; lia) Hs) as E.
  cbv zeta in E. rewrite E. clear E.
  set (cells := ascii_width ctx * ascii_height ctx).
  set (k := Arena.round_up_16 cells).
  set (m := Arena.round_up_16 (3 * cells)).
  set (sz := Arena.size (frame_arena ctx)).
  assert (Hc : 0 <= cells <= 2 ^ 62 - 2 ^ 32 + 1) by (unfold cells; nia).
  destruct (round_up_16_spec cells) as [_ Hk]. fold k in Hk.
  destruct (round_up_16_spec (3 * cells)) as [_ Hm]. fold m in Hm.
  assert (Hfull : forall c', ascii_width c' = ascii_width ctx ->
            ascii_height c' = ascii_height ctx ->
            Console.full_buffer_size c'
            = (ascii_width ctx * 20 + 2) * ascii_height ctx).
  { intros c' Ew Eh.
    unfold Console.full_buffer_size, Size.mul, Size.wrap, Size.modulus.
    rewrite Ew, Eh.
    rewrite (Z.mod_small (ascii_width ctx * 20 + 2)) by lia.
    rewrite (Z.mod_small (ascii_height ctx)) by lia.
    apply Z.mod_small. nia. }
  assert (Hrgb : forall c', ascii_width c' = ascii_width ctx ->
            ascii_height c' = ascii_height ctx ->
            Encoder.rgb_buffer_size c' = 192 * cells).
  { intros c' Ew Eh.
    unfold Encoder.rgb_buffer_size, Encoder.out_width, Encoder.out_height,
      Size.mul, Size.wrap, Size.modulus.
    rewrite Ew, Eh.
    rewrite (Z.mod_small (ascii_width ctx * 8)) by lia.
    rewrite (Z.mod_small (ascii_height ctx * 8)) by lia.
    rewrite (Z.mod_small (ascii_width ctx * 8 * (ascii_height ctx * 8))) by nia.
    unfold cells. rewrite Z.mod_small by nia. lia. }
  pose proof (round_up_16_mono cells ((ascii_width ctx * 20 + 2) * ascii_height ctx)
                ltac:(unfold cells; nia)) as Hf1.
  pose proof (round_up_16_mono (3 * cells) ((ascii_width ctx * 20 + 2) * ascii_height ctx)
                ltac:(unfold cells; nia)) as Hf3.
  pose proof (round_up_16_mono cells (192 * cells) ltac:(lia)) as Hr1.
  pose proof (round_up_16_mono (3 * cells) (192 * cells) ltac:(lia)) as Hr3.
  fold k in Hf1, Hr1. fold m in Hf3, Hr3.
  assert (Hgen : forall c' u,
            ascii_width c' = ascii_width ctx ->
            ascii_height c' = ascii_height ctx ->
            frame_arena c' = {| Arena.size := sz; Arena.used := u |} ->
            0 <= u <= sz ->
            sz < u + Arena.round_up_16 ((ascii_width ctx * 20 + 2) * ascii_height ctx) ->
            sz < u + Arena.round_up_16 (192 * cells) ->
            Console.engine_render_to_console c' config b = (frame_arena c', None) /\
            Encoder.alloc_rgb_buffer c' = (None, frame_arena c')).
  { intros c' u Ew Eh Ea Hu H1 H2.
    unfold Console.engine_render_to_console, Encoder.alloc_rgb_buffer.
    rewrite (Hfull c' Ew Eh), (Hrgb c' Ew Eh), Ea.
    rewrite !arena_alloc_small
      by (cbn [Arena.used Arena.size]; unfold sz, cells in *; nia).
    cbn [Arena.used Arena.size].
    replace (u + _ >? sz) with true by (symmetry; apply Z.gtb_lt; lia).
    replace (u + _ >? sz) with true by (symmetry; apply Z.gtb_lt; lia).
    split; reflexivity. }
  destruct (k >? sz) eqn:Ek.
  - rewrite Z.gtb_ltb in Ek; apply Z.ltb_lt in Ek.
    intros _. cbn [fst]. apply (Hgen _ 0); try reflexivity; unfold sz in *; lia.
  - rewrite Z.gtb_ltb in Ek; apply Z.ltb_ge in Ek.
    destruct (k + m >? sz) eqn:Em; [|discriminate].
    rewrite Z.gtb_ltb in Em; apply Z.ltb_lt in Em.
    intros _. cbn [fst]. apply (Hgen _ k); try reflexivity; unfold sz in *; lia.
Qed.

Lemma alloc_failure_propagates_witness :
  let ctx := engine_update_output_dims (Examples.half_split_ctx Luts.powf_ref)
               8192 4096 in
  snd (engine_process_frame_to_ascii ctx) = AllocFailed /\
  Console.engine_render_to_console (fst (engine_process_frame_to_ascii ctx))
    Examples.default_config Examples.blank_buffers
  = (frame_arena (fst (engine_process_frame_to_ascii ctx)), None).
Proof.
  intros ctx.
  assert (H : snd (engine_process_frame_to_ascii ctx) = AllocFailed) by reflexivity.
  split; [exact H|].
  refine (proj1 (alloc_failure_propagates ctx Examples.default_config
                   Examples.blank_buffers _ _ _ _ _ H));
    cbn; unfold INT_MAX; lia.
Defined.

End FrameMemory.

(** ** What the console renderer leaves in its buffer *)

Section ConsoleText.

Import Console FrameText.

Lemma load_store_at (bs : list byte) (p : Z) (acc : list (Z * byte)) (o : Z) :
  load (store_at p bs acc) o
  = if (p <=? o) && (o <? p + Z.of_nat (List.length bs))
    then Some (nth (Z.to_nat (o - p)) bs x00)
    else load acc o.
Proof.
  revert p acc. induction bs as [|v bs IH]; intros p acc.
  - cbn [store_at List.length]. rewrite Z.add_0_r.
    destruct (p <=? o) eqn:E1, (o <? p) eqn:E2; try reflexivity.
    apply Z.leb_le in E1. apply Z.ltb_lt in E2. lia.
  - cbn [store_at]. rewrite IH. cbn [load List.length].
    rewrite Nat2Z.inj_succ.
    destruct (p + 1 <=? o) eqn:E1, (o <? p + 1 + Z.of_nat (List.length bs)) eqn:E2;
      cbn [andb]; try apply Z.leb_le in E1; try apply Z.leb_gt in E1;
      try apply Z.ltb_lt in E2; try apply Z.ltb_ge in E2.
    + replace (p <=? o) with true by (symmetry; apply Z.leb_le; lia).
      replace (o <? p + Z.succ (Z.of_nat (List.length bs))) with true
        by (symmetry; apply Z.ltb_lt; lia).
      cbn [andb]. f_equal.
      replace (Z.to_nat (o - p)) with (S (Z.to_nat (o - (p + 1)))) by lia.
      reflexivity.
    + replace (o <? p + Z.succ (Z.of_nat (List.length bs))) with false
        by (symmetry; apply Z.ltb_ge; lia).
      rewrite andb_false_r.
      replace (p =? o) with false by (symmetry; apply Z.eqb_neq; lia).
      reflexivity.
    + destruct (p =? o) eqn:E3.
      * apply Z.eqb_eq in E3. subst o.
        rewrite Z.leb_refl.
        replace (p <? p + Z.succ (Z.of_nat (List.length bs))) with true
          by (symmetry; apply Z.ltb_lt; lia).
        cbn [andb]. now rewrite Z.sub_diag.
      * apply Z.eqb_neq in E3.
        replace (p <=? o) with false by (symmetry; apply Z.leb_gt; lia).
        reflexivity.
    + replace (p =? o) with false by (symmetry; apply Z.eqb_neq; lia).
      replace (o <? p + Z.succ (Z.of_nat (List.length bs))) with false
        by (symmetry; apply Z.ltb_ge; lia).
      now rewrite andb_false_r.
Qed.

Lemma sprintf_holds (s : cursor) (t text : list byte) :
  holds s t -> holds (sprintf s text) (t ++ text).
Proof.
  intros [Hp Hl]. split.
  - cbn [sprintf buf_ptr]. rewrite Hp, length_app. lia.
  - intros i Hi. cbn [sprintf stores]. rewrite load_store_at, Hp.
    rewrite length_app in Hi. rewrite length_app. cbn [List.length].
    destruct (Z.of_nat (List.length t) <=? i) eqn:E;
      [apply Z.leb_le in E|apply Z.leb_gt in E].
    + replace (i <? _) with true by (symmetry; apply Z.ltb_lt; lia).
      cbn [andb]. f_equal.
      rewrite app_nth1 by lia. rewrite app_nth2 by lia. f_equal. lia.
    + cbn [andb]. rewrite Hl by lia. f_equal. now rewrite app_nth1 by lia.
Qed.

Lemma put_holds (s : cursor) (t : list byte) (c : byte) :
  holds s t -> holds (put s c) (t ++ [c]).
Proof.
  intros [Hp Hl]. split.
  - cbn [put buf_ptr]. rewrite Hp, length_app. cbn [List.length]. lia.
  - intros i Hi. cbn [put stores load]. rewrite length_app in Hi.
    cbn [List.length] in Hi. rewrite Hp.
    destruct (Z.of_nat (List.length t) =? i) eqn:E;
      [apply Z.eqb_eq in E|apply Z.eqb_neq in E].
    + subst i. rewrite app_nth2 by lia.
      replace (Z.to_nat (Z.of_nat (List.length t)) - List.length t)%nat with 0%nat by lia.
      reflexivity.
    + rewrite Hl by lia. f_equal. now rewrite app_nth1 by lia.
Qed.

Lemma fold_holds {A : Type} (f : cursor -> A -> cursor) (g : A -> list byte)
    (l : list A) :
  (forall s t a, holds s t -> holds (f s a) (t ++ g a)) ->
  forall s t, holds s t -> holds (fold_left f l s) (t ++ flat_map g l).
Proof.
  intros Hf. induction l as [|a l IH]; intros s t Hs; cbn [fold_left flat_map].
  - now rewrite app_nil_r.
  - rewrite app_assoc. apply IH, Hf, Hs.
Qed.

Lemma emit_row_holds (ctx : ProcessingContext) (config : EngineConfig)
    (b : Buffers) (s : cursor) (t : list byte) (y : Z) :
  holds s t -> holds (emit_row ctx config b s y) (t ++ row_text ctx config b y).
Proof.
  intros Hs. unfold emit_row, row_text. rewrite app_assoc.
  apply put_holds. apply fold_holds; [|exact Hs].
  intros s' t' x Hs'. unfold emit_cell, cell_bytes.
  destruct (use_color config); [now apply sprintf_holds|now apply put_holds].
Qed.

Lemma decimal_not_nul (c : byte) : forallb (fun d => negb (Byte.eqb d x00)) (decimal (u8 c)) = true.
Proof. destruct c; vm_compute; reflexivity. Qed.

(** X8: when the console renderer is done, its buffer holds, from
    offset 0, the rows of the grid from top to bottom, each row being its
    cells from left to right followed by a newline, and each cell being
    its 24-bit colour escape sequence and its character (the character
    alone when colour is off); the byte after the last newline is the
    terminating NUL, and the cursor stands on it.  If no cell character
    is NUL the text holds no NUL, so that [printf] prints all of it. *)
Theorem console_frame_text (ctx : ProcessingContext) (config : EngineConfig)
    (b : Buffers) :
  let s := emit_frame ctx config b in
  let t := frame_text ctx config b in
  buf_ptr s = Z.of_nat (List.length t) /\
  (forall i, 0 <= i < Z.of_nat (List.length t) ->
     load (stores s) i = Some (nth (Z.to_nat i) t x00)) /\
  load (stores s) (Z.of_nat (List.length t)) = Some x00 /\
  ((forall idx, char_buffer b idx <> x00) -> ~ In x00 t).
Proof.
  cbv zeta.
  assert (H0 : holds {| buf_ptr := 0; stores := [] |} [])
    by (split; [reflexivity|cbn [List.length]; intros i Hi; lia]).
  pose proof (fold_holds (emit_row ctx config b) (row_text ctx config b)
                (range 0 (ascii_height ctx))
                (fun s t y => emit_row_holds ctx config b s t y) _ _ H0) as [Hp Hl].
  cbn [app] in Hp, Hl. fold (frame_text ctx config b) in Hp, Hl.
  unfold emit_frame. cbn [buf_ptr stores load].
  split; [exact Hp|]. split; [|split].
  - intros i Hi. rewrite Hp.
    replace (Z.of_nat _ =? i) with false by (symmetry; apply Z.eqb_neq; lia).
    now apply Hl.
  - now rewrite Hp, Z.eqb_refl.
  - intros Hc Hin. unfold frame_text in Hin. apply in_flat_map in Hin.
    destruct Hin as (y & _ & Hin). unfold row_text in Hin.
    apply in_app_or in Hin. destruct Hin as [Hin|[Hin|[]]]; [|discriminate].
    apply in_flat_map in Hin. destruct Hin as (x & _ & Hin).
    unfold cell_bytes in Hin. destruct (use_color config).
    + unfold cell_text in Hin.
      repeat (apply in_app_or in Hin; destruct Hin as [Hin|Hin]);
        try (cbn in Hin; intuition discriminate);
        try (match type of Hin with
             | In _ (decimal (u8 ?c)) =>
                 pose proof (decimal_not_nul c) as Hd;
                 rewrite forallb_forall in Hd; specialize (Hd _ Hin);
                 discriminate Hd
             end).
      destruct Hin as [Hin|[]]. exact (Hc _ Hin).
    + destruct Hin as [Hin|[]]. exact (Hc _ Hin).
Qed.

End ConsoleText.

(** ** The image the glyph compositor draws *)

Section GlyphImage.

Import Blit.

(** A loop whose every step either leaves an address alone or stores the
    value [target] prescribes for it. *)
Lemma fold_writes {A : Type} (step : (Z -> byte) -> A -> Z -> byte)
    (hit : A -> Z -> bool) (target : Z -> byte) (l : list A) :
  (forall img a j, In a l ->
     step img a j = if hit a j then target j else img j) ->
  forall img j,
    fold_left step l img j
    = if existsb (fun a => hit a j) l then target j else img j.
Proof.
  induction l as [|a l IH]; intros Hstep img j; [reflexivity|].
  cbn [fold_left existsb].
  rewrite IH by (intros img' a' j' Ha'; apply Hstep; now right).
  rewrite (Hstep img a j (or_introl eq_refl)).
  destruct (hit a j), (existsb (fun a0 => hit a0 j) l); reflexivity.
Qed.

Lemma div3_cases (j p : Z) :
  j / 3 = p <-> j = p * 3 + 0 \/ j = p * 3 + 1 \/ j = p * 3 + 2.
Proof.
  pose proof (Z.div_mod j 3 ltac:(lia)).
  pose proof (Z.mod_pos_bound j 3 ltac:(lia)). lia.
Qed.

Lemma plot_at (font8x8_basic : Z -> list byte) (ctx : ProcessingContext)
    (config : EngineConfig) (b : Buffers) (y x gy gx : Z) (buf : Z -> byte) (j : Z) :
  plot ctx x y (cell_glyph font8x8_basic b (y * ascii_width ctx + x))
       (glyph_color config b (y * ascii_width ctx + x)) gy buf gx j
  = if hits font8x8_basic ctx b (y, x) gy gx j
    then Tile.channel (j mod 3) (glyph_color config b (y * ascii_width ctx + x))
    else buf j.
Proof.
  unfold plot, hits. cbn [fst snd].
  destruct (glyph_bit _ gy gx); [|reflexivity]. cbn [andb].
  destruct (glyph_color config b (y * ascii_width ctx + x)) as [[r g] bl].
  set (p := (y * 8 + gy) * out_img_width ctx + (x * 8 + gx)).
  unfold store, Tile.channel.
  pose proof (div3_cases j p) as Hd.
  pose proof (Z.div_mod j 3 ltac:(lia)) as Hdm.
  pose proof (Z.mod_pos_bound j 3 ltac:(lia)) as Hm.
  destruct (j / 3 =? p) eqn:E; [apply Z.eqb_eq in E|apply Z.eqb_neq in E].
  - destruct (j =? p * 3 + 2) eqn:E2;
      [apply Z.eqb_eq in E2|apply Z.eqb_neq in E2].
    { replace (j mod 3) with 2 by lia. reflexivity. }
    destruct (j =? p * 3 + 1) eqn:E1;
      [apply Z.eqb_eq in E1|apply Z.eqb_neq in E1].
    { replace (j mod 3) with 1 by lia. reflexivity. }
    destruct (j =? p * 3 + 0) eqn:E0;
      [apply Z.eqb_eq in E0|apply Z.eqb_neq in E0].
    { replace (j mod 3) with 0 by lia. reflexivity. }
    lia.
  - destruct (j =? p * 3 + 2) eqn:E2; [apply Z.eqb_eq in E2; lia|].
    destruct (j =? p * 3 + 1) eqn:E1; [apply Z.eqb_eq in E1; lia|].
    destruct (j =? p * 3 + 0) eqn:E0; [apply Z.eqb_eq in E0; lia|reflexivity].
Qed.

(** The cell and the position inside its glyph that own a pixel. *)
Lemma pixel_decode (ctx : ProcessingContext) (y x gy gx p : Z) :
  0 <= x < ascii_width ctx -> 0 <= gy < 8 -> 0 <= gx < 8 ->
  p = (y * 8 + gy) * out_img_width ctx + (x * 8 + gx) ->
  y = p / out_img_width ctx / 8 /\ gy = (p / out_img_width ctx) mod 8 /\
  x = p mod out_img_width ctx / 8 /\ gx = (p mod out_img_width ctx) mod 8.
Proof.
  unfold out_img_width. intros Hx Hgy Hgx ->.
  assert (Hin : 0 <= x * 8 + gx < ascii_width ctx * 8) by lia.
  assert (Hq : ((y * 8 + gy) * (ascii_width ctx * 8) + (x * 8 + gx))
               / (ascii_width ctx * 8) = y * 8 + gy).
  { rewrite Z.add_comm, Z.div_add, Z.div_small by lia. lia. }
  assert (Hr : ((y * 8 + gy) * (ascii_width ctx * 8) + (x * 8 + gx))
               mod (ascii_width ctx * 8) = x * 8 + gx).
  { rewrite Z.add_comm, Z.mod_add by lia. now apply Z.mod_small. }
  rewrite Hq, Hr.
  repeat split.
  - rewrite Z.add_comm, Z.div_add, Z.div_small by lia. lia.
  - rewrite Z.add_comm, Z.mod_add by lia. symmetry. now apply Z.mod_small.
  - rewrite Z.add_comm, Z.div_add, Z.div_small by lia. lia.
  - rewrite Z.add_comm, Z.mod_add by lia. symmetry. now apply Z.mod_small.
Qed.

Lemma cell_hit_iff (font8x8_basic : Z -> list byte) (ctx : ProcessingContext)
    (b : Buffers) (c : Z * Z) (j : Z) :
  cell_hit font8x8_basic ctx b c j = true <->
  exists gy gx, 0 <= gy < 8 /\ 0 <= gx < 8 /\
                hits font8x8_basic ctx b c gy gx j = true.
Proof.
  unfold cell_hit. rewrite existsb_exists. split.
  - intros (gy & Hgy & E). apply existsb_exists in E.
    destruct E as (gx & Hgx & E). apply range_In in Hgy, Hgx.
    exists gy, gx. auto.
  - intros (gy & gx & Hgy & Hgx & E). exists gy.
    split; [apply range_In; lia|]. apply existsb_exists. exists gx.
    split; [apply range_In; lia|exact E].
Qed.

Lemma blit_cell_at (font8x8_basic : Z -> list byte) (ctx : ProcessingContext)
    (config : EngineConfig) (b : Buffers) (c : Z * Z) (buf : Z -> byte) (j : Z) :
  0 <= snd c < ascii_width ctx ->
  blit_cell font8x8_basic ctx config b buf c j
  = if cell_hit font8x8_basic ctx b c j
    then Tile.channel (j mod 3) (glyph_color config b (owner ctx j))
    else buf j.
Proof.
  destruct c as [y x]. cbn [snd]. intros Hx. unfold blit_cell.
  rewrite (fold_writes _
             (fun gy j => existsb (fun gx => hits font8x8_basic ctx b (y, x) gy gx j)
                                  (range 0 8))
             (fun j => Tile.channel (j mod 3)
                         (glyph_color config b (y * ascii_width ctx + x)))).
  - fold (cell_hit font8x8_basic ctx b (y, x) j).
    destruct (cell_hit font8x8_basic ctx b (y, x) j) eqn:E; [|reflexivity].
    apply cell_hit_iff in E. destruct E as (gy & gx & Hgy & Hgx & E).
    unfold hits in E. cbn [fst snd] in E.
    apply andb_prop in E. destruct E as [_ E]. apply Z.eqb_eq in E.
    destruct (pixel_decode ctx y x gy gx (j / 3) Hx Hgy Hgx E) as (Hy' & _ & Hx' & _).
    unfold owner. now rewrite <- Hy', <- Hx'.
  - intros img gy j' _.
    apply (fold_writes _ (fun gx j => hits font8x8_basic ctx b (y, x) gy gx j)
             (fun j => Tile.channel (j mod 3)
                         (glyph_color config b (y * ascii_width ctx + x)))).
    intros img' gx j'' _. apply plot_at.
Qed.

Lemma render_at (font8x8_basic : Z -> list byte) (ctx : ProcessingContext)
    (config : EngineConfig) (b : Buffers) (buf : Z -> byte) (j : Z) :
  render_ascii_to_buffer font8x8_basic ctx config b buf j
  = if existsb (fun c => cell_hit font8x8_basic ctx b c j)
               (Tile.worker_cells ctx 0 (ascii_height ctx))
    then Tile.channel (j mod 3) (glyph_color config b (owner ctx j))
    else memset0 buf (image_size ctx) j.
Proof.
  unfold render_ascii_to_buffer.
  apply (fold_writes _ (cell_hit font8x8_basic ctx b)
           (fun j => Tile.channel (j mod 3) (glyph_color config b (owner ctx j)))).
  intros img [y x] j' Hin. apply blit_cell_at. cbn [snd].
  apply worker_cells_In in Hin. lia.
Qed.

(** X9: the glyph compositor draws a [8w] by [8h] RGB image in which
    the pixel [(X, Y)] belongs to the cell in row [Y / 8], column
    [X / 8]: it carries that cell's colour, after the saturation and
    brightness stages, if bit [7 - X mod 8] of row [Y mod 8] of the
    cell's glyph is set, and is black otherwise.  Nothing is stored
    outside the [3 * 8w * 8h] bytes of the image.  The grid is assumed
    small enough for the [int] expressions of the image width and of the
    pixel offsets to be defined. *)
Theorem glyph_compositor_image (font8x8_basic : Z -> list byte)
    (ctx : ProcessingContext) (config : EngineConfig) (b : Buffers)
    (buffer : Z -> byte) :
  0 < ascii_width ctx -> 0 <= ascii_height ctx ->
  out_img_width ctx <= INT_MAX ->
  3 * (out_img_width ctx * out_img_height ctx) <= INT_MAX ->
  let image := render_ascii_to_buffer font8x8_basic ctx config b buffer in
  (forall X Y k,
     0 <= X < out_img_width ctx -> 0 <= Y < out_img_height ctx -> 0 <= k < 3 ->
     let art_idx := Y / 8 * ascii_width ctx + X / 8 in
     image ((Y * out_img_width ctx + X) * 3 + k)
     = if glyph_bit (cell_glyph font8x8_basic b art_idx) (Y mod 8) (X mod 8)
       then Tile.channel k (glyph_color config b art_idx)
       else x00) /\
  (forall j, ~ (0 <= j < 3 * (out_img_width ctx * out_img_height ctx)) ->
     image j = buffer j).
Proof.
  intros Hw Hh HWint Hint image. unfold image. clear image.
  assert (HW : out_img_width ctx = ascii_width ctx * 8) by reflexivity.
  assert (HH : out_img_height ctx = ascii_height ctx * 8) by reflexivity.
  assert (Hsize : image_size ctx = 3 * (out_img_width ctx * out_img_height ctx)).
  { unfold image_size, Size.mul, Size.wrap, Size.modulus.
    unfold INT_MAX in Hint, HWint.
    assert (0 <= out_img_width ctx * out_img_height ctx) by nia.
    assert (out_img_height ctx <= out_img_width ctx * out_img_height ctx) by nia.
    rewrite (Z.mod_small (out_img_width ctx)) by lia.
    rewrite (Z.mod_small (out_img_height ctx)) by lia.
    rewrite (Z.mod_small (out_img_width ctx * out_img_height ctx)) by lia.
    rewrite Z.mod_small by lia. lia. }
  split.
  - intros X Y k HX HY Hk. cbv zeta.
    set (art_idx := Y / 8 * ascii_width ctx + X / 8).
    set (j := (Y * out_img_width ctx + X) * 3 + k).
    assert (Hj3 : j / 3 = Y * out_img_width ctx + X)
      by (apply div3_cases; unfold j; lia).
    assert (Hjm : j mod 3 = k).
    { unfold j. rewrite Z.add_comm, Z.mod_add by lia. now apply Z.mod_small. }
    assert (Hq : j / 3 / out_img_width ctx = Y).
    { rewrite Hj3, Z.add_comm, Z.div_add, Z.div_small by lia. lia. }
    assert (Hr : (j / 3) mod out_img_width ctx = X).
    { rewrite Hj3, Z.add_comm, Z.mod_add by lia. now apply Z.mod_small. }
    assert (Hown : owner ctx j = art_idx)
      by (unfold owner, art_idx; now rewrite Hq, Hr).
    rewrite render_at, Hown, Hjm.
    pose proof (Z.div_mod X 8 ltac:(lia)) as HdX.
    pose proof (Z.mod_pos_bound X 8 ltac:(lia)) as HmX.
    pose proof (Z.div_mod Y 8 ltac:(lia)) as HdY.
    pose proof (Z.mod_pos_bound Y 8 ltac:(lia)) as HmY.
    destruct (glyph_bit _ (Y mod 8) (X mod 8)) eqn:Ebit.
    + replace (existsb _ _) with true; [reflexivity|]. symmetry.
      apply existsb_exists. exists (Y / 8, X / 8). split.
      * apply worker_cells_In. lia.
      * apply cell_hit_iff. exists (Y mod 8), (X mod 8).
        split; [lia|]. split; [lia|]. unfold hits. cbn [fst snd].
        fold art_idx. rewrite Ebit. cbn [andb]. apply Z.eqb_eq. rewrite Hj3. lia.
    + destruct (existsb _ _) eqn:E.
      * exfalso. apply existsb_exists in E. destruct E as ([y x] & Hin & E).
        apply worker_cells_In in Hin.
        apply cell_hit_iff in E. destruct E as (gy & gx & Hgy & Hgx & E).
        unfold hits in E. cbn [fst snd] in E. apply andb_prop in E.
        destruct E as [Eb E]. apply Z.eqb_eq in E.
        destruct (pixel_decode ctx y x gy gx (j / 3) ltac:(lia) Hgy Hgx E)
          as (Hy' & Hgy' & Hx' & Hgx').
        rewrite Hq in Hy', Hgy'. rewrite Hr in Hx', Hgx'.
        subst y x gy gx. fold art_idx in Eb. congruence.
      * unfold memset0. rewrite Hsize.
        replace ((0 <=? j) && (j <? 3 * (out_img_width ctx * out_img_height ctx)))
          with true; [reflexivity|].
        symmetry. apply andb_true_intro. split; [apply Z.leb_le|apply Z.ltb_lt];
          unfold j; nia.
  - intros j Hj. rewrite render_at.
    destruct (existsb _ _) eqn:E.
    + exfalso. apply existsb_exists in E. destruct E as ([y x] & Hin & E).
      apply worker_cells_In in Hin.
      apply cell_hit_iff in E. destruct E as (gy & gx & Hgy & Hgx & E).
      unfold hits in E. cbn [fst snd] in E. apply andb_prop in E.
      destruct E as [_ E]. apply Z.eqb_eq in E.
      pose proof (Z.div_mod j 3 ltac:(lia)) as Hdm.
      pose proof (Z.mod_pos_bound j 3 ltac:(lia)) as Hm.
      apply Hj. rewrite HW, HH in *. nia.
    + unfold memset0. rewrite Hsize.
      destruct ((0 <=? j) && (j <? _)) eqn:Eb; [|reflexivity].
      apply andb_prop in Eb. destruct Eb as [E1 E2].
      apply Z.leb_le in E1. apply Z.ltb_lt in E2. lia.
Qed.

Lemma glyph_compositor_image_witness :
  let image := render_ascii_to_buffer (fun _ => repeat xff 8)
                 (Examples.half_split_ctx Luts.powf_ref)
                 Examples.default_config Examples.blank_buffers (fun _ => xff) in
  image 0 = x00 /\ image (-1) = xff.
Proof.
  destruct (glyph_compositor_image (fun _ => repeat xff 8)
              (Examples.half_split_ctx Luts.powf_ref)
              Examples.default_config Examples.blank_buffers (fun _ => xff))
    as [Hin Hout]; [cbn; lia | cbn; lia | cbn; unfold INT_MAX; lia
                   | cbn; unfold INT_MAX; lia |].
  split.
  - exact (Hin 0 0 0 ltac:(cbn; lia) ltac:(cbn; lia) ltac:(lia)).
  - apply Hout. cbn. lia.
Defined.

End GlyphImage.

(** ** The SSE helpers *)

Section SimdHelpers.

Import Simd.

Lemma byte_of_u8 (a : byte) : byte_of (u8 a) = a.
Proof. destruct a; reflexivity. Qed.

Lemma or_zero_r (a : byte) : byte_of (Z.lor (u8 a) (u8 x00)) = a.
Proof. change (u8 x00) with 0. rewrite Z.lor_0_r. apply byte_of_u8. Qed.

Lemma or_zero_l (a : byte) : byte_of (Z.lor (u8 x00) (u8 a)) = a.
Proof. change (u8 x00) with 0. rewrite Z.lor_0_l. apply byte_of_u8. Qed.

(** X10: what [load_and_interleave_8_pixels_to_3_planes] computes from
    the packed bytes [m 0, m 1, ...] at [p] (pixel [n] is [m (3n)],
    [m (3n+1)], [m (3n+2)]).  Lanes 0 to 4 of the three planes are the
    red, green and blue bytes of pixels 0 to 4, and lane 5 of the red
    plane is the red byte of pixel 5.  The planes are not those of eight
    pixels: lane 5 of the green plane is the red byte of pixel 0, and lane
    6 of the red plane and lane 5 of the blue plane are the bitwise OR of
    two bytes of different pixels.  The vector returned is the sixteen
    bytes at [p + 24], so the function reads the forty bytes [p[0..39]]. *)
Theorem load_and_interleave_lanes (mem : list byte) (p : Z) :
  let m := fun i => byte_at mem (p + i) in
  let out := load_and_interleave_8_pixels_to_3_planes mem p in
  let r := fst (fst (fst out)) in
  let g := snd (fst (fst out)) in
  let b := snd (fst out) in
  map (lane r) [0; 1; 2; 3; 4; 5] = map m [0; 3; 6; 9; 12; 15] /\
  map (lane g) [0; 1; 2; 3; 4] = map m [1; 4; 7; 10; 13] /\
  map (lane b) [0; 1; 2; 3; 4] = map m [2; 5; 8; 11; 14] /\
  lane g 5 = m 0 /\
  lane r 6 = byte_of (Z.lor (u8 (m 1)) (u8 (m 31))) /\
  lane b 5 = byte_of (Z.lor (u8 (m 1)) (u8 (m 17))) /\
  snd out = map m (range 24 40).
Proof.
  intros m out r g b.
  split; [|split; [|split; [|split; [|split; [|split]]]]].
  - transitivity (map (fun a => byte_of (Z.lor (u8 a) (u8 x00)))
                      (map m [0; 3; 6; 9; 12; 15])); [reflexivity|].
    cbn [map]. now rewrite !or_zero_r.
  - transitivity (map (fun a => byte_of (Z.lor (u8 a) (u8 x00)))
                      (map m [1; 4; 7; 10; 13])); [reflexivity|].
    cbn [map]. now rewrite !or_zero_r.
  - transitivity (map (fun a => byte_of (Z.lor (u8 a) (u8 x00)))
                      (map m [2; 5; 8; 11; 14])); [reflexivity|].
    cbn [map]. now rewrite !or_zero_r.
  - transitivity (byte_of (Z.lor (u8 (m 0)) (u8 x00))); [reflexivity|].
    apply or_zero_r.
  - transitivity (byte_of (Z.lor (u8 (m 1)) (u8 (byte_at mem (p + 16 + 15)))));
      [reflexivity|].
    unfold m. do 4 f_equal. lia.
  - transitivity (byte_of (Z.lor (u8 (m 1)) (u8 (byte_at mem (p + 16 + 1)))));
      [reflexivity|].
    unfold m. do 4 f_equal. lia.
  - transitivity (map (fun i => byte_at mem (p + 24 + i)) (range 0 16));
      [reflexivity|].
    change (range 24 40) with (map (fun i => 24 + i) (range 0 16)).
    rewrite map_map. apply map_ext. intros i. unfold m. f_equal. lia.
Qed.

Lemma epi32_low (a : m128i) (i : Z) :
  lane a (4 * i + 1) = x00 -> lane a (4 * i + 2) = x00 ->
  lane a (4 * i + 3) = x00 ->
  epi32 a i = u8 (lane a (4 * i)).
Proof.
  intros H1 H2 H3. unfold epi32. rewrite H1, H2, H3.
  change (u8 x00) with 0. rewrite !Z.mul_0_r, !Z.add_0_r.
  pose proof (u8_range (lane a (4 * i))) as Hr.
  replace (u8 (lane a (4 * i)) <? 2 ^ 31) with true; [reflexivity|].
  symmetry. apply Z.ltb_lt. lia.
Qed.

(** X11: [convert_uint8_to_float] converts eight of the sixteen bytes
    of its argument, and not the first eight: [out_lo] holds the bytes 0
    to 3 as floats and [out_hi] the bytes 12 to 15. *)
Theorem convert_uint8_to_float_lanes (v : m128i) :
  convert_uint8_to_float v
  = (map (fun i => of_int (u8 (lane v i))) [0; 1; 2; 3],
     map (fun i => of_int (u8 (lane v i))) [12; 13; 14; 15]).
Proof.
  unfold convert_uint8_to_float, _mm_cvtepi32_ps.
  change (range 0 4) with [0; 1; 2; 3]. cbn [map].
  rewrite !epi32_low by reflexivity. reflexivity.
Qed.

End SimdHelpers.

(** ** Nearest-neighbour sampling stays inside the source frame *)

Section Sampling.

Lemma digits2_pos_unique (m : positive) (k : Z) :
  2 ^ (k - 1) <= Zpos m < 2 ^ k -> Zpos (digits2_pos m) = k.
Proof.
  intros [Hlo Hhi]. destruct (digits2_pos_bounds m) as [Dlo Dhi].
  assert (Hk : 0 < k).
  { destruct (Z.le_gt_cases k 0) as [Hle|]; [|assumption]. exfalso.
    destruct (Z.eq_dec k 0) as [->|]; [simpl in Hhi; lia|].
    rewrite Z.pow_neg_r in Hhi by lia. lia. }
  apply Z.le_antisymm; [now apply digits2_pos_le|].
  destruct (Z.le_gt_cases k (Zpos (digits2_pos m))) as [|Hgt]; [assumption|].
  exfalso.
  assert (2 ^ Zpos (digits2_pos m) <= 2 ^ (k - 1)) by (apply Z.pow_le_mono_r; lia).
  lia.
Qed.

Lemma shl_align_e (m : positive) (e e' : Z) :
  e' <= e -> snd (shl_align m e e') = e'.
Proof.
  intros H. unfold shl_align. destruct (e' - e) as [|p|p] eqn:E; simpl; lia.
Qed.

(** A positive integer below [2^24] converts to the float of the same
    value, with a significand of 24 digits. *)
Lemma of_int_exact (z : Z) :
  0 < z < 2 ^ 24 ->
  exists m e, of_int z = S754_finite false m e /\
              -23 <= e <= 0 /\ Zpos m = z * 2 ^ (- e) /\
              Zpos (digits2_pos m) = 24.
Proof.
  intros Hz. destruct z as [|p|p]; try lia.
  unfold of_int, binary_normalize, binary_round.
  destruct (digits2_pos_bounds p) as [Dlo Dhi].
  set (d := Zpos (digits2_pos p)) in *.
  assert (Hd : 1 <= d <= 24).
  { split; [unfold d; lia|]. apply digits2_pos_le. lia. }
  rewrite fexp_eq.
  replace (Z.max (d + 0 - 24) (-149)) with (d - 24) by lia.
  pose proof (shl_align_m p 0 (d - 24) ltac:(lia)) as Hm.
  pose proof (shl_align_e p 0 (d - 24) ltac:(lia)) as He.
  destruct (shl_align p 0 (d - 24)) as [mz ez]. cbn [fst snd] in Hm, He. subst ez.
  replace (0 - (d - 24)) with (24 - d) in Hm by lia.
  assert (Hdig : Zpos (digits2_pos mz) = 24).
  { apply digits2_pos_unique. rewrite Hm.
    assert (H23 : 2 ^ (24 - 1) = 2 ^ (d - 1) * 2 ^ (24 - d))
      by (rewrite <- Z.pow_add_r by lia; f_equal; lia).
    assert (H24 : 2 ^ 24 = 2 ^ d * 2 ^ (24 - d))
      by (rewrite <- Z.pow_add_r by lia; f_equal; lia).
    rewrite H23, H24.
    assert (0 < 2 ^ (24 - d)) by (apply Z.pow_pos_nonneg; lia).
    split; [apply Z.mul_le_mono_nonneg_r; lia|apply Z.mul_lt_mono_pos_r; lia]. }
  destruct (binary_round_aux_exact false mz (d - 24))
    as (e1 & e3 & m2 & m3 & He1 & _ & Hex & He3 & Hm3 & ->).
  rewrite Hdig, fexp_eq in He1.
  assert (E1 : e1 = d - 24) by lia.
  specialize (Hex E1). subst m2. cbn [Zdigits2] in He3.
  rewrite Hdig, fexp_eq in He3.
  assert (E3 : e3 = d - 24) by lia.
  rewrite E3, E1, Z.sub_diag, Z.pow_0_r, Z.div_1_r in Hm3. subst m3.
  replace (e3 <=? emax - prec) with true
    by (symmetry; apply Z.leb_le; unfold emax, prec; lia).
  exists mz, e3. split; [reflexivity|]. split; [lia|]. split; [|exact Hdig].
  rewrite Hm. f_equal. f_equal. lia.
Qed.

(** Rounding a positive value: the result is at most one unit of the
    rounding exponent above the value, whatever the location says. *)
Lemma binary_round_aux_upper (s : bool) (M : positive) (e : Z) (l : location) :
  let e1 := Z.max e (fexp prec emax (Zpos (digits2_pos M) + e)) in
  e1 + 1 <= emax - prec ->
  binary_round_aux prec emax s (Zpos M) e l = S754_zero s \/
  exists m3 e3,
    binary_round_aux prec emax s (Zpos M) e l = S754_finite s m3 e3 /\
    e1 <= e3 <= e1 + 1 /\
    Zpos m3 * 2 ^ (e3 - e) <= Zpos M + 2 ^ (e1 - e).
Proof.
  intros e1 Hfin. unfold binary_round_aux.
  destruct (shr_fexp_spec (Zpos M) e l ltac:(lia)) as (He1 & Hm1 & _).
  destruct (shr_fexp prec emax (Zpos M) e l) as [mrs' e1'] eqn:E1.
  cbn [fst snd Zdigits2] in He1, Hm1. fold e1 in He1, Hm1. subst e1'.
  set (m2 := round_nearest_even (shr_m mrs') (loc_of_shr_record mrs')).
  assert (Hm2 : shr_m mrs' <= m2 <= shr_m mrs' + 1) by apply round_nearest_even_range.
  assert (He1e : e <= e1) by (unfold e1; lia).
  assert (Hp1 : 0 < 2 ^ (e1 - e)) by (apply Z.pow_pos_nonneg; lia).
  assert (H0 : 0 <= shr_m mrs') by (rewrite Hm1; apply Z.div_pos; lia).
  destruct (shr_fexp_spec m2 e1 loc_Exact ltac:(lia)) as (He3 & Hm3 & _).
  destruct (shr_fexp prec emax m2 e1 loc_Exact) as [mrs'' e3] eqn:E3.
  cbn [fst snd] in He3, Hm3. rewrite <- He3 in Hm3.
  destruct (digits2_pos_bounds M) as [_ HM].
  set (d := Zpos (digits2_pos M)) in *.
  rewrite fexp_eq in He3.
  assert (He1d : d + e - 24 <= e1) by (unfold e1; rewrite fexp_eq; lia).
  (* the mantissa after the first rounding has at most 24 + ... digits *)
  assert (Hq : shr_m mrs' * 2 ^ (e1 - e) <= Zpos M).
  { rewrite Hm1. rewrite Z.mul_comm. apply Z.mul_div_le. exact Hp1. }
  assert (He1m : -149 <= e1) by (unfold e1; rewrite fexp_eq; lia).
  assert (Hd2 : Zdigits2 m2 <= 25).
  { assert (Zdigits2 m2 <= Z.max 0 (d + e - e1) + 1); [|lia].
    apply Zdigits2_le; [|lia].
    split; [lia|].
    assert (Hs : shr_m mrs' < 2 ^ Z.max 0 (d + e - e1)).
    { rewrite Hm1. apply Z.div_lt_upper_bound; [exact Hp1|].
      rewrite <- Z.pow_add_r by lia.
      apply Z.lt_le_trans with (2 ^ d); [exact HM|].
      apply Z.pow_le_mono_r; lia. }
    rewrite Z.pow_add_r by lia. change (2 ^ 1) with 2. lia. }
  assert (He3' : e1 <= e3 <= e1 + 1) by (fold prec in He3; unfold prec in *; lia).
  assert (Hp3 : 0 < 2 ^ (e3 - e1)) by (apply Z.pow_pos_nonneg; lia).
  assert (Hm3' : shr_m mrs'' * 2 ^ (e3 - e1) <= m2).
  { rewrite Hm3. rewrite Z.mul_comm. apply Z.mul_div_le. exact Hp3. }
  assert (Hge : 0 <= shr_m mrs'').
  { rewrite Hm3. apply Z.div_pos; [lia|]. apply Z.pow_pos_nonneg; lia. }
  destruct (shr_m mrs'') as [|m3|m3] eqn:Em3; [now left| |lia].
  right. exists m3, e3.
  replace (e3 <=? emax - prec) with true by (symmetry; apply Z.leb_le; lia).
  split; [reflexivity|]. split; [exact He3'|].
  replace (e3 - e) with ((e3 - e1) + (e1 - e)) by lia.
  rewrite Z.pow_add_r by lia.
  remember (2 ^ (e3 - e1)) as a. remember (2 ^ (e1 - e)) as c.
  remember (shr_m mrs') as t.
  assert (Zpos m3 * a * c <= m2 * c) by (apply Z.mul_le_mono_nonneg_r; lia).
  nia.
Qed.

Lemma div_core_pos (m1 m2 : positive) (e1 e2 : Z) :
  let e' := Z.min (fexp prec emax (Zpos (digits2_pos m1) + e1
                                   - (Zpos (digits2_pos m2) + e2)))
                  (e1 - e2) in
  exists q l,
    SFdiv_core_binary prec emax (Zpos m1) e1 (Zpos m2) e2 = (q, e', l) /\
    q = Zpos m1 * 2 ^ (e1 - e2 - e') / Zpos m2.
Proof.
  intros e'. unfold SFdiv_core_binary. cbn [Zdigits2]. fold e'.
  assert (Hs : 0 <= e1 - e2 - e') by (unfold e'; lia).
  set (m' := match e1 - e2 - e' with
             | 0 => Zpos m1
             | Zpos _ => Z.shiftl (Zpos m1) (e1 - e2 - e')
             | Zneg _ => 0
             end).
  assert (Hm' : m' = Zpos m1 * 2 ^ (e1 - e2 - e')).
  { unfold m'. destruct (e1 - e2 - e') as [|s|s] eqn:E.
    - rewrite Z.pow_0_r. lia.
    - now rewrite Z.shiftl_mul_pow2 by lia.
    - lia. }
  destruct (Z.div_eucl m' (Zpos m2)) as [q r] eqn:E.
  exists q, (new_location (Zpos m2) r). split; [reflexivity|].
  rewrite <- Hm'. unfold Z.div. now rewrite E.
Qed.

(** The quotient of two integers [0 < x < aw], as a float, is at most
    [x / aw + 2^-24]. *)
Lemma div_ints_upper (x aw : Z) :
  0 < x < aw -> aw <= 2 ^ 21 ->
  div (of_int x) (of_int aw) = S754_zero false \/
  exists m e,
    div (of_int x) (of_int aw) = S754_finite false m e /\ e <= -23 /\
    Zpos m * aw * 2 ^ 24 <= (x * 2 ^ 24 + aw) * 2 ^ (- e).
Proof.
  intros Hx Haw.
  destruct (of_int_exact x ltac:(lia)) as (m1 & e1 & -> & He1 & Hm1 & Hd1).
  destruct (of_int_exact aw ltac:(lia)) as (m2 & e2 & -> & He2 & Hm2 & Hd2).
  unfold div, SFdiv.
  destruct (div_core_pos m1 m2 e1 e2) as (q & l & -> & Hq).
  rewrite Hd1, Hd2, fexp_eq in *.
  replace (Z.min (Z.max (24 + e1 - (24 + e2) - 24) (-149)) (e1 - e2))
    with (e1 - e2 - 24) in * by lia.
  replace (e1 - e2 - (e1 - e2 - 24)) with 24 in Hq by lia.
  set (e' := e1 - e2 - 24) in *.
  destruct (digits2_pos_bounds m1) as [L1 U1], (digits2_pos_bounds m2) as [L2 U2].
  rewrite Hd1 in L1, U1. rewrite Hd2 in L2, U2. change (24 - 1) with 23 in L1, L2.
  assert (P1 : 0 < 2 ^ (- e1)) by (apply Z.pow_pos_nonneg; lia).
  assert (P2 : 0 < 2 ^ (- e2)) by (apply Z.pow_pos_nonneg; lia).
  (* x < aw puts the exponent of x at or below that of aw *)
  assert (He12 : e1 <= e2).
  { destruct (Z.le_gt_cases e1 e2) as [|Hgt]; [assumption|]. exfalso.
    assert (H2 : 2 ^ (- e2) = 2 ^ (e1 - e2) * 2 ^ (- e1))
      by (rewrite <- Z.pow_add_r by lia; f_equal; lia).
    assert (H3 : 2 <= 2 ^ (e1 - e2))
      by (change 2 with (2 ^ 1) at 1; apply Z.pow_le_mono_r; lia).
    remember (2 ^ (- e1)) as a. remember (2 ^ (- e2)) as b.
    remember (2 ^ (e1 - e2)) as c. nia. }
  assert (He' : e' <= -24) by (unfold e'; lia).
  assert (Pe : 0 < 2 ^ (- e')) by (apply Z.pow_pos_nonneg; lia).
  assert (Hpow : 2 ^ (- e') * 2 ^ (- e2) = 2 ^ 24 * 2 ^ (- e1)).
  { rewrite <- !Z.pow_add_r by lia. f_equal. unfold e'. lia. }
  assert (Hqm : q * Zpos m2 <= Zpos m1 * 2 ^ 24)
    by (rewrite Hq, Z.mul_comm; apply Z.mul_div_le; lia).
  assert (Hq1 : 1 <= q).
  { rewrite Hq. apply Z.div_le_lower_bound; lia. }
  assert (Hqa : q * aw <= x * 2 ^ (- e')).
  { rewrite Hm1, Hm2 in Hqm.
    assert (q * aw * 2 ^ (- e2) <= x * 2 ^ (- e') * 2 ^ (- e2)).
    { replace (x * 2 ^ (- e') * 2 ^ (- e2)) with (x * (2 ^ (- e') * 2 ^ (- e2))) by ring.
      rewrite Hpow. lia. }
    apply Z.mul_le_mono_pos_r with (2 ^ (- e2)); assumption. }
  assert (Hqlt : q < 2 ^ (- e')).
  { remember (2 ^ (- e')) as t. nia. }
  destruct q as [|pq|pq]; try lia.
  assert (Hdq : Zpos (digits2_pos pq) + e' <= 0).
  { assert (Zpos (digits2_pos pq) <= - e') by (apply digits2_pos_le; exact Hqlt). lia. }
  pose proof (binary_round_aux_upper false pq e' l) as Hr. cbv zeta in Hr.
  rewrite fexp_eq in Hr.
  set (e1r := Z.max e' (Z.max (Zpos (digits2_pos pq) + e' - 24) (-149))) in *.
  assert (He1r : e' <= e1r <= -24) by (unfold e1r; lia).
  cbn [xorb].
  destruct Hr as [Hz|(m3 & e3 & Hr & He3 & Hb)];
    [unfold emax, prec; lia | left; exact Hz |].
  right. exists m3, e3. split; [exact Hr|]. split; [lia|].
  assert (PA : 0 < 2 ^ (e3 - e')) by (apply Z.pow_pos_nonneg; lia).
  assert (PB : 0 < 2 ^ (- e3)) by (apply Z.pow_pos_nonneg; lia).
  assert (HAB : 2 ^ (e3 - e') * 2 ^ (- e3) = 2 ^ (- e'))
    by (rewrite <- Z.pow_add_r by lia; f_equal; lia).
  assert (HU : 2 ^ (e1r - e') * 2 ^ 24 <= 2 ^ (- e')).
  { rewrite <- Z.pow_add_r by lia. apply Z.pow_le_mono_r; lia. }
  remember (2 ^ (e3 - e')) as A. remember (2 ^ (- e3)) as B.
  remember (2 ^ (- e')) as T. remember (2 ^ (e1r - e')) as U.
  clear - Hb Hqa HAB HU PA PB Hx.
  apply Z.mul_le_mono_pos_r with A; [exact PA|].
  assert (H1 : Zpos m3 * A * aw * 2 ^ 24 <= (Zpos pq + U) * aw * 2 ^ 24)
    by (apply Z.mul_le_mono_nonneg_r; [lia|apply Z.mul_le_mono_nonneg_r; lia]).
  assert (H2 : U * 2 ^ 24 * aw <= T * aw) by (apply Z.mul_le_mono_nonneg_r; lia).
  assert (H3 : Zpos pq * aw * 2 ^ 24 <= x * T * 2 ^ 24)
    by (apply Z.mul_le_mono_nonneg_r; lia).
  replace ((x * 2 ^ 24 + aw) * B * A) with (x * 2 ^ 24 * (A * B) + aw * (A * B)) by ring.
  rewrite HAB. lia.
Qed.

(** A float of value at most [1 - 2^-22], multiplied by an integer
    [W < 2^24] and truncated, stays below [W]. *)
Lemma mul_ratio_below (m : positive) (e W : Z) :
  e <= -23 -> Zpos m * 2 ^ 22 <= (2 ^ 22 - 1) * 2 ^ (- e) ->
  0 < W < 2 ^ 24 ->
  0 <= to_int (mul (S754_finite false m e) (of_int W)) < W.
Proof.
  intros He Hm HW.
  destruct (of_int_exact W HW) as (mW & eW & -> & HeW & HmW & _).
  unfold mul, SFmul. cbn [xorb].
  set (E := e + eW).
  assert (PT : 2 ^ 23 <= 2 ^ (- E)) by (apply Z.pow_le_mono_r; unfold E; lia).
  assert (HT : 2 ^ (- E) = 2 ^ (- e) * 2 ^ (- eW))
    by (rewrite <- Z.pow_add_r by lia; f_equal; unfold E; lia).
  assert (Pe : 0 < 2 ^ (- e)) by (apply Z.pow_pos_nonneg; lia).
  assert (PeW : 0 < 2 ^ (- eW)) by (apply Z.pow_pos_nonneg; lia).
  (* the exact product, against W *)
  assert (HM : Zpos (m * mW) * 2 ^ 22 <= (2 ^ 22 - 1) * (W * 2 ^ (- E))).
  { rewrite Pos2Z.inj_mul, HmW, HT.
    replace (Zpos m * (W * 2 ^ (- eW)) * 2 ^ 22)
      with (Zpos m * 2 ^ 22 * (W * 2 ^ (- eW))) by ring.
    replace ((2 ^ 22 - 1) * (W * (2 ^ (- e) * 2 ^ (- eW))))
      with ((2 ^ 22 - 1) * 2 ^ (- e) * (W * 2 ^ (- eW))) by ring.
    apply Z.mul_le_mono_nonneg_r; [lia|exact Hm]. }
  set (M := (m * mW)%positive) in *.
  assert (HMlt : Zpos M < 2 ^ (24 - E)).
  { replace (24 - E) with (24 + - E) by lia. rewrite Z.pow_add_r by (unfold E; lia).
    remember (2 ^ (- E)) as T. nia. }
  assert (Hd : Zpos (digits2_pos M) + E <= 24).
  { assert (Zpos (digits2_pos M) <= 24 - E) by (apply digits2_pos_le; exact HMlt). lia. }
  pose proof (binary_round_aux_upper false M E loc_Exact) as Hr. cbv zeta in Hr.
  rewrite fexp_eq in Hr.
  destruct (digits2_pos_bounds M) as [DL _].
  set (d := Zpos (digits2_pos M)) in *.
  set (e1 := Z.max E (Z.max (d + E - 24) (-149))) in *.
  assert (He1 : E <= e1 <= 0) by (unfold e1, E in *; lia).
  destruct Hr as [Hz|(m3 & e3 & Hr & He3 & Hb)];
    [unfold emax, prec; lia | rewrite Hz; cbn; lia |].
  rewrite Hr.
  (* one unit of the rounding exponent does not reach W *)
  assert (Hstrict : Zpos M + 2 ^ (e1 - E) < W * 2 ^ (- E)).
  { destruct (Z.eq_dec e1 E) as [Eq|Ne].
    - rewrite Eq, Z.sub_diag, Z.pow_0_r.
      remember (2 ^ (- E)) as T. nia.
    - destruct (Z.eq_dec e1 (d + E - 24)) as [Eq|Ne'].
      + assert (Hd24 : 24 < d) by lia.
        replace (e1 - E) with (d - 24) by lia.
        assert (H23 : 2 ^ (d - 1) = 2 ^ (d - 24) * 2 ^ 23)
          by (rewrite <- Z.pow_add_r by lia; f_equal; lia).
        assert (0 < 2 ^ (d - 24)) by (apply Z.pow_pos_nonneg; lia).
        remember (2 ^ (- E)) as T. remember (2 ^ (d - 24)) as u.
        remember (2 ^ (d - 1)) as v. nia.
      + assert (Eq : e1 = -149) by (unfold e1 in *; lia).
        assert (H149 : 2 ^ (e1 - E) * 2 ^ 22 < 2 ^ (- E)).
        { rewrite <- Z.pow_add_r by lia. apply Z.pow_lt_mono_r; lia. }
        remember (2 ^ (- E)) as T. remember (2 ^ (e1 - E)) as u. nia. }
  assert (Hlt : Zpos m3 * 2 ^ (e3 - E) < W * 2 ^ (- E)) by lia.
  unfold to_int, trunc.
  assert (Hv : 0 <= match e3 with
                    | Zneg p => Zpos m3 / 2 ^ Zpos p
                    | _ => Zpos m3 * 2 ^ e3
                    end < W).
  { destruct e3 as [|p|p].
    - rewrite Z.pow_0_r. rewrite Z.sub_0_l in Hlt.
      remember (2 ^ (- E)) as T. split; [lia|].
      apply Z.mul_lt_mono_pos_r with T; lia.
    - assert (H0 : 0 < 2 ^ Zpos p) by (apply Z.pow_pos_nonneg; lia).
      assert (HE : 2 ^ (Zpos p - E) = 2 ^ Zpos p * 2 ^ (- E))
        by (rewrite <- Z.pow_add_r by lia; f_equal; lia).
      rewrite HE in Hlt. remember (2 ^ (- E)) as T. remember (2 ^ Zpos p) as u.
      split; [lia|].
      apply Z.mul_lt_mono_pos_r with T; [lia|].
      replace (Zpos m3 * u * T) with (Zpos m3 * (u * T)) by ring. exact Hlt.
    - assert (H0 : 0 < 2 ^ Zpos p) by (apply Z.pow_pos_nonneg; lia).
      split; [apply Z.div_pos; lia|].
      apply Z.div_lt_upper_bound; [exact H0|].
      assert (HE : 2 ^ (- E) = 2 ^ Zpos p * 2 ^ (Zneg p - E)).
      { rewrite <- Z.pow_add_r by lia. f_equal. lia. }
      assert (0 < 2 ^ (Zneg p - E)) by (apply Z.pow_pos_nonneg; lia).
      rewrite HE in Hlt. remember (2 ^ (Zneg p - E)) as u. remember (2 ^ Zpos p) as v.
      apply Z.mul_lt_mono_pos_r with u; [assumption|].
      replace (Zneg p - E) with (Zneg p - E) in Hlt by reflexivity.
      replace (v * W * u) with (W * (v * u)) by ring. exact Hlt. }
  cbn [negb]. 
  replace ((INT_MIN <=? _) && (_ <=? INT_MAX)) with true; [exact Hv|].
  symmetry. apply andb_true_intro. unfold INT_MIN, INT_MAX.
  split; [apply Z.leb_le|apply Z.leb_le]; lia.
Qed.

(** [(int)((float)x / n * w)] for [0 <= x < n]: a coordinate of the
    source frame. *)
Lemma scale_in_range (x n w : Z) :
  0 <= x < n -> n <= 2 ^ 21 -> 0 < w < 2 ^ 24 ->
  0 <= to_int (mul (div (of_int x) (of_int n)) (of_int w)) < w.
Proof.
  intros Hx Hn Hw.
  destruct (of_int_exact w Hw) as (mW & eW & EW & _).
  assert (Hzero : 0 <= to_int (mul (S754_zero false) (of_int w)) < w)
    by (rewrite EW; cbn; lia).
  destruct (Z.eq_dec x 0) as [->|Hx0].
  - destruct (of_int_exact n ltac:(lia)) as (mn & en & En & _).
    change (of_int 0) with (S754_zero false). rewrite En.
    exact Hzero.
  - destruct (div_ints_upper x n ltac:(lia) Hn) as [->|(m & e & -> & He & Hb)];
      [exact Hzero|].
    apply mul_ratio_below; [exact He| |exact Hw].
    assert (Pe : 0 < 2 ^ (- e)) by (apply Z.pow_pos_nonneg; lia).
    remember (2 ^ (- e)) as T.
    assert (H1 : (x * 2 ^ 24 + n) * T <= n * (2 ^ 24 - 4) * T)
      by (apply Z.mul_le_mono_nonneg_r; lia).
    assert (H2 : n * (Zpos m * 2 ^ 24) <= n * ((2 ^ 24 - 4) * T)) by lia.
    apply Z.mul_le_mono_pos_l in H2; lia.
Qed.

(** X12: for a grid of at most [2^21] columns and rows and a source
    frame of fewer than [2^24] pixels each way, the source pixel of every
    cell, [((int)((float)x / ascii_width * width),
    (int)((float)y / ascii_height * height))], lies inside the frame:
    the binary32 rounding of the quotient and of the product never takes
    the coordinate up to [width] or [height].  So the centre sample of
    the Sobel window is that pixel itself, unclamped, and the three
    colour bytes the worker copies, which are read without a clamp, lie
    inside the rows of the frame whenever the stride covers a row. *)
Theorem source_pixel_in_frame (ctx : ProcessingContext) (x y : Z) :
  0 <= x < ascii_width ctx -> ascii_width ctx <= 2 ^ 21 ->
  0 <= y < ascii_height ctx -> ascii_height ctx <= 2 ^ 21 ->
  0 < dec_width ctx < 2 ^ 24 -> 0 < dec_height ctx < 2 ^ 24 ->
  0 <= Tile.source_x ctx x < dec_width ctx /\
  0 <= Tile.source_y ctx y < dec_height ctx /\
  Tile.sample_coord ctx (Tile.source_x ctx x) (Tile.source_y ctx y) (0, 0)
  = (Tile.source_x ctx x, Tile.source_y ctx y) /\
  (3 * dec_width ctx <= rgb_linesize ctx ->
   let off := Tile.source_y ctx y * rgb_linesize ctx + Tile.source_x ctx x * 3 in
   0 <= off /\ off + 2 < rgb_linesize ctx * dec_height ctx).
Proof.
  intros Hx Haw Hy Hah Hw Hh.
  pose proof (scale_in_range x (ascii_width ctx) (dec_width ctx) Hx Haw Hw) as Sx.
  pose proof (scale_in_range y (ascii_height ctx) (dec_height ctx) Hy Hah Hh) as Sy.
  fold (Tile.source_x ctx x) in Sx. fold (Tile.source_y ctx y) in Sy.
  split; [exact Sx|]. split; [exact Sy|]. split.
  - unfold Tile.sample_coord. cbn [fst snd]. rewrite !Z.add_0_r.
    rewrite !clamp_nearest by lia. f_equal; lia.
  - intros Hstride. cbv zeta. nia.
Qed.

Lemma source_pixel_in_frame_witness :
  0 <= Tile.source_x (Examples.half_split_ctx Luts.powf_ref) 3 < 4 /\
  0 <= Tile.source_y (Examples.half_split_ctx Luts.powf_ref) 3 < 4.
Proof.
  assert (H := fun a b c d e f =>
    source_pixel_in_frame (Examples.half_split_ctx Luts.powf_ref) 3 3 a b c d e f).
  refine ((fun H' => conj (proj1 H') (proj1 (proj2 H'))) (H _ _ _ _ _ _));
    cbn; lia.
Defined.

End Sampling.

(** ** The workers do not share output cells *)

Section DataRaces.

Import Frame.

(** X13: two different workers never store to the same place.  For a
    grid with columns, the cells of a worker with a lower index all come
    before the cells of a worker with a higher index, in rows and in
    buffer positions: every character index and every colour byte that
    worker [i] writes lies strictly below those that worker [j > i]
    writes.  (What the workers read, the frame and the lookup tables, is
    written by none of them.) *)
Theorem workers_write_disjoint (ctx : ProcessingContext) (n i j : Z)
    (c1 c2 : Z * Z) :
  0 < ascii_width ctx -> 0 <= ascii_height ctx ->
  0 <= i < j -> j < n ->
  In c1 (worker_steps ctx (band (ascii_height ctx) n i)) ->
  In c2 (worker_steps ctx (band (ascii_height ctx) n j)) ->
  let idx := fun c : Z * Z => fst c * ascii_width ctx + snd c in
  fst c1 < fst c2 /\ idx c1 < idx c2 /\ idx c1 * 3 + 2 < idx c2 * 3 + 0.
Proof.
  intros Hw Hh Hij Hjn H1 H2 idx. unfold idx. clear idx.
  destruct c1 as [y1 x1], c2 as [y2 x2]. cbn [fst snd].
  unfold worker_steps in H1, H2. apply worker_cells_In in H1, H2.
  unfold band in H1, H2. cbn [start_row end_row] in H1, H2.
  replace (i =? n - 1) with false in H1 by (symmetry; apply Z.eqb_neq; lia).
  assert (Hq : 0 <= Z.quot (ascii_height ctx) n)
    by (apply Z.quot_pos; lia).
  assert (Hy : y1 < y2) by nia.
  split; [exact Hy|]. nia.
Qed.

Lemma workers_write_disjoint_witness :
  let ctx := Examples.half_split_ctx Luts.powf_ref in
  In (0, 3) (worker_steps ctx (band (ascii_height ctx) 2 0)) /\
  In (2, 0) (worker_steps ctx (band (ascii_height ctx) 2 1)) /\
  0 * ascii_width ctx + 3 < 2 * ascii_width ctx + 0.
Proof.
  intros ctx.
  assert (H1 : In (0, 3) (worker_steps ctx (band (ascii_height ctx) 2 0)))
    by (apply worker_cells_In; cbn; lia).
  assert (H2 : In (2, 0) (worker_steps ctx (band (ascii_height ctx) 2 1)))
    by (apply worker_cells_In; cbn; lia).
  split; [exact H1|]. split; [exact H2|].
  exact (proj1 (proj2 (workers_write_disjoint ctx 2 0 1 (0, 3) (2, 0)
           ltac:(cbn; lia) ltac:(cbn; lia) ltac:(lia) ltac:(lia) H1 H2))).
Defined.

End DataRaces.

(** ** The colour stages at their limit settings *)

Section ColourLimits.

Import Compositor.

Lemma sub_add_opp (x y : f32) : sub x y = add x (SFopp y).
Proof.
  destruct x as [sx|sx| |sx mx ex], y as [sy|sy| |sy my ey];
    try reflexivity; destruct sx, sy; reflexivity.
Qed.

Lemma opp_bounded (k : Z) (y : f32) : bounded_by k y -> bounded_by k (SFopp y).
Proof. destruct y; simpl; auto. Qed.

(** The clamp of the saturation block, applied to a value. *)
Lemma saturate_channel_zero (l : f32) (c_in : byte) :
  bounded_by 14 l ->
  saturate_channel (S754_zero false) l c_in
  = if ltb f255 l then xff
    else if ltb l (of_int 0) then x00
    else to_uint8 l.
Proof.
  intros Hl. unfold saturate_channel.
  assert (Hc : bounded_by 14 (of_int (u8 c_in))).
  { apply (bounded_by_mono 9); [lia|].
    apply (of_int_bounded (u8 c_in) 8); [|lia].
    pose proof (u8_range c_in). change (2 ^ 8) with 256. lia. }
  pose proof (add_bounded _ _ 14 Hc (opp_bounded 14 l Hl) ltac:(lia)) as Hs.
  rewrite <- sub_add_opp in Hs.
  destruct (sub (of_int (u8 c_in)) l) as [s|s| |s m e]; try contradiction.
  - destruct l as [sl|sl| |sl ml el]; try contradiction.
    + destruct sl, s; reflexivity.
    + reflexivity.
  - destruct l as [sl|sl| |sl ml el]; try contradiction.
    + destruct sl, s; reflexivity.
    + reflexivity.
Qed.

Lemma brightness_channel_one (c : byte) : brightness_channel one c = c.
Proof. destruct c; reflexivity. Qed.

Lemma brightness_channel_zero (c : byte) :
  brightness_channel (S754_zero false) c = x00.
Proof. destruct c; reflexivity. Qed.

(** X14: the colour stages of the glyph compositor at their limit
    settings.  A brightness factor of 1.0 leaves every colour as it is,
    and so does the whole stage at the default settings (saturation 1.0,
    brightness 1.0); a brightness factor of 0.0 turns every colour
    black; a saturation factor of 0.0 turns every colour into a grey:
    the three channels all receive the luma of the colour, clamped and
    truncated the way the saturation block clamps.  The luma is
    [0.299f * r + 0.587f * g + 0.114f * b] as the build evaluates it: the
    product by [0.587f] rounded, the other two fused into the sums. *)
Theorem colour_stage_limits (config : EngineConfig) (c : rgb) :
  (brightness_factor config = one -> brightness_stage config c = c) /\
  (brightness_factor config = one -> saturation_factor config = one ->
   cell_pixel_color config c = c) /\
  (brightness_factor config = S754_zero false ->
   cell_pixel_color config c = (x00, x00, x00)) /\
  (saturation_factor config = S754_zero false ->
   let '(r, g, b) := c in
   let l := fma (lit 114 1000) (of_int (u8 b))
                (fma (lit 299 1000) (of_int (u8 r))
                     (mul (lit 587 1000) (of_int (u8 g)))) in
   let v := if ltb f255 l then xff
            else if ltb l (of_int 0) then x00
            else to_uint8 l in
   saturation_stage config c = (v, v, v)).
Proof.
  destruct c as [[r g] b]. split; [|split; [|split]].
  - intros Hb. unfold brightness_stage. rewrite Hb.
    now rewrite !brightness_channel_one.
  - intros Hb Hs. unfold cell_pixel_color, saturation_stage. rewrite Hs.
    change (negb (eqb one one)) with false. cbv iota.
    unfold brightness_stage. rewrite Hb. now rewrite !brightness_channel_one.
  - intros Hb. unfold cell_pixel_color.
    destruct (saturation_stage config (r, g, b)) as [[r' g'] b'].
    unfold brightness_stage. rewrite Hb. now rewrite !brightness_channel_zero.
  - intros Hs. cbv zeta. unfold saturation_stage. rewrite Hs.
    change (negb (eqb (S754_zero false) one)) with true. cbv iota.
    change (fma (lit 114 1000) (of_int (u8 b))
                (fma (lit 299 1000) (of_int (u8 r))
                     (mul (lit 587 1000) (of_int (u8 g)))))
      with (Tile.luma r g b).
    now rewrite !saturate_channel_zero by apply luma_bounded.
Qed.

(** Three colours at saturation 0.0, evaluated: the greys 27 and 37 and
    the colour (1, 233, 245) become the greys 26, 37 and 164. *)
Example saturation_zero_evaluated :
  map (saturation_stage
         {| output_width := 120; edge_strength := lit 4 10;
            aspect_correction := lit 5 10; brightness_factor := one;
            saturation_factor := S754_zero false; use_color := true;
            cfg_num_threads := 0 |})
      [(x1b, x1b, x1b); (x25, x25, x25); (x01, xe9, xf5)]
  = [(x1a, x1a, x1a); (x25, x25, x25); (xa4, xa4, xa4)].
Proof. vm_compute. reflexivity. Qed.

End ColourLimits.

(** ** A still image is decoded once *)

Section StillImage.

Import Decoder.

Lemma decode_exhausted (c : t) (calls : list (Z * Z)) (frame : option Z) :
  dec_fmt_ctx c = false -> decoded_frame c = None ->
  decode_calls (Some c) calls frame
  = (repeat AVERROR_EOF (List.length calls), frame, Some c).
Proof.
  intros Hf Hd. induction calls as [|[send receive] calls IH]; [reflexivity|].
  cbn [decode_calls engine_decode_video_packet]. rewrite Hf, Hd. cbn [negb].
  now rewrite IH.
Qed.

(** X15: for a still image ([dec_fmt_ctx] is null) the engine hands out
    its frame exactly once.  The first call of
    [engine_decode_video_packet] returns 0 and stores the frame through
    [frame]; every later call returns [AVERROR_EOF] and leaves [*frame]
    and the context alone, whatever the library would have answered;
    [engine_get_next_packet] answers [AVERROR_EOF] without reading. *)
Theorem still_image_decoded_once (c : t) (f : Z) (send receive : Z)
    (calls : list (Z * Z)) (frame : option Z) (read : Z) :
  dec_fmt_ctx c = false -> decoded_frame c = Some f ->
  decode_calls (Some c) ((send, receive) :: calls) frame
  = (0 :: repeat AVERROR_EOF (List.length calls), Some f,
     Some {| dec_fmt_ctx := false; decoded_frame := None |}) /\
  engine_get_next_packet (Some c) read = AVERROR_EOF.
Proof.
  intros Hf Hd. split.
  - cbn [decode_calls engine_decode_video_packet]. rewrite Hf, Hd. cbn [negb].
    now rewrite decode_exhausted.
  - unfold engine_get_next_packet. now rewrite Hf.
Qed.

Lemma still_image_decoded_once_witness :
  decode_calls (Some {| dec_fmt_ctx := false; decoded_frame := Some 7 |})
    [(0, 0); (0, 0); (-1, 0)] None
  = ([0; AVERROR_EOF; AVERROR_EOF], Some 7,
     Some {| dec_fmt_ctx := false; decoded_frame := None |}).
Proof.
  exact (proj1 (still_image_decoded_once
                  {| dec_fmt_ctx := false; decoded_frame := Some 7 |} 7 0 0
                  [(0, 0); (-1, 0)] None 0 eq_refl eq_refl)).
Defined.

End StillImage.

(** ** What the command line can and cannot set *)

Section CommandLine.

Import Main.

Variable atoi : list byte -> Z.
Variable strtof : list byte -> f32.

(** The fields no option assigns. *)
Lemma parse_args_fixed (args : list (list byte)) (st : Settings * bool) :
  use_color (config (fst (parse_args atoi strtof args st)))
  = use_color (config (fst st)) /\
  dither_mode (fst (parse_args atoi strtof args st)) = dither_mode (fst st) /\
  aspect_correction (config (fst (parse_args atoi strtof args st)))
  = aspect_correction (config (fst st)) /\
  mode (fst (parse_args atoi strtof args st)) = mode (fst st).
Proof.
  remember (List.length args) as n eqn:Hn.
  assert (Hle : (List.length args <= n)%nat) by lia. clear Hn.
  revert args st Hle. induction n as [|n IH]; intros args st Hle.
  - destruct args; [now repeat split|simpl in Hle; lia].
  - destruct args as [|a [|v rest']]; [now repeat split| |].
    + destruct st as [s fit]. cbn [parse_args].
      destruct (Names.streq a opt_fit_terminal); [now repeat split|].
      destruct (Names.streq a opt_no_simd); now repeat split.
    + destruct st as [s fit]. cbn [List.length] in Hle.
      assert (IHr : forall st', _) by
        (exact (fun st' => IH (v :: rest') st' ltac:(cbn [List.length]; lia))).
      assert (IHr' : forall st', _) by
        (exact (fun st' => IH rest' st' ltac:(cbn [List.length]; lia))).
      cbn [parse_args].
      destruct (Names.streq a opt_width); [exact (IHr' (_, _))|].
      destruct (Names.streq a opt_edge); [exact (IHr' (_, _))|].
      destruct (Names.streq a opt_output); [exact (IHr' (_, _))|].
      destruct (Names.streq a opt_fit_terminal); [exact (IHr (_, _))|].
      destruct (Names.streq a opt_brightness); [exact (IHr' (_, _))|].
      destruct (Names.streq a opt_saturate); [exact (IHr' (_, _))|].
      destruct (Names.streq a opt_threads); [exact (IHr' (_, _))|].
      destruct (Names.streq a opt_crf); [exact (IHr' (_, _))|].
      destruct (Names.streq a opt_no_simd); exact (IHr (_, _)).
Qed.

(** An option that does not occur on the command line leaves its field
    alone (shown for the width and the output file). *)
Lemma parse_args_absent (args : list (list byte)) (st : Settings * bool) :
  (Forall (fun a => a <> opt_width) args ->
   output_width (config (fst (parse_args atoi strtof args st)))
   = output_width (config (fst st))) /\
  (Forall (fun a => a <> opt_output) args ->
   output_filename (fst (parse_args atoi strtof args st))
   = output_filename (fst st)).
Proof.
  remember (List.length args) as n eqn:Hn.
  assert (Hle : (List.length args <= n)%nat) by lia. clear Hn.
  revert args st Hle. induction n as [|n IH]; intros args st Hle.
  - destruct args; [now split|simpl in Hle; lia].
  - destruct args as [|a [|v rest']]; [now split| |].
    + destruct st as [s fit]. cbn [parse_args].
      destruct (Names.streq a opt_fit_terminal); [now split|].
      destruct (Names.streq a opt_no_simd); now split.
    + destruct st as [s fit]. cbn [List.length] in Hle.
      assert (IHr : forall st', _) by
        (exact (fun st' => IH (v :: rest') st' ltac:(cbn [List.length]; lia))).
      assert (IHr' : forall st', _) by
        (exact (fun st' => IH rest' st' ltac:(cbn [List.length]; lia))).
      cbn [parse_args].
      destruct (Names.streq a opt_width) eqn:Ew.
      { apply streq_eq in Ew. split.
        - intros HF. inversion HF; subst. congruence.
        - intros HF. inversion HF as [|? ? _ HF']; subst.
          inversion HF' as [|? ? _ HF'']; subst.
          exact (proj2 (IHr' (_, _)) HF''). }
      destruct (Names.streq a opt_edge).
      { split; intros HF; inversion HF as [|? ? _ HF']; subst;
          inversion HF' as [|? ? _ HF'']; subst.
        - exact (proj1 (IHr' (_, _)) HF'').
        - exact (proj2 (IHr' (_, _)) HF''). }
      destruct (Names.streq a opt_output) eqn:Eo.
      { apply streq_eq in Eo. split.
        - intros HF. inversion HF as [|? ? _ HF']; subst.
          inversion HF' as [|? ? _ HF'']; subst.
          exact (proj1 (IHr' (_, _)) HF'').
        - intros HF. inversion HF; subst. congruence. }
      destruct (Names.streq a opt_fit_terminal).
      { split; intros HF; inversion HF as [|? ? _ HF']; subst.
        - exact (proj1 (IHr (_, _)) HF').
        - exact (proj2 (IHr (_, _)) HF'). }
      destruct (Names.streq a opt_brightness).
      { split; intros HF; inversion HF as [|? ? _ HF']; subst;
          inversion HF' as [|? ? _ HF'']; subst.
        - exact (proj1 (IHr' (_, _)) HF'').
        - exact (proj2 (IHr' (_, _)) HF''). }
      destruct (Names.streq a opt_saturate).
      { split; intros HF; inversion HF as [|? ? _ HF']; subst;
          inversion HF' as [|? ? _ HF'']; subst.
        - exact (proj1 (IHr' (_, _)) HF'').
        - exact (proj2 (IHr' (_, _)) HF''). }
      destruct (Names.streq a opt_threads).
      { split; intros HF; inversion HF as [|? ? _ HF']; subst;
          inversion HF' as [|? ? _ HF'']; subst.
        - exact (proj1 (IHr' (_, _)) HF'').
        - exact (proj2 (IHr' (_, _)) HF''). }
      destruct (Names.streq a opt_crf).
      { split; intros HF; inversion HF as [|? ? _ HF']; subst;
          inversion HF' as [|? ? _ HF'']; subst.
        - exact (proj1 (IHr' (_, _)) HF'').
        - exact (proj2 (IHr' (_, _)) HF''). }
      destruct (Names.streq a opt_no_simd).
      { split; intros HF; inversion HF as [|? ? _ HF']; subst.
        - exact (proj1 (IHr (_, _)) HF').
        - exact (proj2 (IHr (_, _)) HF'). }
      split; intros HF; inversion HF as [|? ? _ HF']; subst.
      * exact (proj1 (IHr (_, _)) HF').
      * exact (proj2 (IHr (_, _)) HF').
Qed.

(** X16: what the command line can and cannot set.  Whatever the
    arguments, the settings [main] passes on have colour enabled and
    dithering off (no option assigns these fields), and their aspect
    correction is 1.0 when an output file was named and 0.5 otherwise;
    the mode depends on the input name alone.  An option that does not
    occur leaves its default: without [--width] the width is 120, and
    without [--output] there is no output file. *)
Theorem main_settings_invariants (input_file : list byte)
    (args : list (list byte)) :
  let s := fst (main_settings atoi strtof input_file args) in
  use_color (config s) = true /\
  dither_mode s = DITHER_NONE /\
  mode s = Names.main_mode input_file /\
  aspect_correction (config s)
  = match output_filename s with Some _ => one | None => lit 5 10 end /\
  (Forall (fun a => a <> opt_width) args -> output_width (config s) = 120) /\
  (Forall (fun a => a <> opt_output) args -> output_filename s = None).
Proof.
  cbv zeta. unfold main_settings.
  destruct (parse_args_fixed args (defaults, false)) as (H1 & H2 & H3 & _).
  destruct (parse_args_absent args (defaults, false)) as (Hw & Ho).
  destruct (parse_args atoi strtof args (defaults, false)) as [s fit].
  cbn [fst] in *.
  destruct (output_filename s) as [name|] eqn:E; cbn [fst];
    unfold with_config, set_mode, set_aspect_correction;
    cbn [config use_color dither_mode mode aspect_correction output_filename
         output_width];
    rewrite ?E; repeat split; assumption.
Qed.

End CommandLine.

(** ** Blocks handed out by the arena *)

Section ArenaBlocksFacts.

Import Arena ArenaBlocks.

Lemma alloc_all_length (sizes : list Z) (a : t) :
  List.length (fst (alloc_all a sizes)) = List.length sizes.
Proof.
  revert a. induction sizes as [|sz0 rest IH]; intros a; [reflexivity|].
  cbn [alloc_all]. destruct (arena_alloc a sz0) as [p a1].
  specialize (IH a1). destruct (alloc_all a1 rest) as [ps a2].
  cbn in *. now rewrite IH.
Qed.

Lemma alloc_all_spec (sizes : list Z) (a : t) :
  0 <= used a <= size a -> used a mod 16 = 0 -> size a < 2 ^ 62 ->
  Forall (fun sz => 0 <= sz <= 2 ^ 62) sizes ->
  let a' := snd (alloc_all a sizes) in
  (used a <= used a' <= size a' /\ used a' mod 16 = 0 /\ size a' = size a) /\
  (forall i o sz,
     nth_error (fst (alloc_all a sizes)) i = Some (Some o) ->
     nth_error sizes i = Some sz ->
     used a <= o /\ o mod 16 = 0 /\ o + round_up_16 sz <= used a').
Proof.
  revert a. induction sizes as [|sz0 rest IH]; intros a Hu Hm Hs HF.
  - cbn. split; [lia|]. intros [|i] o sz H; discriminate H.
  - inversion HF as [|? ? Hsz0 HF']; subst.
    cbn [alloc_all]. rewrite arena_alloc_small by lia.
    destruct (round_up_16_spec sz0) as [Hr16 Hr].
    destruct (used a + round_up_16 sz0 >? size a) eqn:E.
    + specialize (IH a Hu Hm Hs HF'). cbv zeta in IH.
      destruct (alloc_all a rest) as [ps a'']. cbn [fst snd] in *.
      destruct IH as [IH1 IH2]. split; [exact IH1|].
      intros [|i] o sz Hp Hz; [discriminate Hp|]. cbn in Hp, Hz.
      exact (IH2 i o sz Hp Hz).
    + rewrite Z.gtb_ltb in E; apply Z.ltb_ge in E.
      set (a1 := {| size := size a; used := used a + round_up_16 sz0 |}).
      assert (Hm1 : used a1 mod 16 = 0).
      { cbn [a1 used]. rewrite Z.add_mod, Hm, Hr16 by lia. reflexivity. }
      specialize (IH a1 ltac:(cbn [a1 used size]; lia) Hm1 ltac:(exact Hs) HF').
      cbv zeta in IH.
      destruct (alloc_all a1 rest) as [ps a'']. cbn [fst snd] in *.
      destruct IH as [IH1 IH2]. cbn [a1 used size] in IH1, IH2.
      split; [lia|].
      intros [|i] o sz Hp Hz; cbn in Hp, Hz.
      * injection Hp as <-. injection Hz as <-. lia.
      * destruct (IH2 i o sz Hp Hz) as (H1 & H2 & H3). lia.
Qed.

(** X17: the blocks of a series of allocations never overlap.  Starting
    from an arena whose mark is a multiple of 16, every block of a
    series of requests (none above [2^62] bytes, the arena smaller than
    that) starts at a multiple of 16 at or after the initial mark and
    ends inside the arena, and a block ends, padding included, before any
    block allocated later starts. *)
Theorem arena_blocks_disjoint (a : t) (sizes : list Z) :
  0 <= used a <= size a -> used a mod 16 = 0 -> size a < 2 ^ 62 ->
  Forall (fun sz => 0 <= sz <= 2 ^ 62) sizes ->
  let ps := fst (alloc_all a sizes) in
  (forall i o sz,
     nth_error ps i = Some (Some o) -> nth_error sizes i = Some sz ->
     used a <= o /\ o mod 16 = 0 /\ o + sz <= size a) /\
  (forall i j oi oj szi,
     (i < j)%nat ->
     nth_error ps i = Some (Some oi) -> nth_error ps j = Some (Some oj) ->
     nth_error sizes i = Some szi ->
     oi + round_up_16 szi <= oj).
Proof.
  intros Hu Hm Hs HF ps. unfold ps. clear ps. split.
  - intros i o sz Hp Hz.
    destruct (alloc_all_spec sizes a Hu Hm Hs HF) as [(H1 & _ & H3) H2].
    destruct (H2 i o sz Hp Hz) as (Ha & Hb & Hc).
    destruct (round_up_16_spec sz) as [_ Hr]. repeat split; lia.
  - revert a Hu Hm Hs HF. induction sizes as [|sz0 rest IH];
      intros a Hu Hm Hs HF i j oi oj szi Hij Hi Hj Hz.
    { destruct i; discriminate Hz. }
    inversion HF as [|? ? Hsz0 HF']; subst.
    cbn [alloc_all] in Hi, Hj. rewrite arena_alloc_small in Hi, Hj by lia.
    destruct (round_up_16_spec sz0) as [Hr16 Hr].
    destruct j as [|j]; [lia|].
    destruct (used a + round_up_16 sz0 >? size a) eqn:E.
    + destruct (alloc_all a rest) as [ps a''] eqn:Ea. cbn [fst] in Hi, Hj.
      destruct i as [|i]; [discriminate Hi|]. cbn in Hi, Hj, Hz.
      apply (IH a Hu Hm Hs HF' i j oi oj szi); try lia;
        rewrite ?Ea; assumption.
    + rewrite Z.gtb_ltb in E; apply Z.ltb_ge in E.
      set (a1 := {| size := size a; used := used a + round_up_16 sz0 |}) in *.
      assert (Hm1 : used a1 mod 16 = 0).
      { cbn [a1 used]. rewrite Z.add_mod, Hm, Hr16 by lia. reflexivity. }
      assert (Hu1 : 0 <= used a1 <= size a1) by (cbn [a1 used size]; lia).
      pose proof (alloc_all_spec rest a1 Hu1 Hm1 Hs HF') as [_ Hspec].
      destruct (alloc_all a1 rest) as [ps a''] eqn:Ea. cbn [fst snd] in *.
      destruct i as [|i]; cbn in Hi, Hj, Hz.
      * injection Hi as <-. injection Hz as <-.
        destruct (nth_error rest j) as [szj|] eqn:Ez.
        { destruct (Hspec j oj szj Hj Ez) as (H1 & _). cbn [a1 used] in H1. lia. }
        exfalso. apply nth_error_None in Ez.
        assert (Hlen : List.length ps = List.length rest).
        { rewrite <- (alloc_all_length rest a1), Ea. reflexivity. }
        assert (nth_error ps j = None) by (apply nth_error_None; lia).
        congruence.
      * apply (IH a1 Hu1 Hm1 Hs HF' i j oi oj szi); try lia;
          rewrite ?Ea; assumption.
Qed.

Lemma arena_blocks_disjoint_witness :
  fst (alloc_all (arena_init 64) [10; 20; 40; 1]) = [Some 0; Some 16; None; Some 48] /\
  0 + round_up_16 10 <= 16.
Proof.
  split; [reflexivity|].
  refine (proj2 (arena_blocks_disjoint (arena_init 64) [10; 20; 40; 1] _ _ _ _)
            0%nat 1%nat 0 16 10 _ _ _ _);
    try reflexivity; try (cbn; lia).
  repeat constructor; lia.
Defined.

End ArenaBlocksFacts.

(** ** Fitting the grid to the terminal *)

Section TerminalFit.

Import Reals Lra.
Local Open Scope Z_scope.

Lemma Zdigits2_bounds (M : Z) :
  0 <= M -> M < 2 ^ Zdigits2 M /\ (0 < M -> 2 ^ (Zdigits2 M - 1) <= M).
Proof.
  intros HM. destruct M as [|p|p]; cbn [Zdigits2]; [simpl; lia| |lia].
  destruct (digits2_pos_bounds p). split; [assumption|intros _; assumption].
Qed.

Lemma Zdigits2_nonneg (M : Z) : 0 <= Zdigits2 M.
Proof. destruct M; simpl; lia. Qed.

(** Rounding a quotient: the mantissa was taken fine enough that the
    first shift is by [fexp], so the result is in canonical form and
    within one unit of the value on either side. *)
Lemma round_fine (s : bool) (M e : Z) (l : location) :
  0 <= M -> e <= fexp prec emax (Zdigits2 M + e) ->
  let e1 := fexp prec emax (Zdigits2 M + e) in
  exists m2, M / 2 ^ (e1 - e) <= m2 <= M / 2 ^ (e1 - e) + 1 /\
    ((m2 = 0 /\ binary_round_aux prec emax s M e l = S754_zero s) \/
     exists m3 e3, Zpos m3 * 2 ^ (e3 - e1) = m2 /\ e1 <= e3 <= e1 + 1 /\
        fexp prec emax (Zpos (digits2_pos m3) + e3) = e3 /\
        binary_round_aux prec emax s M e l =
          if e3 <=? emax - prec then S754_finite s m3 e3 else S754_infinity s).
Proof.
  intros HM He e1. unfold binary_round_aux.
  destruct (shr_fexp_spec M e l HM) as (He1 & Hm1 & _).
  destruct (shr_fexp prec emax M e l) as [mrs' e1'] eqn:E1.
  cbn [fst snd] in He1, Hm1.
  replace (Z.max e (fexp prec emax (Zdigits2 M + e))) with e1 in He1, Hm1
    by (unfold e1; lia).
  subst e1'.
  set (m2 := round_nearest_even (shr_m mrs') (loc_of_shr_record mrs')).
  assert (Hm2 : shr_m mrs' <= m2 <= shr_m mrs' + 1) by apply round_nearest_even_range.
  rewrite Hm1 in Hm2.
  assert (Hk : 0 <= e1 - e) by (unfold e1; lia).
  assert (Hp1 : 0 < 2 ^ (e1 - e)) by (apply Z.pow_pos_nonneg; lia).
  assert (H0 : 0 <= M / 2 ^ (e1 - e)) by (apply Z.div_pos; lia).
  destruct (shr_fexp_spec m2 e1 loc_Exact ltac:(lia)) as (He3 & Hm3 & _).
  destruct (shr_fexp prec emax m2 e1 loc_Exact) as [mrs'' e3] eqn:E3.
  cbn [fst snd] in He3, Hm3. rewrite <- He3 in Hm3.
  exists m2. split; [exact Hm2|].
  destruct (Zdigits2_bounds M HM) as [HMu HMl].
  pose proof (Zdigits2_nonneg M) as Hd0.
  set (d := Zdigits2 M) in *.
  assert (Ee1 : e1 = Z.max (d + e - 24) (-149)) by (unfold e1; now rewrite fexp_eq).
  rewrite fexp_eq in He3.
  (* the two regimes *)
  assert (Hcases : (2 ^ 23 <= m2 <= 2 ^ 24 /\ e1 = d + e - 24) \/
                   (0 <= m2 <= 2 ^ 23 /\ e1 = -149)).
  { destruct (Z.le_gt_cases (-149) (d + e - 24)) as [Hn|Hs].
    - left. assert (E : e1 = d + e - 24) by lia. split; [|exact E].
      assert (Hkd : e1 - e = d - 24) by lia.
      assert (HMpos : 0 < M).
      { destruct (Z.eq_dec M 0) as [->|]; [|lia]. unfold d in *. simpl in *. lia. }
      specialize (HMl HMpos).
      assert (H23 : 2 ^ (d - 1) = 2 ^ 23 * 2 ^ (e1 - e))
        by (rewrite <- Z.pow_add_r by lia; f_equal; lia).
      assert (H24 : 2 ^ d = 2 ^ 24 * 2 ^ (e1 - e))
        by (rewrite <- Z.pow_add_r by lia; f_equal; lia).
      assert (2 ^ 23 <= M / 2 ^ (e1 - e))
        by (apply Z.div_le_lower_bound; [exact Hp1|]; lia).
      assert (M / 2 ^ (e1 - e) < 2 ^ 24)
        by (apply Z.div_lt_upper_bound; [exact Hp1|]; lia).
      lia.
    - right. assert (E : e1 = -149) by lia. split; [|exact E].
      assert (M / 2 ^ (e1 - e) < 2 ^ 23); [|lia].
      apply Z.div_lt_upper_bound; [exact Hp1|].
      apply Z.lt_le_trans with (2 ^ d); [exact HMu|].
      destruct (Z.le_gt_cases d (e1 - e)) as [Hle|Hgt].
      + apply Z.le_trans with (2 ^ (e1 - e)); [apply Z.pow_le_mono_r; lia|].
        assert (0 < 2 ^ (e1 - e)) by lia. assert (2 ^ 23 = 8388608) by reflexivity.
        nia.
      + rewrite <- Z.pow_add_r by lia. apply Z.pow_le_mono_r; lia. }
  destruct (Z.eq_dec m2 0) as [Hz|Hnz].
  { left. split; [exact Hz|]. rewrite Hm3, Hz, Z.div_0_l; [reflexivity|].
    apply Z.pow_nonzero; lia. }
  right.
  destruct m2 as [|p2|p2]; [lia| |lia]. clearbody e1.
  cbn [Zdigits2] in He3.
  destruct Hcases as [[Hr E]|[Hr E]].
  - destruct (Z.eq_dec (Zpos p2) (2 ^ 24)) as [H24|H24].
    + assert (Hd2 : Zpos (digits2_pos p2) = 25)
        by (apply digits2_pos_unique; rewrite H24; simpl; lia).
      rewrite Hd2 in He3.
      assert (E3' : e3 = e1 + 1) by lia.
      rewrite Hm3, E3', H24.
      replace (e1 + 1 - e1) with 1 by lia.
      change (2 ^ 24 / 2 ^ 1) with (Zpos (2 ^ 23)%positive).
      exists (2 ^ 23)%positive, e3. rewrite E3'.
      replace (e1 + 1 - e1) with 1 by lia.
      split; [reflexivity|]. split; [lia|]. split; [|reflexivity].
      rewrite fexp_eq. change (Zpos (digits2_pos (2 ^ 23))) with 24. lia.
    + assert (Hd2 : Zpos (digits2_pos p2) = 24)
        by (apply digits2_pos_unique; change (24 - 1) with 23; lia).
      rewrite Hd2 in He3.
      assert (E3' : e3 = e1) by lia.
      rewrite Hm3, E3', Z.sub_diag, Z.pow_0_r, Z.div_1_r.
      exists p2, e1. rewrite Z.sub_diag, Z.pow_0_r.
      split; [lia|]. split; [lia|]. split; [|reflexivity].
      rewrite fexp_eq, Hd2. lia.
  - assert (Hd2 : Zpos (digits2_pos p2) <= 24).
    { apply digits2_pos_le. assert (2 ^ 23 < 2 ^ 24) by (simpl; lia). lia. }
    assert (E3' : e3 = e1) by lia.
    rewrite Hm3, E3', Z.sub_diag, Z.pow_0_r, Z.div_1_r.
    exists p2, e1. rewrite Z.sub_diag, Z.pow_0_r.
    split; [lia|]. split; [lia|]. split; [|reflexivity].
    rewrite fexp_eq. lia.
Qed.

(** *** Powers of two as reals *)

Lemma p2_pos (k : Z) : (0 < powerRZ 2 k)%R.
Proof. apply powerRZ_lt. lra. Qed.

Lemma p2_add (a b : Z) : powerRZ 2 (a + b) = (powerRZ 2 a * powerRZ 2 b)%R.
Proof. apply powerRZ_add. lra. Qed.

Lemma p2_IZR (k : Z) : 0 <= k -> powerRZ 2 k = IZR (2 ^ k).
Proof.
  intros Hk. rewrite <- (Z2Nat.id k) by lia.
  rewrite <- pow_powerRZ, <- pow_IZR. reflexivity.
Qed.

Lemma p2_le (a b : Z) : a <= b -> (powerRZ 2 a <= powerRZ 2 b)%R.
Proof.
  intros H. replace b with (a + (b - a)) by lia.
  rewrite p2_add, (p2_IZR (b - a)) by lia.
  assert (H2 : 0 < 2 ^ (b - a)) by (apply Z.pow_pos_nonneg; lia).
  assert (H3 : (1 <= IZR (2 ^ (b - a)))%R) by (apply IZR_le; lia).
  pose proof (p2_pos a). nra.
Qed.

Lemma p2_lt (a b : Z) : a < b -> (powerRZ 2 a < powerRZ 2 b)%R.
Proof.
  intros H. replace b with (a + 1 + (b - a - 1)) by lia.
  pose proof (p2_le (a + 1) (a + 1 + (b - a - 1)) ltac:(lia)) as H1.
  rewrite (p2_add a 1) in H1 at 1. change (powerRZ 2 1) with (2 * 1)%R in H1.
  pose proof (p2_pos a). lra.
Qed.

Lemma p2_lt_inv (a b : Z) : (powerRZ 2 a < powerRZ 2 b)%R -> a < b.
Proof.
  intros H. destruct (Z.lt_ge_cases a b) as [|Hge]; [assumption|].
  apply p2_le in Hge. lra.
Qed.

(** The magnitude of a significand. *)
Lemma mag_bounds (m : positive) (e : Z) :
  (powerRZ 2 (Zpos (digits2_pos m) + e - 1) <= IZR (Zpos m) * powerRZ 2 e
   < powerRZ 2 (Zpos (digits2_pos m) + e))%R.
Proof.
  destruct (digits2_pos_bounds m) as [Hl Hu].
  replace (Zpos (digits2_pos m) + e - 1) with (Zpos (digits2_pos m) - 1 + e) by lia.
  rewrite !p2_add.
  rewrite (p2_IZR (Zpos (digits2_pos m) - 1)), (p2_IZR (Zpos (digits2_pos m))) by lia.
  apply IZR_le in Hl. apply IZR_lt in Hu. pose proof (p2_pos e). nra.
Qed.

(** *** Division *)

(** The quotient mantissa that [SFdiv] hands to the rounding is fine
    enough, and its magnitude is that of the quotient or one more. *)
Lemma div_fine (m1 m2 : positive) (e1 e2 : Z) :
  let D := Zpos (digits2_pos m1) + e1 - (Zpos (digits2_pos m2) + e2) in
  let e' := Z.min (fexp prec emax D) (e1 - e2) in
  let q := Zpos m1 * 2 ^ (e1 - e2 - e') / Zpos m2 in
  0 <= q /\
  e' <= fexp prec emax (Zdigits2 q + e') <= fexp prec emax (D + 1).
Proof.
  intros D e' q.
  destruct (digits2_pos_bounds m1) as [L1 U1], (digits2_pos_bounds m2) as [L2 U2].
  set (a := Zpos (digits2_pos m1)) in *. set (b := Zpos (digits2_pos m2)) in *.
  assert (Ha : 1 <= a) by (unfold a; lia). assert (Hb : 1 <= b) by (unfold b; lia).
  set (s := e1 - e2 - e') in *.
  assert (Hs : 0 <= s) by (unfold s, e'; lia).
  assert (HP : 0 < 2 ^ s) by (apply Z.pow_pos_nonneg; lia).
  assert (Hq0 : 0 <= q) by (apply Z.div_pos; lia).
  assert (Hq1 : q * Zpos m2 <= Zpos m1 * 2 ^ s)
    by (unfold q; rewrite Z.mul_comm; apply Z.mul_div_le; lia).
  assert (Hq2 : Zpos m1 * 2 ^ s < (q + 1) * Zpos m2).
  { pose proof (Z.mul_succ_div_gt (Zpos m1 * 2 ^ s) (Zpos m2) ltac:(lia)) as H.
    fold q in H. lia. }
  split; [exact Hq0|].
  assert (He' : e' <= Z.max (D - 24) (-149)) by (unfold e'; rewrite fexp_eq; lia).
  assert (HD : D = a - b + s + e') by (unfold D, s; lia).
  rewrite !fexp_eq.
  (* lower bound on the digits of q *)
  assert (Hlow : a + s - b <= Zdigits2 q).
  { destruct (Zdigits2_bounds q Hq0) as [Uq _].
    pose proof (Zdigits2_nonneg q) as Hdq.
    assert (H : 2 ^ (a - 1 + s) < 2 ^ (Zdigits2 q + b)).
    { rewrite !Z.pow_add_r by lia.
      apply Z.le_lt_trans with (Zpos m1 * 2 ^ s);
        [apply Z.mul_le_mono_nonneg_r; lia|].
      apply Z.lt_le_trans with ((q + 1) * Zpos m2); [exact Hq2|].
      apply Z.mul_le_mono_nonneg; lia. }
    apply Z.pow_lt_mono_r_iff in H; lia. }
  destruct (Z.eq_dec q 0) as [Hz|Hnz].
  - rewrite Hz in *. cbn [Zdigits2] in *. lia.
  - destruct (Zdigits2_bounds q Hq0) as [_ Lq]. specialize (Lq ltac:(lia)).
    assert (Hdq : 1 <= Zdigits2 q).
    { destruct q; cbn [Zdigits2]; lia. }
    assert (H : 2 ^ (Zdigits2 q - 1 + (b - 1)) < 2 ^ (a + s)).
    { rewrite !Z.pow_add_r by lia.
      apply Z.le_lt_trans with (q * Zpos m2).
      - apply Z.mul_le_mono_nonneg; try lia;
          apply Z.lt_le_incl, Z.pow_pos_nonneg; lia.
      - apply Z.le_lt_trans with (Zpos m1 * 2 ^ s); [exact Hq1|].
        apply Z.mul_lt_mono_pos_r; lia. }
    apply Z.pow_lt_mono_r_iff in H; lia.
Qed.

(** The rounding of a fine mantissa, in real numbers. *)
Lemma round_fine_R (M e : Z) (l : location) :
  0 <= M -> e <= fexp prec emax (Zdigits2 M + e) ->
  let e1 := fexp prec emax (Zdigits2 M + e) in
  let r := binary_round_aux prec emax false M e l in
  (e1 + 1 <= emax - prec -> is_finite r = true) /\
  (is_finite r = true ->
     valid_binary prec emax r = true /\
     (r = S754_zero false \/ exists m3 e3, r = S754_finite false m3 e3) /\
     (IZR M * powerRZ 2 e - powerRZ 2 e1 < B2R r
      <= IZR M * powerRZ 2 e + powerRZ 2 e1)%R).
Proof.
  intros HM He e1 r.
  destruct (round_fine false M e l HM He) as (m2 & Hm2 & Hcase).
  fold e1 in Hm2, Hcase. fold r in Hcase.
  assert (Hk : 0 <= e1 - e) by (unfold e1; lia).
  assert (HK : 0 < 2 ^ (e1 - e)) by (apply Z.pow_pos_nonneg; lia).
  assert (Hlo : (m2 - 1) * 2 ^ (e1 - e) <= M).
  { apply Z.le_trans with (M / 2 ^ (e1 - e) * 2 ^ (e1 - e)).
    - apply Z.mul_le_mono_nonneg_r; lia.
    - rewrite Z.mul_comm. apply Z.mul_div_le. exact HK. }
  assert (Hhi : M < (m2 + 1) * 2 ^ (e1 - e)).
  { apply Z.lt_le_trans with (Z.succ (M / 2 ^ (e1 - e)) * 2 ^ (e1 - e)).
    - pose proof (Z.mul_succ_div_gt M (2 ^ (e1 - e)) HK). lia.
    - apply Z.mul_le_mono_nonneg_r; lia. }
  apply IZR_le in Hlo. apply IZR_lt in Hhi.
  rewrite mult_IZR in Hlo, Hhi. rewrite minus_IZR in Hlo. rewrite plus_IZR in Hhi.
  rewrite <- p2_IZR in Hlo, Hhi by lia.
  assert (Ep : powerRZ 2 e1 = (powerRZ 2 (e1 - e) * powerRZ 2 e)%R)
    by (rewrite <- p2_add; f_equal; lia).
  pose proof (p2_pos e) as Pe. pose proof (p2_pos (e1 - e)) as Pk.
  assert (Hval : (IZR M * powerRZ 2 e - powerRZ 2 e1 < IZR m2 * powerRZ 2 e1
                  <= IZR M * powerRZ 2 e + powerRZ 2 e1)%R).
  { rewrite Ep. split; nra. }
  destruct Hcase as [[Hz Hr]|(m3 & e3 & Hm3 & He3 & Hc & Hr)].
  - rewrite Hr. split; [reflexivity|]. intros _.
    split; [reflexivity|]. split; [now left|].
    rewrite Hz in Hval. cbn [B2R]. lra.
  - split.
    + intros Hfin. rewrite Hr.
      replace (e3 <=? emax - prec) with true by (symmetry; apply Z.leb_le; lia).
      reflexivity.
    + intros Hfin. rewrite Hr in Hfin |- *.
      destruct (e3 <=? emax - prec) eqn:El; [|discriminate Hfin].
      split.
      { cbn [valid_binary]. unfold SpecFloat.bounded, canonical_mantissa.
        rewrite El, Hc, Z.eqb_refl. reflexivity. }
      split; [right; now exists m3, e3|].
      cbn [B2R].
      replace (IZR (Zpos m3) * powerRZ 2 e3)%R with (IZR m2 * powerRZ 2 e1)%R;
        [exact Hval|].
      rewrite <- Hm3, mult_IZR, <- p2_IZR by lia.
      replace e3 with ((e3 - e1) + e1) at 2 by lia.
      rewrite p2_add. ring.
Qed.

(** The quotient of two positive floats: finite unless it is too large,
    in canonical form, and within two units in the last place of the
    exact quotient. *)
Lemma div_R (m1 m2 : positive) (e1 e2 : Z) :
  let x := S754_finite false m1 e1 in
  let y := S754_finite false m2 e2 in
  let D := Zpos (digits2_pos m1) + e1 - (Zpos (digits2_pos m2) + e2) in
  let u := powerRZ 2 (fexp prec emax (D + 1)) in
  (fexp prec emax (D + 1) + 1 <= emax - prec -> is_finite (div x y) = true) /\
  (is_finite (div x y) = true ->
     valid_binary prec emax (div x y) = true /\
     (div x y = S754_zero false \/ exists m e, div x y = S754_finite false m e) /\
     (B2R x / B2R y - 2 * u < B2R (div x y) <= B2R x / B2R y + u)%R).
Proof.
  intros x y D u. unfold x, y, div, SFdiv. cbn [xorb].
  destruct (div_core_pos m1 m2 e1 e2) as (q & l & -> & Hq).
  pose proof (div_fine m1 m2 e1 e2) as Hdf. cbv zeta in Hdf.
  fold D in Hq, Hdf |- *.
  set (e' := Z.min (fexp prec emax D) (e1 - e2)) in *.
  rewrite <- Hq in Hdf. destruct Hdf as (Hq0 & Hf1 & Hf2).
  destruct (round_fine_R q e' l Hq0 Hf1) as [Hfin Hspec].
  set (e1r := fexp prec emax (Zdigits2 q + e')) in *.
  split; [intros H; apply Hfin; lia|].
  intros Hf. destruct (Hspec Hf) as (Hv & Hshape & Hb).
  split; [exact Hv|]. split; [exact Hshape|].
  (* the exact quotient lies between q and q + 1 units of e' *)
  set (s := e1 - e2 - e') in *.
  assert (Hs : 0 <= s) by (unfold s, e'; lia).
  assert (HP : 0 < 2 ^ s) by (apply Z.pow_pos_nonneg; lia).
  assert (Hq1 : q * Zpos m2 <= Zpos m1 * 2 ^ s)
    by (rewrite Hq, Z.mul_comm; apply Z.mul_div_le; lia).
  assert (Hq2 : Zpos m1 * 2 ^ s < (q + 1) * Zpos m2).
  { pose proof (Z.mul_succ_div_gt (Zpos m1 * 2 ^ s) (Zpos m2) ltac:(lia)) as H.
    rewrite <- Hq in H. lia. }
  apply IZR_le in Hq1. apply IZR_lt in Hq2.
  rewrite !mult_IZR in Hq1, Hq2. rewrite plus_IZR in Hq2.
  rewrite <- p2_IZR in Hq1, Hq2 by lia.
  cbn [B2R].
  assert (E1 : powerRZ 2 e1 = (powerRZ 2 s * powerRZ 2 e' * powerRZ 2 e2)%R)
    by (rewrite <- !p2_add; f_equal; unfold s; lia).
  pose proof (p2_pos e') as Pe'. pose proof (p2_pos e2) as Pe2.
  pose proof (p2_pos s) as Ps.
  assert (Pm2 : (0 < IZR (Zpos m2))%R) by (apply IZR_lt; lia).
  assert (Pm1 : (0 < IZR (Zpos m1))%R) by (apply IZR_lt; lia).
  set (X := (IZR (Zpos m1) * powerRZ 2 e1 / (IZR (Zpos m2) * powerRZ 2 e2))%R).
  assert (EX : (X * IZR (Zpos m2) = IZR (Zpos m1) * powerRZ 2 s * powerRZ 2 e')%R).
  { unfold X. rewrite E1. field. lra. }
  assert (HX1 : (IZR q * powerRZ 2 e' <= X)%R).
  { apply Rmult_le_reg_r with (IZR (Zpos m2)); [exact Pm2|]. rewrite EX. nra. }
  assert (HX2 : (X < (IZR q + 1) * powerRZ 2 e')%R).
  { apply Rmult_lt_reg_r with (IZR (Zpos m2)); [exact Pm2|]. rewrite EX. nra. }
  assert (U1 : (powerRZ 2 e' <= u)%R) by (apply p2_le; lia).
  assert (U2 : (powerRZ 2 e1r <= u)%R) by (apply p2_le; lia).
  pose proof (p2_pos e1r). lra.
Qed.

(** Whatever the operands, a finite quotient is in canonical form. *)
Lemma div_valid (x y : f32) :
  is_finite (div x y) = true -> valid_binary prec emax (div x y) = true.
Proof.
  destruct x as [sx|sx| |sx mx ex], y as [sy|sy| |sy my ey];
    try reflexivity; try discriminate.
  unfold div, SFdiv.
  destruct (div_core_pos mx my ex ey) as (q & l & -> & Hq).
  pose proof (div_fine mx my ex ey) as Hdf. cbv zeta in Hdf.
  rewrite <- Hq in Hdf. destruct Hdf as (Hq0 & Hf1 & _).
  destruct (round_fine (xorb sx sy) q _ l Hq0 Hf1)
    as (m2 & _ & [[_ ->]|(m3 & e3 & _ & _ & Hc & ->)]); [reflexivity|].
  destruct (e3 <=? emax - prec) eqn:El; [|discriminate].
  intros _. cbn [valid_binary]. unfold SpecFloat.bounded, canonical_mantissa.
  rewrite El, Hc, Z.eqb_refl. reflexivity.
Qed.

(** *** Comparison *)

Lemma valid_finite (s : bool) (m : positive) (e : Z) :
  valid_binary prec emax (S754_finite s m e) = true ->
  Zpos (digits2_pos m) <= 24 /\ -149 <= e /\
  (Zpos (digits2_pos m) = 24 \/ e = -149).
Proof.
  cbn [valid_binary]. unfold SpecFloat.bounded, canonical_mantissa.
  intros H. apply andb_prop in H. destruct H as [H _].
  apply Z.eqb_eq in H. rewrite fexp_eq in H. lia.
Qed.

Lemma ltb_R (m1 m2 : positive) (e1 e2 : Z) :
  let x := S754_finite false m1 e1 in
  let y := S754_finite false m2 e2 in
  valid_binary prec emax x = true -> valid_binary prec emax y = true ->
  (ltb x y = true -> (B2R x < B2R y)%R) /\
  (ltb x y = false -> (B2R y <= B2R x)%R).
Proof.
  intros x y Hx Hy.
  destruct (valid_finite _ _ _ Hx) as (Dx & Ex & Cx).
  destruct (valid_finite _ _ _ Hy) as (Dy & Ey & Cy).
  pose proof (mag_bounds m1 e1) as [L1 U1]. pose proof (mag_bounds m2 e2) as [L2 U2].
  unfold x, y, ltb, SFltb, SFcompare. cbn [B2R].
  destruct (Z.compare_spec e1 e2) as [E|E|E].
  - subst e2. change (PosDef.Pos.compare_cont Eq m1 m2) with (Pos.compare m1 m2).
    pose proof (p2_pos e1) as P.
    destruct (Pos.compare_spec m1 m2) as [C|C|C].
    + subst. split; [discriminate|intros _; lra].
    + split; [intros _|discriminate].
      assert (IZR (Zpos m1) < IZR (Zpos m2))%R by (apply IZR_lt; lia). nra.
    + split; [discriminate|intros _].
      assert (IZR (Zpos m2) < IZR (Zpos m1))%R by (apply IZR_lt; lia). nra.
  - split; [intros _|discriminate].
    assert (H : (powerRZ 2 (Zpos (digits2_pos m1) + e1)
                 <= powerRZ 2 (Zpos (digits2_pos m2) + e2 - 1))%R)
      by (apply p2_le; lia).
    lra.
  - split; [discriminate|intros _].
    assert (H : (powerRZ 2 (Zpos (digits2_pos m2) + e2)
                 <= powerRZ 2 (Zpos (digits2_pos m1) + e1 - 1))%R)
      by (apply p2_le; lia).
    lra.
Qed.

(** *** Conversion to [int] *)

Lemma to_int_below (x : f32) (K : Z) :
  x = S754_zero false \/ (exists m e, x = S754_finite false m e) ->
  (B2R x < IZR (K + 1))%R -> 0 <= K <= INT_MAX ->
  0 <= to_int x <= K.
Proof.
  intros [->|(m & e & ->)] Hv HK; [cbn; unfold INT_MAX in HK; lia|].
  cbn [B2R] in Hv. unfold to_int, trunc.
  assert (Hr : 0 <= match e with
                    | Zneg p => Zpos m / 2 ^ Zpos p
                    | _ => Zpos m * 2 ^ e
                    end <= K).
  { destruct e as [|p|p].
    - rewrite Z.pow_0_r, Z.mul_1_r. cbn [powerRZ] in Hv.
      rewrite Rmult_1_r in Hv. apply lt_IZR in Hv. lia.
    - rewrite (p2_IZR (Zpos p)), <- mult_IZR in Hv by lia.
      apply lt_IZR in Hv.
      assert (0 < 2 ^ Zpos p) by (apply Z.pow_pos_nonneg; lia). nia.
    - assert (HP : 0 < 2 ^ Zpos p) by (apply Z.pow_pos_nonneg; lia).
      split; [apply Z.div_pos; lia|].
      assert (Zpos m / 2 ^ Zpos p < K + 1); [|lia].
      apply Z.div_lt_upper_bound; [exact HP|].
      apply lt_IZR. rewrite mult_IZR, <- p2_IZR by lia.
      pose proof (p2_pos (Zpos p)) as PP.
      assert (E : (powerRZ 2 (Zneg p) * powerRZ 2 (Zpos p) = 1)%R).
      { rewrite <- p2_add. replace (Zneg p + Zpos p) with 0 by lia. reflexivity. }
      apply Rmult_lt_compat_r with (r := powerRZ 2 (Zpos p)) in Hv; [|exact PP].
      rewrite Rmult_assoc, E in Hv. lra. }
  set (v := match e with Zneg p => _ | _ => _ end) in *.
  unfold INT_MIN, INT_MAX in *.
  replace ((- 2 ^ 31 <=? v) && (v <=? 2 ^ 31 - 1)) with true; [exact Hr|].
  symmetry. apply andb_true_intro. split; apply Z.leb_le; lia.
Qed.

(** *** The terminal's aspect *)

Lemma of_int_R (z : Z) :
  0 < z < 2 ^ 24 ->
  exists m e, of_int z = S754_finite false m e /\
              (IZR (Zpos m) * powerRZ 2 e)%R = IZR z /\
              Zpos (digits2_pos m) = 24 /\ -23 <= e <= 0.
Proof.
  intros Hz. destruct (of_int_exact z Hz) as (m & e & E & He & Hm & Hd).
  exists m, e. split; [exact E|]. split; [|split; assumption].
  rewrite Hm, mult_IZR, <- p2_IZR by lia.
  rewrite Rmult_assoc, <- p2_add. replace (- e + e) with 0 by lia.
  cbn [powerRZ]. ring.
Qed.

Lemma terminal_aspect_R (c r : Z) :
  0 < c < 2 ^ 16 -> 0 < r < 2 ^ 16 ->
  let ta := div (of_int c) (of_int r) in
  valid_binary prec emax ta = true /\
  (exists m e, ta = S754_finite false m e) /\
  (IZR c * 2097151 < B2R ta * IZR r * 2097152)%R /\
  (B2R ta * IZR r * 4194304 <= IZR c * 4194305)%R.
Proof.
  intros Hc Hr ta. unfold ta.
  assert (H1624 : 2 ^ 16 < 2 ^ 24) by (simpl; lia).
  destruct (of_int_R c ltac:(lia)) as (mc & ec & -> & Vc & Dc & Ec).
  destruct (of_int_R r ltac:(lia)) as (mr & er & -> & Vr & Dr & Er).
  pose proof (div_R mc mr ec er) as Hd. cbv zeta in Hd. cbn [B2R] in Hd.
  rewrite Vc, Vr, Dc, Dr, fexp_eq in Hd.
  replace (Z.max (24 + ec - (24 + er) + 1 - 24) (-149)) with (ec - er - 23) in Hd by lia.
  destruct Hd as [Hfin Hd]. specialize (Hfin ltac:(unfold emax, prec; lia)).
  destruct (Hd Hfin) as (Hv & Hshape & Hlo & Hhi).
  set (T := B2R (div (S754_finite false mc ec) (S754_finite false mr er))) in *.
  set (u := powerRZ 2 (ec - er - 23)) in *.
  assert (PC : (1 <= IZR c)%R) by (apply IZR_le; lia).
  assert (PR : (1 <= IZR r)%R) by (apply IZR_le; lia).
  assert (EX : (IZR c / IZR r * IZR r = IZR c)%R) by (field; lra).
  set (X := (IZR c / IZR r)%R) in *.
  assert (Hu : (u * 4194304 * IZR r < IZR c)%R).
  { pose proof (mag_bounds mc ec) as [Lc _]. pose proof (mag_bounds mr er) as [_ Ur].
    rewrite Vc, Dc in Lc. rewrite Vr, Dr in Ur.
    assert (E : (u * 4194304 * powerRZ 2 (24 + er) = powerRZ 2 (24 + ec - 1))%R).
    { unfold u. change 4194304%R with (IZR (2 ^ 22)). rewrite <- p2_IZR by lia.
      rewrite <- !p2_add. f_equal. lia. }
    assert (Pu : (0 < u * 4194304)%R) by (pose proof (p2_pos (ec - er - 23)); unfold u; lra).
    nra. }
  assert (Pu : (0 < u)%R) by apply p2_pos.
  assert (HT1 : (T * IZR r <= IZR c + u * IZR r)%R) by nra.
  assert (HT2 : (IZR c - 2 * u * IZR r < T * IZR r)%R) by nra.
  split; [exact Hv|]. split; [|split; lra].
  destruct Hshape as [Hz|Hs]; [|exact Hs].
  exfalso. unfold T in HT2. rewrite Hz in HT2. cbn [B2R] in HT2. lra.
Qed.

(** *** The two branches of [fit_to_terminal] *)

Lemma fit_dims (cva : f32) (c r : Z) :
  0 < c < 2 ^ 16 -> 0 < r < 2 ^ 16 ->
  is_finite cva = true -> ltb zero cva = true ->
  valid_binary prec emax cva = true ->
  let ta := div (of_int c) (of_int r) in
  (ltb cva ta = true -> 0 <= to_int (mul (of_int (r - 1)) cva) <= c) /\
  (ltb cva ta = false -> 0 <= to_int (div (of_int c) cva) <= r).
Proof.
  intros Hc Hr Hfin Hpos Hval ta.
  destruct cva as [s|s| |s mv ev]; try discriminate.
  destruct s; [discriminate Hpos|]. clear Hfin Hpos.
  destruct (terminal_aspect_R c r Hc Hr) as (HvT & (mt & et & ET) & HT1 & HT2).
  fold ta in HvT, ET, HT1, HT2. clearbody ta. subst ta.
  destruct (ltb_R mv mt ev et Hval HvT) as [Hlt Hge].
  cbn [B2R] in *.
  set (V := (IZR (Zpos mv) * powerRZ 2 ev)%R) in *.
  set (T := (IZR (Zpos mt) * powerRZ 2 et)%R) in *.
  assert (PV : (0 < V)%R).
  { unfold V. pose proof (p2_pos ev). assert (0 < IZR (Zpos mv))%R by (apply IZR_lt; lia). nra. }
  assert (PC : (1 <= IZR c <= 65535)%R) by (split; apply IZR_le; lia).
  assert (PR : (1 <= IZR r <= 65535)%R) by (split; apply IZR_le; lia).
  assert (PT : (0 < T)%R) by nra.
  assert (I16 : 2 ^ 16 = 65536) by reflexivity.
  destruct (valid_finite _ _ _ Hval) as (Dv & Ev & Cv).
  pose proof (mag_bounds mv ev) as [LV UV]. fold V in LV, UV.
  split.
  - intros L. specialize (Hlt L). clear Hge.
    destruct (Z.eq_dec r 1) as [->|Hr1]; [cbn; lia|].
    destruct (of_int_R (r - 1) ltac:(lia)) as (ma & ea & -> & Va & Da & Ea).
    rewrite minus_IZR in Va.
    (* the exact product is below the number of columns *)
    assert (HhT : ((IZR r - 1) * T <= IZR c)%R).
    { assert ((IZR r - 1) * (T * IZR r * 4194304) <= (IZR r - 1) * (IZR c * 4194305))%R
        by (apply Rmult_le_compat_l; lra).
      assert ((IZR r - 1) * T * IZR r * 4194304 <= IZR c * IZR r * 4194304)%R by nra.
      assert ((IZR r - 1) * T * IZR r <= IZR c * IZR r)%R by lra.
      apply Rmult_le_reg_r with (IZR r); lra. }
    assert (HhV : ((IZR r - 1) * V < IZR c)%R).
    { assert ((IZR r - 1) * V < (IZR r - 1) * T)%R
        by (apply Rmult_lt_compat_l; [assert (2 <= IZR r)%R by (apply IZR_le; lia); lra|exact Hlt]).
      lra. }
    assert (HT17 : (T < 131072)%R).
    { assert (T * 1 * 4194304 <= T * IZR r * 4194304)%R by nra. lra. }
    assert (P17 : powerRZ 2 17 = 131072%R) by (rewrite p2_IZR by lia; reflexivity).
    assert (P16 : powerRZ 2 16 = 65536%R) by (rewrite p2_IZR by lia; reflexivity).
    assert (Hev : ev <= 0).
    { assert (H : (powerRZ 2 (Zpos (digits2_pos mv) + ev - 1) < powerRZ 2 17)%R) by lra.
      apply p2_lt_inv in H. lia. }
    unfold mul, SFmul. cbn [xorb].
    set (M := (ma * mv)%positive). set (e := ea + ev).
    assert (HM : (IZR (Zpos M) * powerRZ 2 e = (IZR r - 1) * V)%R).
    { unfold M, e, V. rewrite Pos2Z.inj_mul, mult_IZR, p2_add, <- Va. ring. }
    pose proof (mag_bounds M e) as [LM _]. rewrite HM in LM.
    assert (HdM : Zpos (digits2_pos M) + e - 1 < 16).
    { apply p2_lt_inv. lra. }
    pose proof (binary_round_aux_upper false M e loc_Exact) as Hup.
    cbv zeta in Hup. rewrite fexp_eq in Hup.
    set (e1 := Z.max e (Z.max (Zpos (digits2_pos M) + e - 24) (-149))) in *.
    assert (He1 : e <= e1 <= 0) by (unfold e1, e; lia).
    destruct Hup as [Hz|(m3 & e3 & Hr3 & He3 & Hb)];
      [unfold emax, prec; lia|rewrite Hz; cbn; lia|].
    rewrite Hr3. apply to_int_below;
      [right; now exists m3, e3| |unfold INT_MAX; lia].
    cbn [B2R]. rewrite plus_IZR.
    apply IZR_le in Hb. rewrite plus_IZR, mult_IZR in Hb.
    rewrite <- !p2_IZR in Hb by lia.
    assert (E3 : powerRZ 2 e3 = (powerRZ 2 (e3 - e) * powerRZ 2 e)%R)
      by (rewrite <- p2_add; f_equal; lia).
    assert (E1 : powerRZ 2 e1 = (powerRZ 2 (e1 - e) * powerRZ 2 e)%R)
      by (rewrite <- p2_add; f_equal; lia).
    assert (H1 : (powerRZ 2 e1 <= 1)%R)
      by (change 1%R with (powerRZ 2 0); apply p2_le; lia).
    pose proof (p2_pos e) as Pe.
    assert (H2 : (IZR (Zpos m3) * powerRZ 2 (e3 - e) * powerRZ 2 e
                  <= (IZR (Zpos M) + powerRZ 2 (e1 - e)) * powerRZ 2 e)%R)
      by (apply Rmult_le_compat_r; lra).
    rewrite E3. lra.
  - intros L. specialize (Hge L). clear Hlt.
    destruct (of_int_R c ltac:(lia)) as (mc & ec & -> & Vc & Dc & Ec).
    pose proof (div_R mc mv ec ev) as Hd. cbv zeta in Hd. cbn [B2R] in Hd.
    fold V in Hd. rewrite Vc, Dc, fexp_eq in Hd.
    set (dV := Zpos (digits2_pos mv) + ev) in *.
    (* the corrected aspect is not tiny *)
    assert (HdV : -17 < dV).
    { apply p2_lt_inv.
      assert (E : (powerRZ 2 (-17) * 131072 = 1)%R).
      { change 131072%R with (IZR (2 ^ 17)). rewrite <- p2_IZR, <- p2_add by lia.
        reflexivity. }
      assert (T * IZR r * 2097152 <= T * 65535 * 2097152)%R by nra.
      lra. }
    destruct Hd as [Hf Hd].
    specialize (Hf ltac:(unfold emax, prec; lia)).
    destruct (Hd Hf) as (_ & Hshape & _ & Hhi). clear Hd.
    apply to_int_below; [exact Hshape| |unfold INT_MAX; lia].
    rewrite plus_IZR.
    set (Q := B2R (div (S754_finite false mc ec) (S754_finite false mv ev))) in *.
    set (u := powerRZ 2 (Z.max (24 + ec - dV + 1 - 24) (-149))) in *.
    assert (EX : (IZR c / V * V = IZR c)%R) by (field; lra).
    set (X := (IZR c / V)%R) in *.
    assert (PX : (0 < X)%R).
    { destruct (Rlt_or_le 0 X) as [|Hn]; [assumption|]. exfalso. nra. }
    assert (HX : (X * 2097151 < IZR r * 2097152)%R).
    { assert (H1 : (X * T <= IZR c)%R) by nra.
      assert (H2 : (X * (IZR c * 2097151) < X * (T * IZR r * 2097152))%R)
        by (apply Rmult_lt_compat_l; assumption).
      assert (H3 : (X * T * (IZR r * 2097152) <= IZR c * (IZR r * 2097152))%R)
        by (apply Rmult_le_compat_r; lra).
      assert (H4 : (IZR c * (X * 2097151) < IZR c * (IZR r * 2097152))%R) by lra.
      apply Rmult_lt_reg_l with (IZR c); lra. }
    assert (Hu : (u * 4194304 <= X + 1)%R).
    { unfold u. destruct (Z.le_gt_cases (-149) (24 + ec - dV + 1 - 24)) as [Hn|Hs].
      - rewrite Z.max_l by lia.
        pose proof (mag_bounds mc ec) as [Lc _]. rewrite Vc, Dc in Lc.
        assert (E : (powerRZ 2 (24 + ec - dV + 1 - 24) * 4194304 * powerRZ 2 dV
                     = powerRZ 2 (24 + ec - 1))%R).
        { change 4194304%R with (IZR (2 ^ 22)). rewrite <- p2_IZR by lia.
          rewrite <- !p2_add. f_equal. lia. }
        pose proof (p2_pos (24 + ec - dV + 1 - 24)) as Pu.
        set (u' := powerRZ 2 (24 + ec - dV + 1 - 24)) in *.
        assert (H1 : (u' * 4194304 * V < u' * 4194304 * powerRZ 2 dV)%R)
          by (apply Rmult_lt_compat_l; lra).
        assert (H2 : (u' * 4194304 * V < X * V)%R) by lra.
        assert (H3 : (u' * 4194304 < X)%R) by (apply Rmult_lt_reg_r with V; lra).
        lra.
      - rewrite Z.max_r by lia.
        assert (E : (powerRZ 2 (-22) * 4194304 = 1)%R).
        { change 4194304%R with (IZR (2 ^ 22)). rewrite <- p2_IZR, <- p2_add by lia.
          reflexivity. }
        pose proof (p2_le (-149) (-22) ltac:(lia)). lra. }
    lra.
Qed.

(** X18: with [--fit-terminal] the grid never exceeds the terminal.
    When [ioctl] succeeds on a terminal of [ws_col] columns and [ws_row]
    rows (both positive [unsigned short] values) and the corrected aspect
    [video_aspect / aspect_correction] is a positive finite float,
    [fit_to_terminal] leaves a grid of at most [ws_col] columns and at most
    [ws_row] rows, neither negative, whatever the binary32 rounding of the
    three divisions and the product does; and it fills one direction: the
    width is [ws_col] or the height is [ws_row - 1].  The height can reach
    [ws_row] itself, in the branch that takes all the columns. *)
Theorem fit_to_terminal_within (ctx : ProcessingContext)
    (config : EngineConfig) (w : Terminal.winsize) :
  0 < Terminal.ws_col w < 2 ^ 16 -> 0 < Terminal.ws_row w < 2 ^ 16 ->
  let cva := div (Terminal.engine_get_video_aspect (Some ctx))
                 (aspect_correction config) in
  is_finite cva = true -> ltb zero cva = true ->
  let ctx' := Terminal.fit_to_terminal (0, w) ctx config in
  0 <= ascii_width ctx' <= Terminal.ws_col w /\
  0 <= ascii_height ctx' <= Terminal.ws_row w /\
  (ascii_width ctx' = Terminal.ws_col w \/
   ascii_height ctx' = Terminal.ws_row w - 1).
Proof.
  intros Hc Hr cva Hfin Hpos ctx'. unfold ctx', Terminal.fit_to_terminal.
  change (negb (0 =? 0)) with false.
  replace (Terminal.ws_col w <=? 0) with false by (symmetry; apply Z.leb_gt; lia).
  replace (Terminal.ws_row w <=? 0) with false by (symmetry; apply Z.leb_gt; lia).
  cbn [orb]. fold cva.
  pose proof (div_valid _ _ Hfin) as Hval. fold cva in Hval.
  destruct (fit_dims cva _ _ Hc Hr Hfin Hpos Hval) as [B1 B2].
  destruct (ltb cva (div (of_int (Terminal.ws_col w)) (of_int (Terminal.ws_row w))));
    cbn [engine_update_output_dims ascii_width ascii_height].
  - specialize (B1 eq_refl). split; [exact B1|]. split; [lia|now right].
  - specialize (B2 eq_refl). split; [lia|]. split; [exact B2|now left].
Qed.

Lemma fit_to_terminal_within_witness :
  let w := {| Terminal.ws_row := 40; Terminal.ws_col := 80 |} in
  let ctx' := Terminal.fit_to_terminal (0, w)
                (Examples.half_split_ctx Luts.powf_ref) Examples.default_config in
  ascii_height ctx' = 40 /\
  (0 <= ascii_width ctx' <= 80 /\ 0 <= ascii_height ctx' <= 40 /\
   (ascii_width ctx' = 80 \/ ascii_height ctx' = 40 - 1)).
Proof.
  intros w ctx'. split; [reflexivity|].
  apply (fit_to_terminal_within (Examples.half_split_ctx Luts.powf_ref) Examples.default_config w);
    try (cbn; lia); reflexivity.
Defined.

End TerminalFit.

(** ** Contracting the products of the Sobel sums changes nothing *)

Section Contraction.

Import Tile.

Lemma iter_pos_nat {A : Type} (f : A -> A) (p : positive) (x : A) :
  iter_pos f p x = Nat.iter (Pos.to_nat p) f x.
Proof.
  revert x. induction p as [p IH|p IH|]; intros x; cbn [iter_pos].
  - rewrite !IH, Pos2Nat.inj_xI.
    replace (S (2 * Pos.to_nat p)) with (Pos.to_nat p + (Pos.to_nat p + 1))%nat by lia.
    rewrite !Nat.iter_add. reflexivity.
  - rewrite !IH, Pos2Nat.inj_xO.
    replace (2 * Pos.to_nat p)%nat with (Pos.to_nat p + Pos.to_nat p)%nat by lia.
    rewrite Nat.iter_add. reflexivity.
  - reflexivity.
Qed.

Lemma shr_nat (mrs : shr_record) (e n : Z) :
  0 <= n -> shr mrs e n = (Nat.iter (Z.to_nat n) shr_1 mrs, e + n).
Proof.
  intros Hn. destruct n as [|p|p]; [cbn; f_equal; lia| |lia].
  unfold shr. rewrite iter_pos_nat. reflexivity.
Qed.

(** Shifting out zeros leaves an exact record. *)
Lemma iter_shr_pow2 (j : nat) (M M' : positive) :
  Zpos M' = Zpos M * 2 ^ Z.of_nat j ->
  Nat.iter j shr_1 (Build_shr_record (Zpos M') false false)
  = Build_shr_record (Zpos M) false false.
Proof.
  revert M'. induction j as [|j IH]; intros M' HM.
  - cbn in *. f_equal. lia.
  - rewrite Nat.iter_succ_r.
    rewrite Nat2Z.inj_succ, Z.pow_succ_r in HM by lia.
    destruct M' as [q|q|]; [lia| |lia].
    cbn [shr_1 orb]. apply IH. lia.
Qed.

Lemma digits_scale (M M' : positive) (j : Z) :
  0 <= j -> Zpos M' = Zpos M * 2 ^ j ->
  Zpos (digits2_pos M') = Zpos (digits2_pos M) + j.
Proof.
  intros Hj HM. apply digits2_pos_unique. rewrite HM.
  destruct (digits2_pos_bounds M) as [L U].
  assert (P : 0 < 2 ^ j) by (apply Z.pow_pos_nonneg; lia).
  replace (Zpos (digits2_pos M) + j - 1) with (Zpos (digits2_pos M) - 1 + j) by lia.
  rewrite !Z.pow_add_r by lia. split; [apply Z.mul_le_mono_nonneg_r; lia|].
  apply Z.mul_lt_mono_pos_r; lia.
Qed.

(** Rounding does not depend on how many zeros the mantissa carries. *)
Lemma aux_scale (s : bool) (M M' : positive) (e j : Z) :
  0 <= j -> Zpos M' = Zpos M * 2 ^ j ->
  e <= fexp prec emax (Zpos (digits2_pos M) + e) ->
  binary_round_aux prec emax s (Zpos M') (e - j) loc_Exact
  = binary_round_aux prec emax s (Zpos M) e loc_Exact.
Proof.
  intros Hj HM He. unfold binary_round_aux.
  assert (E : shr_fexp prec emax (Zpos M') (e - j) loc_Exact
              = shr_fexp prec emax (Zpos M) e loc_Exact); [|now rewrite E].
  unfold shr_fexp. cbn [Zdigits2 shr_record_of_loc].
  rewrite (digits_scale M M' j Hj HM).
  replace (Zpos (digits2_pos M) + j + (e - j)) with (Zpos (digits2_pos M) + e) by lia.
  set (f := fexp prec emax (Zpos (digits2_pos M) + e)) in *.
  rewrite !shr_nat by lia. f_equal; [|lia].
  replace (Z.to_nat (f - (e - j))) with (Z.to_nat (f - e) + Z.to_nat j)%nat by lia.
  rewrite Nat.iter_add. f_equal.
  apply iter_shr_pow2. now rewrite Z2Nat.id.
Qed.

Lemma shl_align_spec (m : positive) (e e' : Z) :
  snd (shl_align m e e') = Z.min e e' /\
  Zpos (fst (shl_align m e e')) = Zpos m * 2 ^ (e - Z.min e e').
Proof.
  destruct (Z.le_gt_cases e' e) as [H|H].
  - rewrite shl_align_e, shl_align_m by assumption.
    rewrite Z.min_r by assumption. auto.
  - unfold shl_align. destruct (e' - e) as [|p|p] eqn:E; try lia; cbn [fst snd];
      rewrite Z.min_l by lia; rewrite Z.sub_diag, Z.pow_0_r; lia.
Qed.

Lemma binary_round_scale (s : bool) (M M' : positive) (e j : Z) :
  0 <= j -> Zpos M' = Zpos M * 2 ^ j ->
  binary_round prec emax s M' (e - j) = binary_round prec emax s M e.
Proof.
  intros Hj HM. unfold binary_round.
  rewrite (digits_scale M M' j Hj HM).
  replace (Zpos (digits2_pos M) + j + (e - j)) with (Zpos (digits2_pos M) + e) by lia.
  set (f := fexp prec emax (Zpos (digits2_pos M) + e)).
  destruct (shl_align_spec M' (e - j) f) as [E1 V1].
  destruct (shl_align_spec M e f) as [E2 V2].
  destruct (shl_align M' (e - j) f) as [m1 e1].
  destruct (shl_align M e f) as [m2 e2]. cbn [fst snd] in *.
  assert (Hj' : 0 <= e2 - e1) by lia.
  assert (Hm : Zpos m1 = Zpos m2 * 2 ^ (e2 - e1)).
  { rewrite V1, V2, HM, <- E1, <- E2, <- !Z.mul_assoc, <- !Z.pow_add_r by lia.
    f_equal. f_equal. lia. }
  replace e1 with (e2 - (e2 - e1)) by lia.
  apply aux_scale; [exact Hj'|exact Hm|].
  rewrite (digits_scale M m2 (e - e2)) by (try lia; rewrite V2, E2; reflexivity).
  replace (Zpos (digits2_pos M) + (e - e2) + e2) with (Zpos (digits2_pos M) + e) by lia.
  fold f. lia.
Qed.

Lemma binary_normalize_scale (z e j : Z) :
  0 <= j ->
  binary_normalize prec emax (z * 2 ^ j) (e - j) false
  = binary_normalize prec emax z e false.
Proof.
  intros Hj. assert (P : 0 < 2 ^ j) by (apply Z.pow_pos_nonneg; lia).
  destruct z as [|p|p].
  - reflexivity.
  - destruct (Zpos p * 2 ^ j) as [|q|q] eqn:E; try lia.
    cbn [binary_normalize]. apply binary_round_scale; [exact Hj|lia].
  - destruct (Zneg p * 2 ^ j) as [|q|q] eqn:E; try lia.
    cbn [binary_normalize]. apply binary_round_scale; [exact Hj|lia].
Qed.

Lemma add_comm (x y : f32) : add x y = add y x.
Proof.
  destruct x as [sx|sx| |sx mx ex], y as [sy|sy| |sy my ey];
    try reflexivity; try (destruct sx, sy; reflexivity).
  unfold add, SFadd. rewrite (Z.min_comm ex ey), Z.add_comm. reflexivity.
Qed.

Lemma cond_Zopp_mul (s : bool) (a c : Z) :
  cond_Zopp s (a * c) = cond_Zopp s a * c.
Proof. destruct s; simpl; lia. Qed.

(** Adding a number does not depend on the way the other operand is
    written as a mantissa and an exponent. *)
Lemma add_repr (s sa : bool) (m m' ma : positive) (e e' ea : Z) :
  e <= e' -> Zpos m = Zpos m' * 2 ^ (e' - e) ->
  add (S754_finite s m e) (S754_finite sa ma ea)
  = add (S754_finite s m' e') (S754_finite sa ma ea).
Proof.
  intros He Hm. unfold add, SFadd.
  set (z1 := Z.min e ea). set (z2 := Z.min e' ea).
  assert (Hz : 0 <= z2 - z1) by (unfold z1, z2; lia).
  rewrite !shl_align_m by (unfold z1, z2; lia).
  replace z1 with (z2 - (z2 - z1)) at 3 by lia.
  rewrite <- (binary_normalize_scale _ z2 (z2 - z1) Hz). f_equal.
  rewrite Z.mul_add_distr_r, <- !cond_Zopp_mul. f_equal; f_equal.
  - rewrite Hm, <- !Z.mul_assoc, <- !Z.pow_add_r by (unfold z1, z2; lia).
    f_equal. f_equal. lia.
  - rewrite <- !Z.mul_assoc, <- !Z.pow_add_r by (unfold z1, z2; lia).
    f_equal. f_equal. lia.
Qed.

(** The product of a float by 1 or 2 (of either sign) is exact. *)
Lemma mul_pow2 (sl sk : bool) (ml : positive) (el ek : Z) :
  Zpos (digits2_pos ml) <= 24 -> -149 <= el -> -23 <= ek ->
  el + ek <= 80 ->
  exists m'' e'',
    mul (S754_finite sl ml el) (S754_finite sk 8388608 ek)
    = S754_finite (xorb sl sk) m'' e'' /\
    el + ek <= e'' /\
    Zpos (ml * 8388608) = Zpos m'' * 2 ^ (e'' - (el + ek)).
Proof.
  intros Hd Hel Hek Hhi. unfold mul, SFmul.
  set (M := (ml * 8388608)%positive). set (e := el + ek).
  assert (HM : Zpos M = Zpos ml * 2 ^ 23) by (unfold M; rewrite Pos2Z.inj_mul; reflexivity).
  pose proof (digits_scale ml M 23 ltac:(lia) HM) as HdM.
  set (f := fexp prec emax (Zpos (digits2_pos M) + e)).
  assert (Hf : f = Z.max (Zpos (digits2_pos M) + e - 24) (-149)) by (unfold f; now rewrite fexp_eq).
  assert (Hdl : 1 <= Zpos (digits2_pos ml)) by lia.
  set (n := Z.max 0 (f - e)).
  assert (Hn : 0 <= n <= 23) by (unfold n, e; lia).
  assert (Hq : exists q : positive, Zpos q = Zpos ml * 2 ^ (23 - n)).
  { assert (0 < Zpos ml * 2 ^ (23 - n)) by (apply Z.mul_pos_pos; [lia|apply Z.pow_pos_nonneg; lia]).
    destruct (Zpos ml * 2 ^ (23 - n)) as [|q|q]; try lia. now exists q. }
  destruct Hq as [q Hq].
  assert (HMq : Zpos M = Zpos q * 2 ^ n).
  { rewrite HM, Hq, <- Z.mul_assoc, <- Z.pow_add_r by lia. f_equal. f_equal. lia. }
  pose proof (digits_scale q M n ltac:(lia) HMq) as Hdq.
  exists q, (e + n). split; [|split; [lia|]].
  - unfold binary_round_aux.
    assert (E1 : shr_fexp prec emax (Zpos M) e loc_Exact
                 = (Build_shr_record (Zpos q) false false, e + n)).
    { unfold shr_fexp. cbn [Zdigits2 shr_record_of_loc]. fold f.
      destruct (Z.le_gt_cases (f - e) 0) as [Hle|Hgt].
      - assert (n = 0) by (unfold n; lia).
        assert (Zpos q = Zpos M) by (rewrite HMq; replace n with 0 by lia; rewrite Z.pow_0_r; lia).
        assert (q = M) by lia. subst q.
        replace (e + n) with e by lia.
        unfold shr. destruct (f - e); try reflexivity; lia.
      - assert (n = f - e) by (unfold n; lia).
        rewrite shr_nat by lia. f_equal; [|lia].
        apply iter_shr_pow2. rewrite Z2Nat.id by lia. replace (f - e) with n by lia.
        exact HMq. }
    rewrite E1. cbn [shr_m loc_of_shr_record round_nearest_even].
    assert (E2 : shr_fexp prec emax (Zpos q) (e + n) loc_Exact
                 = (Build_shr_record (Zpos q) false false, e + n)).
    { unfold shr_fexp. cbn [Zdigits2 shr_record_of_loc].
      replace (Zpos (digits2_pos q) + (e + n)) with (Zpos (digits2_pos M) + e) by lia.
      fold f. unfold shr.
      destruct (f - (e + n)) as [|p|p] eqn:E; try reflexivity.
      unfold n in E. lia. }
    rewrite E2. cbn [shr_m].
    replace (e + n <=? emax - prec) with true; [reflexivity|].
    symmetry. apply Z.leb_le. unfold emax, prec, n, e in *. lia.
  - rewrite HMq. f_equal. f_equal. lia.
Qed.

(** A Sobel term: the product of a luma by a coefficient is exact, so the
    fused multiply-add and the rounded product followed by the addition
    give the same float. *)
Lemma fma_small_int (l acc : f32) (k : Z) :
  valid_binary prec emax l = true -> bounded_by 14 l ->
  is_finite acc = true -> -2 <= k <= 2 ->
  fma l (of_int k) acc = add acc (mul l (of_int k)).
Proof.
  intros Hv Hb Hacc Hk.
  destruct (Z.eq_dec k 0) as [->|Hk0].
  { change (of_int 0) with (S754_zero false).
    destruct l as [sl|sl| |sl ml el]; try contradiction;
      unfold fma; apply add_comm. }
  assert (Hof : exists sk ek, of_int k = S754_finite sk 8388608 ek /\ -23 <= ek <= -22).
  { assert (Hc : k = -2 \/ k = -1 \/ k = 1 \/ k = 2) by lia.
    destruct Hc as [-> | [-> | [-> | ->]]];
      [exists true, (-22)|exists true, (-23)|exists false, (-23)|exists false, (-22)];
      (split; [reflexivity|lia]). }
  destruct Hof as (sk & ek & -> & Hek).
  destruct l as [sl|sl| |sl ml el]; try contradiction.
  - unfold fma. apply add_comm.
  - destruct (valid_finite _ _ _ Hv) as (Hd & Hel & _).
    destruct Hb as [Hb1 Hb2]. unfold prec in Hb2.
    destruct (mul_pow2 sl sk ml el ek Hd Hel ltac:(lia) ltac:(lia))
      as (m'' & e'' & Emul & He'' & Hm'').
    rewrite Emul. unfold fma.
    destruct acc as [sa|sa| |sa ma ea]; try discriminate.
    + rewrite Emul. reflexivity.
    + rewrite (add_comm (S754_finite sa ma ea)). apply add_repr; assumption.
Qed.

(** *** The luma is a float in canonical form *)

Lemma round_valid (s : bool) (M e : Z) (l : location) :
  0 <= M -> e <= fexp prec emax (Zdigits2 M + e) ->
  is_finite (binary_round_aux prec emax s M e l) = true ->
  valid_binary prec emax (binary_round_aux prec emax s M e l) = true.
Proof.
  intros HM He.
  destruct (round_fine s M e l HM He)
    as (m2 & _ & [[_ ->]|(m3 & e3 & _ & _ & Hc & ->)]); [reflexivity|].
  destruct (e3 <=? emax - prec) eqn:El; [|discriminate].
  intros _. cbn [valid_binary]. unfold SpecFloat.bounded, canonical_mantissa.
  rewrite El, Hc, Z.eqb_refl. reflexivity.
Qed.

Lemma binary_normalize_valid (z e : Z) :
  is_finite (binary_normalize prec emax z e false) = true ->
  valid_binary prec emax (binary_normalize prec emax z e false) = true.
Proof.
  assert (H : forall s m, is_finite (binary_round prec emax s m e) = true ->
                          valid_binary prec emax (binary_round prec emax s m e) = true).
  { intros s m. unfold binary_round.
    set (f := fexp prec emax (Zpos (digits2_pos m) + e)).
    destruct (shl_align_spec m e f) as [E V].
    destruct (shl_align m e f) as [m1 e1]. cbn [fst snd] in E, V.
    apply round_valid; [lia|]. cbn [Zdigits2].
    rewrite (digits_scale m m1 (e - e1)) by (try lia; rewrite V, E; reflexivity).
    replace (Zpos (digits2_pos m) + (e - e1) + e1) with (Zpos (digits2_pos m) + e) by lia.
    fold f. lia. }
  destruct z as [|p|p]; [reflexivity| |]; cbn [binary_normalize]; apply H.
Qed.

Lemma mul_valid (x y : f32) :
  full_mantissa x -> full_mantissa y -> is_finite (mul x y) = true ->
  valid_binary prec emax (mul x y) = true.
Proof.
  destruct x as [sx|sx| |sx mx ex], y as [sy|sy| |sy my ey];
    try contradiction; try reflexivity.
  cbn [full_mantissa]. intros Hx Hy. unfold mul, SFmul.
  apply round_valid; [lia|]. cbn [Zdigits2]. rewrite fexp_eq.
  assert (24 <= Zpos (digits2_pos (mx * my))); [|lia].
  destruct (digits2_pos_bounds mx) as [Lx _], (digits2_pos_bounds my) as [Ly _].
  destruct (digits2_pos_bounds (mx * my)) as [_ U].
  rewrite Hx in Lx. rewrite Hy in Ly. rewrite Pos2Z.inj_mul in U.
  destruct (Z.le_gt_cases 24 (Zpos (digits2_pos (mx * my)))) as [|Hlt]; [assumption|].
  exfalso.
  assert (2 ^ Zpos (digits2_pos (mx * my)) <= 2 ^ 23) by (apply Z.pow_le_mono_r; lia).
  assert (2 ^ 23 * 2 ^ 23 <= Zpos mx * Zpos my)
    by (change (24 - 1) with 23 in *; apply Z.mul_le_mono_nonneg; lia).
  assert (2 ^ 23 < 2 ^ 23 * 2 ^ 23) by (simpl; lia). lia.
Qed.

Lemma fma_valid (x y z : f32) :
  full_mantissa x -> full_mantissa y -> valid_binary prec emax z = true ->
  is_finite (fma x y z) = true -> valid_binary prec emax (fma x y z) = true.
Proof.
  intros Hx Hy Hz.
  destruct x as [sx|sx| |sx mx ex], y as [sy|sy| |sy my ey];
    try contradiction;
    try (unfold fma; destruct z as [sz|sz| |sz mz ez];
         try discriminate; try (intros _; exact Hz);
         destruct sx, sy, sz; reflexivity).
  unfold fma. destruct z as [sz|sz| |sz mz ez]; try discriminate.
  - apply mul_valid; assumption.
  - unfold add, SFadd. apply binary_normalize_valid.
Qed.

Lemma of_int_byte_full (c : byte) :
  full_mantissa (of_int (u8 c)) /\ bounded_by 9 (of_int (u8 c)).
Proof.
  split.
  - destruct c; vm_compute; trivial.
  - apply (of_int_bounded (u8 c) 8); [|lia].
    pose proof (u8_range c). change (2 ^ 8) with 256. lia.
Qed.

Lemma luma_valid (r g b : byte) : valid_binary prec emax (luma r g b) = true.
Proof.
  destruct (of_int_byte_full r) as [Fr Br], (of_int_byte_full g) as [Fg Bg],
    (of_int_byte_full b) as [Fb Bb].
  assert (H1 : bounded_by 0 (lit 299 1000)) by (vm_compute; split; discriminate).
  assert (H2 : bounded_by 0 (lit 587 1000)) by (vm_compute; split; discriminate).
  assert (H3 : bounded_by 0 (lit 114 1000)) by (vm_compute; split; discriminate).
  assert (F1 : full_mantissa (lit 299 1000)) by reflexivity.
  assert (F2 : full_mantissa (lit 587 1000)) by reflexivity.
  assert (F3 : full_mantissa (lit 114 1000)) by reflexivity.
  pose proof (mul_bounded _ _ 0 9 H2 Bg ltac:(lia)) as B0.
  pose proof (fma_bounded _ _ _ 0 9 10 H1 Br B0 ltac:(lia) ltac:(lia) ltac:(lia)) as B1.
  unfold luma. apply fma_valid; try assumption.
  - apply fma_valid; try assumption.
    + apply mul_valid; try assumption. exact (bounded_by_finite _ _ B0).
    + exact (bounded_by_finite _ _ B1).
  - exact (bounded_by_finite _ _ (luma_bounded r g b)).
Qed.

(** *** The Sobel sums *)

(** One window step with both products fused is the step of the model. *)
Lemma sobel_step_fused_eq (ctx : ProcessingContext) (srcx srcy : Z)
    (acc : gradient) (k : Z * Z) :
  is_finite (gx acc) = true -> is_finite (gy acc) = true ->
  sobel_step_fused ctx srcx srcy acc k = sobel_step ctx srcx srcy acc k.
Proof.
  intros Hx Hy. unfold sobel_step_fused, sobel_step.
  destruct (sample_coord ctx srcx srcy k) as [sx sy].
  assert (Hl : valid_binary prec emax (luma_at ctx sx sy) = true
               /\ bounded_by 14 (luma_at ctx sx sy)).
  { unfold luma_at. destruct (pixel ctx sx sy) as [[r g] bl].
    split; [apply luma_valid|apply luma_bounded]. }
  destruct Hl as [Hv Hb].
  destruct (sobel_coefficient_range (fst k) (snd k)) as [Cx Cy].
  change (2 ^ 2) with 4 in Cx, Cy.
  assert (Rx : -2 <= sobel_x (fst k) (snd k) <= 2).
  { unfold sobel_x.
    destruct (Z.to_nat (fst k + 1)) as [|[|[|n]]], (Z.to_nat (snd k + 1)) as [|[|[|n']]];
      simpl; try destruct n; try destruct n'; simpl; lia. }
  assert (Ry : -2 <= sobel_y (fst k) (snd k) <= 2).
  { unfold sobel_y.
    destruct (Z.to_nat (fst k + 1)) as [|[|[|n]]], (Z.to_nat (snd k + 1)) as [|[|[|n']]];
      simpl; try destruct n; try destruct n'; simpl; lia. }
  rewrite (fma_small_int _ (gx acc) _ Hv Hb Hx Rx).
  rewrite (fma_small_int _ (gy acc) _ Hv Hb Hy Ry).
  reflexivity.
Qed.

Lemma sobel_fold_fused (ctx : ProcessingContext) (srcx srcy : Z)
    (l : list (Z * Z)) (acc : gradient) (b : Z) :
  18 <= b -> b + 2 * Z.of_nat (List.length l) <= 128 ->
  bounded_by b (gx acc) -> bounded_by b (gy acc) ->
  fold_left (sobel_step_fused ctx srcx srcy) l acc
  = fold_left (sobel_step ctx srcx srcy) l acc.
Proof.
  revert acc b. induction l as [|k l IH]; intros acc b Hb Hlen Hgx Hgy.
  - reflexivity.
  - cbn [fold_left]. cbn [List.length] in Hlen.
    rewrite sobel_step_fused_eq
      by (eapply bounded_by_finite; eassumption).
    destruct (sobel_step_bounded ctx srcx srcy acc k b ltac:(lia) Hgx Hgy) as [H1 H2].
    apply (IH _ (b + 2)); try assumption; lia.
Qed.

(** Whether the compiler fuses the products of the window loop into the
    sums or not, every cell gets the same gradient and centre luma. *)
Lemma sobel_contraction_irrelevant (ctx : ProcessingContext) (srcx srcy : Z) :
  fold_left (sobel_step_fused ctx srcx srcy) window
            {| gx := zero; gy := zero; center_luma := zero |}
  = sobel ctx srcx srcy.
Proof.
  unfold sobel. apply (sobel_fold_fused ctx srcx srcy window _ 18);
    [lia | vm_compute; discriminate | exact I | exact I].
Qed.

End Contraction.
